(** * Accessible colour palette generator: ColorUtil, colorHarmonies,
      PaletteGenerator, the accessibility report of ExportManager and
      StateManager, embedded from the JavaScript sources.

    JavaScript numbers are idealised as real numbers: [+ - * /], comparisons,
    [Math.max], [Math.min], [Math.abs], [Math.round], [%] and [Math.pow] are
    the exact operations on [R], with no rounding and no NaN or Infinity.
    The source computes in binary floating point, where a result can
    differ from the exact one in its last digits; the statements on
    computed numbers are therefore inequalities, equalities of the rounded
    channels and of hex texts, or distances up to a tolerance, and the
    lemmas with exact values serve their proofs.
    Integers that the source keeps as integers (indices, sizes, table
    entries, hex bytes) are [nat] or [Z].  A JavaScript exception is the
    [Throw] outcome of the [completion] monad.  Colours are values: the
    source never mutates a [ColorUtil] after its constructor, it replaces
    array slots.  Console output is left out. *)

From Stdlib Require Import Reals Lra Lia ZArith String Ascii.
From stdpp Require Import base decidable option list strings gmap.

#[local] Open Scope R_scope.

(** ** Outcomes of a JavaScript computation *)

(** [TypeError]: a property of [undefined] or [null] was read, or
    [undefined] was called.  [NotANumber]: an array was read past its end
    where a number is expected; the source carries on with [undefined] and
    NaN there, values this embedding does not have. *)
Inductive js_error : Type := TypeError | NotANumber.

Inductive completion (A : Type) : Type :=
| Normal (a : A)
| Throw (e : js_error).
Arguments Normal {A} a.
Arguments Throw {A} e.

#[global] Instance completion_ret : MRet completion := fun A a => Normal a.
#[global] Instance completion_bind : MBind completion := fun A B f m =>
  match m with
  | Normal a => f a
  | Throw e => Throw e
  end.

#[global] Instance completion_fmap : FMap completion := fun A B f m =>
  match m with
  | Normal a => Normal (f a)
  | Throw e => Throw e
  end.

(** [try { m } catch (e) { handler }] *)
Definition try_catch {A} (m : completion A) (handler : completion A) : completion A :=
  match m with
  | Normal a => Normal a
  | Throw _ => handler
  end.

(** Reading a property of a value that may be [undefined]. *)
Definition deref {A} (o : option A) : completion A :=
  match o with
  | Some a => Normal a
  | None => Throw TypeError
  end.

(** Reading a number out of an array of numbers. *)
Definition number_at {A} (l : list A) (i : nat) : completion A :=
  match l !! i with
  | Some a => Normal a
  | None => Throw NotANumber
  end.

(** [for (let i = start; i < start + n; i++) body], threading the state the
    body mutates; a [Throw] leaves the loop. *)
Fixpoint for_range {St : Type} (start n : nat)
    (body : nat -> St -> completion St) (s : St) : completion St :=
  match n with
  | O => Normal s
  | S n' => s' ← body start s; for_range (S start) n' body s'
  end.

(** ** Numbers *)

#[global] Instance Rlt_decision (x y : R) : Decision (x < y) := Rlt_dec x y.
#[global] Instance Rle_decision (x y : R) : Decision (x <= y) := Rle_dec x y.
#[global] Instance Rgt_decision (x y : R) : Decision (x > y) := Rgt_dec x y.
#[global] Instance Rge_decision (x y : R) : Decision (x >= y) := Rge_dec x y.
#[global] Instance R_eq_decision : EqDecision R := Req_dec_T.

(** Truncation toward zero, as in the definition of [%]. *)
Definition Rtrunc (x : R) : Z :=
  if decide (0 <= x) then Int_part x else (- Int_part (- x))%Z.

(** [x % m]: the remainder has the sign of the dividend. *)
Definition js_rem (x m : R) : R := x - m * IZR (Rtrunc (x / m)).

(** [Math.round(x)]: the integer nearest to [x], halves rounded up. *)
Definition Math_round (x : R) : Z := Int_part (x + / 2).

(** [Math.pow(x, y)], called by the source on positive bases only (see
    [getLuminance], where the base is above 0.055 / 1.055). *)
Definition Math_pow (x y : R) : R := Rpower x y.

(** ** 32-bit integers and hexadecimal text ([rgbToHex]) *)

Definition ToInt32 (z : Z) : Z :=
  let m := (z mod 2 ^ 32)%Z in
  if (m <? 2 ^ 31)%Z then m else (m - 2 ^ 32)%Z.

(** [a << k] *)
Definition shl32 (a : Z) (k : Z) : Z := ToInt32 (Z.shiftl (ToInt32 a) k).

Definition hex_digit (d : N) : ascii :=
  match d with
  | 0 => "0" | 1 => "1" | 2 => "2" | 3 => "3" | 4 => "4" | 5 => "5"
  | 6 => "6" | 7 => "7" | 8 => "8" | 9 => "9" | 10 => "a" | 11 => "b"
  | 12 => "c" | 13 => "d" | 14 => "e" | _ => "f"
  end%N%char.

Fixpoint hex_of_pos (fuel : nat) (p : N) (acc : string) : string :=
  match fuel with
  | O => acc
  | S fuel' =>
      if (p =? 0)%N then acc
      else hex_of_pos fuel' (p / 16)%N (String (hex_digit (p mod 16)%N) acc)
  end.

(** [n.toString(16)] for an integer [n]. *)
Definition toString16 (z : Z) : string :=
  match z with
  | Z0 => "0"
  | Zpos p => hex_of_pos (Pos.size_nat p) (Npos p) ""
  | Zneg p => String "-" (hex_of_pos (Pos.size_nat p) (Npos p) "")
  end%string.

(** [s.slice(1)] *)
Definition slice1 (s : string) : string :=
  match s with
  | EmptyString => EmptyString
  | String _ rest => rest
  end.

(** [parseInt(c, 16)] on one character matched by [[a-f\d]] under [/i]. *)
Definition hex_value (c : ascii) : option Z :=
  let n := nat_of_ascii c in
  if (48 <=? n)%nat && (n <=? 57)%nat then Some (Z.of_nat (n - 48))
  else if (97 <=? n)%nat && (n <=? 102)%nat then Some (Z.of_nat (n - 87))
  else if (65 <=? n)%nat && (n <=? 70)%nat then Some (Z.of_nat (n - 55))
  else None.

(** ** Colours *)

Module RGB.
Record t : Type := mk { r : R; g : R; b : R }.
End RGB.

Module HSL.
Record t : Type := mk { h : R; s : R; l : R }.
End HSL.

(** A [ColorUtil] object: each field is [None] while the constructor has not
    assigned it.  The [type: 'hsl'] tag that [fromHsl] leaves inside the
    [hsl] field is never read again and is not kept. *)
Record ColorUtil : Type := mkColorUtil {
  hex : option string;
  rgb : option RGB.t;
  hsl : option HSL.t
}.

(** The regular expression [/^#?([a-f\d]{2})([a-f\d]{2})([a-f\d]{2})$/i]:
    the six captured digits, or [None] when there is no match. *)
Definition hex_digits (s : string) : option (list Z) :=
  let body := if String.prefix "#" s then slice1 s else s in
  if decide (String.length body = 6%nat)
  then mapM hex_value (list_ascii_of_string body)
  else None.

(** [hexToRgb]: [null] is [None]. *)
Definition hexToRgb (s : string) : option RGB.t :=
  match hex_digits s with
  | Some [r1; r2; g1; g2; b1; b2] =>
      Some (RGB.mk (IZR (16 * r1 + r2)) (IZR (16 * g1 + g2)) (IZR (16 * b1 + b2)))
  | _ => None
  end.

Definition rgbToHex (r g b : R) : string :=
  String "#" (slice1 (toString16
    (shl32 1 24 + shl32 (Math_round r) 16 + shl32 (Math_round g) 8 + Math_round b)%Z)).

Definition rgbToHsl (r g b : R) : HSL.t :=
  let r := r / 255 in
  let g := g / 255 in
  let b := b / 255 in
  let max := Rmax (Rmax r g) b in
  let min := Rmin (Rmin r g) b in
  let l := (max + min) / 2 in
  if decide (max = min) then HSL.mk (0 * 360) (0 * 100) (l * 100)
  else
    let d := max - min in
    let s := if decide (l > 0.5) then d / (2 - max - min) else d / (max + min) in
    let h :=
      if decide (max = r) then (g - b) / d + (if decide (g < b) then 6 else 0)
      else if decide (max = g) then (b - r) / d + 2
      else (* max = b: the maximum is one of the three *) (r - g) / d + 4 in
    let h := h / 6 in
    HSL.mk (h * 360) (s * 100) (l * 100).

Definition hue2rgb (p q t : R) : R :=
  let t := if decide (t < 0) then t + 1 else t in
  let t := if decide (t > 1) then t - 1 else t in
  if decide (t < 1 / 6) then p + (q - p) * 6 * t
  else if decide (t < 1 / 2) then q
  else if decide (t < 2 / 3) then p + (q - p) * (2 / 3 - t) * 6
  else p.

Definition hslToRgb (h s l : R) : RGB.t :=
  let h := h / 360 in
  let s := s / 100 in
  let l := l / 100 in
  if decide (s = 0) then RGB.mk (l * 255) (l * 255) (l * 255)
  else
    let q := if decide (l < 0.5) then l * (1 + s) else l + s - l * s in
    let p := 2 * l - q in
    RGB.mk (hue2rgb p q (h + 1 / 3) * 255) (hue2rgb p q h * 255)
           (hue2rgb p q (h - 1 / 3) * 255).

(** [new ColorUtil(color)] for a string argument.  A string that does not
    start with [#] passes through the constructor with no field assigned;
    one that starts with [#] and fails the pattern throws at [this.rgb.r]. *)
Definition new_ColorUtil (color : string) : completion ColorUtil :=
  if String.prefix "#" color then
    c ← deref (hexToRgb color);
    Normal (mkColorUtil (Some color) (Some c)
              (Some (rgbToHsl (RGB.r c) (RGB.g c) (RGB.b c))))
  else Normal (mkColorUtil None None None).

(** [ColorUtil.fromHsl(h, s, l)], the object branch of the constructor. *)
Definition fromHsl (h s l : R) : ColorUtil :=
  let c := hslToRgb h s l in
  mkColorUtil (Some (rgbToHex (RGB.r c) (RGB.g c) (RGB.b c))) (Some c)
    (Some (HSL.mk h s l)).

(** The callback that [getLuminance] maps over the three channels. *)
Definition linearize (c : R) : R :=
  let c := c / 255 in
  if decide (c <= 0.03928) then c / 12.92 else Math_pow ((c + 0.055) / 1.055) 2.4.

Definition getLuminance (this : ColorUtil) : completion R :=
  c ← deref (rgb this);
  Normal (0.2126 * linearize (RGB.r c) + 0.7152 * linearize (RGB.g c)
          + 0.0722 * linearize (RGB.b c)).

Definition getContrastRatio (this otherColor : ColorUtil) : completion R :=
  lum1 ← getLuminance this;
  lum2 ← getLuminance otherColor;
  let brightest := Rmax lum1 lum2 in
  let darkest := Rmin lum1 lum2 in
  Normal ((brightest + 0.05) / (darkest + 0.05)).

Definition meetsWCAGContrast (this backgroundColor : ColorUtil) (level : string)
    : completion bool :=
  ratio ← getContrastRatio this backgroundColor;
  let requiredRatio := if decide (level = "AAA"%string) then 7 else 4.5 in
  Normal (bool_decide (ratio >= requiredRatio)).

(** ** colorHarmonies *)

(** The five entries of the [colorHarmonies] table.  Any other key reads as
    [undefined] here; for the names every object inherits from
    [Object.prototype] ([toString], [constructor], ...) the source finds the
    inherited member instead, a value this embedding does not have. *)
Definition colorHarmonies (harmonyType : string) : option (R -> list R) :=
  if decide (harmonyType = "complementary"%string) then
    Some (fun hue => [hue; js_rem (hue + 180) 360])
  else if decide (harmonyType = "triadic"%string) then
    Some (fun hue => [hue; js_rem (hue + 120) 360; js_rem (hue + 240) 360])
  else if decide (harmonyType = "analogous"%string) then
    Some (fun hue => [hue; js_rem (hue + 25) 360; js_rem (hue + 50) 360;
                      js_rem (hue - 25 + 360) 360; js_rem (hue - 50 + 360) 360])
  else if decide (harmonyType = "monochromatic"%string) then
    Some (fun hue => [hue; hue; hue; hue; hue])
  else if decide (harmonyType = "tetradic"%string) then
    Some (fun hue => [hue; js_rem (hue + 90) 360; js_rem (hue + 180) 360;
                      js_rem (hue + 270) 360])
  else None.

(** ** parseInt *)

(** The argument of [validateSize] is documented as [number|string]: a
    number, idealised as a real like every number here, or a string of
    ASCII characters. *)
Inductive js_size : Type :=
| SizeNumber (x : R)
| SizeString (s : string).

Definition is_space (c : ascii) : bool :=
  let n := nat_of_ascii c in
  ((9 <=? n)%nat && (n <=? 13)%nat) || (n =? 32)%nat.

Fixpoint skip_spaces (s : string) : string :=
  match s with
  | String c rest => if is_space c then skip_spaces rest else s
  | EmptyString => s
  end.

Definition digit_value (radix : Z) (c : ascii) : option Z :=
  match hex_value c with
  | Some d => if (d <? radix)%Z then Some d else None
  | None => None
  end.

(** The longest prefix of digits; [None] (NaN) when it is empty. *)
Fixpoint parse_digits (radix : Z) (s : string) (acc : option Z) : option Z :=
  match s with
  | String c rest =>
      match digit_value radix c with
      | Some d => parse_digits radix rest (Some (radix * default 0%Z acc + d)%Z)
      | None => acc
      end
  | EmptyString => acc
  end.

Definition parseInt_string (s : string) : option Z :=
  let s := skip_spaces s in
  let '(sign, s) := match s with
                    | String "-" rest => ((-1)%Z, rest)
                    | String "+" rest => (1%Z, rest)
                    | _ => (1%Z, s)
                    end in
  let '(radix, s) := match s with
                     | String "0" (String "x" rest) => (16%Z, rest)
                     | String "0" (String "X" rest) => (16%Z, rest)
                     | _ => (10%Z, s)
                     end in
  Z.mul sign <$> parse_digits radix s None.

(** The first digit of the decimal expansion of a number that is not 0. *)
Definition leading_digit (x : R) : Z :=
  Int_part (Rabs x / powerRZ 10 (Int_part (ln (Rabs x) / ln 10))).

(** [parseInt] of a number reads the text of the number.  From 10^-6 up to
    10^21 in magnitude that text is plain decimal and the digits before the
    point are read, which truncates the number; outside it is in exponent
    notation, of which only the leading digit is read. *)
Definition parseInt_number (x : R) : Z :=
  if decide (x = 0) then 0%Z
  else if decide (/ 1000000 <= Rabs x < 1000000000000000000000)
       then Rtrunc x
       else if decide (x < 0) then (- leading_digit x)%Z else leading_digit x.

(** [parseInt(size)]; [None] is NaN. *)
Definition parseInt (size : js_size) : option Z :=
  match size with
  | SizeNumber x => Some (parseInt_number x)
  | SizeString s => parseInt_string s
  end.

(** ** PaletteGenerator *)

Record PaletteGenerator : Type := mkPaletteGenerator {
  whiteColor : ColorUtil;
  darkBgColor : ColorUtil;
  harmonyType : string
}.

Definition new_PaletteGenerator : completion PaletteGenerator :=
  w ← new_ColorUtil "#ffffff";
  d ← new_ColorUtil "#2c3e50";
  Normal (mkPaletteGenerator w d "triadic").

Definition validateSize (size : js_size) : nat :=
  match parseInt size with
  | Some numSize =>
      if decide (numSize = 3 ∨ numSize = 5)%Z then Z.to_nat numSize else 5%nat
  | None => 5%nat
  end.

(** [levels[index - 1] || fallback]; no table holds a zero. *)
Definition level_or (levels : list R) (index : nat) (fallback : R) : R :=
  match index with
  | O => fallback
  | S k => default fallback (levels !! k)
  end.

Definition generateColorFromHarmony (baseColor : ColorUtil) (harmonyHues : list R)
    (harmonyType : string) (index totalSize : nat) : completion ColorUtil :=
  let hue := harmonyHues !! (index mod length harmonyHues) in
  '(hue, saturation, lightness) ←
    (if decide (harmonyType = "monochromatic"%string) then
       let hueVariation := (IZR (Z.of_nat index) - 1) * 10 in
       base ← deref (hsl baseColor);
       let hue := js_rem (HSL.h base + hueVariation) 360 in
       let saturation :=
         Rmax 30 (Rmin 90 (HSL.s base + (IZR (Z.of_nat index) - 2) * 15)) in
       let lightness :=
         if decide (totalSize = 3%nat) then level_or [30; 50; 70] index 50
         else level_or [15; 35; 55; 75; 90] index 50 in
       Normal (hue, saturation, lightness)
     else
       let saturation :=
         if decide (totalSize = 3%nat) then level_or [75; 60; 85] index 70
         else level_or [75; 60; 85; 50; 80] index 70 in
       let lightness :=
         if decide (totalSize = 3%nat) then level_or [50; 35; 70] index 50
         else level_or [50; 35; 70; 20; 80] index 50 in
       hue ← match hue with Some hue => Normal hue | None => Throw NotANumber end;
       if decide (harmonyType = "complementary"%string) then
         if decide (index = 1%nat)
         then Normal (hue, Rmin 85 (saturation + 10), Rmax 20 (lightness - 5))
         else Normal (hue, saturation, lightness)
       else if decide (harmonyType = "analogous"%string) then
         let saturation := Rmax 50 (saturation - 5) in
         if decide (index = 2%nat)
         then Normal (hue, saturation, Rmin 80 (lightness + 10))
         else Normal (hue, saturation, lightness)
       else if decide (harmonyType = "tetradic"%string) then
         if decide (index mod 2 = 1)%nat
         then Normal (hue, saturation, Rmax 15 (lightness - 10))
         else Normal (hue, saturation, Rmin 85 (lightness + 10))
       else Normal (hue, saturation, lightness));
  let saturation := Rmax 20 (Rmin 95 saturation) in
  let lightness := Rmax 10 (Rmin 90 lightness) in
  Normal (fromHsl hue saturation lightness).

Definition generateBaseColors (baseColor harmonyType : string) (size : nat)
    : completion (list ColorUtil) :=
  color ← try_catch (new_ColorUtil baseColor) (new_ColorUtil "#5500AA");
  base ← deref (hsl color);
  let baseHue := HSL.h base in
  harmony ← deref (colorHarmonies harmonyType);
  let harmonyHues := harmony baseHue in
  for_range 0 size (fun i colors =>
    generatedColor ←
      (if decide (i = 0%nat) then new_ColorUtil baseColor
       else generateColorFromHarmony color harmonyHues harmonyType i size);
    Normal (colors ++ [generatedColor])) [].

Definition getTargetLightnessRange (isLightBackground : bool)
    (colorIndex totalColors : nat) (harmonyType : string) : completion (Z * Z) :=
  if isLightBackground then
    if decide (harmonyType = "monochromatic"%string) then
      if decide (totalColors = 3%nat) then
        let base := (10 + Z.of_nat colorIndex * 20)%Z in
        Normal (base, (base + 15)%Z)
      else
        let base := (10 + Z.of_nat colorIndex * 15)%Z in
        Normal (base, (base + 15)%Z)
    else
      let ranges := [(15, 35); (25, 45); (35, 55); (20, 40); (10, 30)]%Z in
      number_at ranges (colorIndex mod length ranges)
  else
    if decide (totalColors = 3%nat) then
      let ranges := [(70, 95); (60, 80); (75, 90)]%Z in
      number_at ranges (colorIndex mod length ranges)
    else
      let ranges := [(70, 90); (60, 80); (50, 70); (65, 85); (75, 95)]%Z in
      number_at ranges (colorIndex mod length ranges).

(** The body of the loop of [expandedColorSearch], [n] iterations left. *)
Fixpoint expanded_loop (n : nat) (originalHsl : option HSL.t)
    (backgroundColor : ColorUtil) (targetRatio step searchDirection : R)
    (targetLightness : R) (bestColor : ColorUtil) (bestContrast : R)
    : completion ColorUtil :=
  match n with
  | O => Normal bestColor
  | S n' =>
      let targetLightness := targetLightness + searchDirection * step in
      if decide (targetLightness < 5 ∨ targetLightness > 95) then Normal bestColor
      else
        o ← deref originalHsl;
        let testColor := fromHsl (HSL.h o) (HSL.s o) targetLightness in
        testContrast ← getContrastRatio testColor backgroundColor;
        if decide (testContrast >= targetRatio) then Normal testColor
        else if decide (testContrast > bestContrast) then
          expanded_loop n' originalHsl backgroundColor targetRatio step
            searchDirection targetLightness testColor testContrast
        else
          expanded_loop n' originalHsl backgroundColor targetRatio step
            searchDirection targetLightness bestColor bestContrast
  end.

Definition expandedColorSearch (originalHsl : option HSL.t)
    (backgroundColor : ColorUtil) (targetRatio : R) (isLightBackground : bool)
    (targetLightnessRange : Z * Z) (bestColor : ColorUtil) : completion ColorUtil :=
  let step := if decide (targetRatio >= 7) then 1 else 2 in
  let searchDirection := if isLightBackground then -1 else 1 in
  let targetLightness :=
    (IZR (fst targetLightnessRange) + IZR (snd targetLightnessRange)) / 2 in
  bestContrast ← getContrastRatio bestColor backgroundColor;
  expanded_loop 45 originalHsl backgroundColor targetRatio step searchDirection
    targetLightness bestColor bestContrast.

(** How often [for (let l = lo; l <= hi; l += 2)] runs its body. *)
Definition scan_count (lo hi : Z) : nat := Z.to_nat ((hi - lo + 2) / 2).

(** The scan of [findOptimalColor], [n] iterations left: [inl] is the
    [return testColor] inside the loop, [inr] the best pair at loop exit. *)
Fixpoint scan_loop (n : nat) (l : Z) (originalHsl : option HSL.t)
    (backgroundColor : ColorUtil) (targetRatio upperBound : R)
    (bestColor : ColorUtil) (bestContrast : R)
    : completion (ColorUtil + ColorUtil * R) :=
  match n with
  | O => Normal (inr (bestColor, bestContrast))
  | S n' =>
      o ← deref originalHsl;
      let testColor := fromHsl (HSL.h o) (HSL.s o) (IZR l) in
      testContrast ← getContrastRatio testColor backgroundColor;
      if decide (testContrast >= targetRatio ∧ testContrast <= upperBound)
      then Normal (inl testColor)
      else if decide (Rabs (testContrast - targetRatio)
                      < Rabs (bestContrast - targetRatio)) then
        scan_loop n' (l + 2)%Z originalHsl backgroundColor targetRatio upperBound
          testColor testContrast
      else
        scan_loop n' (l + 2)%Z originalHsl backgroundColor targetRatio upperBound
          bestColor bestContrast
  end.

Definition findOptimalColor (this : PaletteGenerator)
    (originalColor backgroundColor : ColorUtil) (targetRatio upperBound : R)
    (colorIndex totalColors : nat) : completion ColorUtil :=
  let originalHsl := hsl originalColor in
  lum ← getLuminance backgroundColor;
  let isLightBackground := bool_decide (lum > 0.5) in
  targetLightnessRange ←
    getTargetLightnessRange isLightBackground colorIndex totalColors
      (harmonyType this);
  bestContrast ← getContrastRatio originalColor backgroundColor;
  scanned ← scan_loop
    (scan_count (fst targetLightnessRange) (snd targetLightnessRange))
    (fst targetLightnessRange) originalHsl backgroundColor targetRatio
    upperBound originalColor bestContrast;
  match scanned with
  | inl testColor => Normal testColor
  | inr (bestColor, _) =>
      expandedColorSearch originalHsl backgroundColor targetRatio
        isLightBackground targetLightnessRange bestColor
  end.

Definition optimizeColorForBackground (this : PaletteGenerator)
    (originalColor backgroundColor : ColorUtil) (targetRatio : R)
    (colorIndex totalColors : nat) : completion ColorUtil :=
  currentContrast ← getContrastRatio originalColor backgroundColor;
  let upperBound := if decide (targetRatio = 4.5) then 6.0 else 8.5 in
  if decide (currentContrast >= targetRatio) then
    if decide (currentContrast <= upperBound) then Normal originalColor
    else Normal originalColor
  else
    findOptimalColor this originalColor backgroundColor targetRatio upperBound
      colorIndex totalColors.

(** [array.map((element, index) => f(element, index))] *)
Fixpoint map_indexed {A B} (f : A -> nat -> completion B) (index : nat)
    (l : list A) : completion (list B) :=
  match l with
  | [] => Normal []
  | x :: rest =>
      y ← f x index;
      ys ← map_indexed f (S index) rest;
      Normal (y :: ys)
  end.

Definition generateOptimizedPalette (this : PaletteGenerator)
    (baseColors : list ColorUtil) (backgroundColor : ColorUtil)
    (minContrastRatio : R) : completion (list ColorUtil) :=
  map_indexed (fun color index =>
    optimizeColorForBackground this color backgroundColor minContrastRatio
      index (length baseColors)) 0 baseColors.

(** ** Differentiation *)

(** [for (const x of items) body], threading the state the body mutates. *)
Fixpoint for_each {A St : Type} (items : list A)
    (body : A -> St -> completion St) (s : St) : completion St :=
  match items with
  | [] => Normal s
  | x :: rest => s' ← body x s; for_each rest body s'
  end.

Definition getCircularHueDistance (hue1 hue2 : R) : R :=
  let h1 := js_rem (js_rem hue1 360 + 360) 360 in
  let h2 := js_rem (js_rem hue2 360 + 360) 360 in
  let diff := Rabs (h1 - h2) in
  Rmin diff (360 - diff).

Definition getOptimalLightnessDistribution (paletteSize : nat)
    (isLightBackground : bool) : list R :=
  if isLightBackground then
    if decide (paletteSize = 3%nat) then [15; 35; 55] else [10; 25; 40; 55; 70]
  else
    if decide (paletteSize = 3%nat) then [60; 75; 90] else [50; 65; 80; 90; 95].

(** The loop of [adjustColorToTargetLightness] over
    [adjustment = 5, 10, ..., 25], [n] iterations left; [None] when the
    loop ends without a [return]. *)
Fixpoint adjust_loop (n : nat) (adjustment : R) (originalHsl : HSL.t)
    (backgroundColor : ColorUtil) (minContrastRatio targetLightness : R)
    (searchDirection : R) : completion (option ColorUtil) :=
  match n with
  | O => Normal None
  | S n' =>
      let adjustedLightness :=
        Rmax 5 (Rmin 95 (targetLightness + searchDirection * adjustment)) in
      let testColor :=
        fromHsl (HSL.h originalHsl) (HSL.s originalHsl) adjustedLightness in
      testContrast ← getContrastRatio testColor backgroundColor;
      if decide (testContrast >= minContrastRatio) then Normal (Some testColor)
      else adjust_loop n' (adjustment + 5) originalHsl backgroundColor
             minContrastRatio targetLightness searchDirection
  end.

Definition adjustColorToTargetLightness (originalColor backgroundColor : ColorUtil)
    (minContrastRatio targetLightness : R) : completion ColorUtil :=
  originalHsl ← deref (hsl originalColor);
  let testColor :=
    fromHsl (HSL.h originalHsl) (HSL.s originalHsl) targetLightness in
  testContrast ← getContrastRatio testColor backgroundColor;
  if decide (testContrast >= minContrastRatio) then Normal testColor
  else
    lum ← getLuminance backgroundColor;
    let isLightBackground := bool_decide (lum > 0.5) in
    let searchDirection := if isLightBackground then -1 else 1 in
    found ← adjust_loop 5 5 originalHsl backgroundColor minContrastRatio
      targetLightness searchDirection;
    match found with
    | Some testColor => Normal testColor
    | None => Normal originalColor
    end.

(** The palette array is mutated in place by every stage; here each stage
    takes the array and returns it.  Assigning to a slot the object it
    already holds changes nothing, so the guard
    [adjustedColor !== originalColor] needs no counterpart. *)
Definition distributeColorsOptimally (palette : list ColorUtil)
    (backgroundColor : ColorUtil) (minContrastRatio minLightnessDiff : R)
    : completion (list ColorUtil) :=
  lum ← getLuminance backgroundColor;
  let isLightBackground := bool_decide (lum > 0.5) in
  let paletteSize := length palette in
  let optimalLightness :=
    getOptimalLightnessDistribution paletteSize isLightBackground in
  for_range 0 (length palette) (fun i palette =>
    originalColor ← deref (palette !! i);
    targetLightness ← number_at optimalLightness i;
    adjustedColor ← adjustColorToTargetLightness originalColor backgroundColor
      minContrastRatio targetLightness;
    Normal (<[i := adjustedColor]> palette)) palette.

(** The nested loops [for i / for j = i + 1] that collect the index pairs
    passing [similar]. *)
Definition collect_pairs (palette : list ColorUtil)
    (similar : ColorUtil -> ColorUtil -> completion bool)
    : completion (list (nat * nat)) :=
  for_range 0 (length palette) (fun i pairs =>
    for_range (S i) (length palette - S i) (fun j pairs =>
      color1 ← deref (palette !! i);
      color2 ← deref (palette !! j);
      close ← similar color1 color2;
      Normal (if close : bool then pairs ++ [(i, j)] else pairs)) pairs) [].

Definition adjustSaturationForDifferentiation (palette : list ColorUtil)
    (minSaturationDiff : R) : completion (list ColorUtil) :=
  similarSaturationPairs ← collect_pairs palette (fun color1 color2 =>
    hsl1 ← deref (hsl color1);
    hsl2 ← deref (hsl color2);
    let satDiff := Rabs (HSL.s hsl1 - HSL.s hsl2) in
    let lightDiff := Rabs (HSL.l hsl1 - HSL.l hsl2) in
    Normal (bool_decide (satDiff < minSaturationDiff ∧ lightDiff < 15)));
  for_each similarSaturationPairs (fun pair palette =>
    color1 ← deref (palette !! pair.1);
    color2 ← deref (palette !! pair.2);
    let adjustment := minSaturationDiff + 10 in
    hsl2 ← deref (hsl color2);
    hsl1 ← deref (hsl color1);
    let newSat :=
      if decide (HSL.s hsl2 > HSL.s hsl1)
      then Rmin 95 (HSL.s hsl2 + adjustment)
      else Rmax 20 (HSL.s hsl2 - adjustment) in
    let adjustedColor := fromHsl (HSL.h hsl2) newSat (HSL.l hsl2) in
    Normal (<[pair.2 := adjustedColor]> palette)) palette.

(** The loop [for (const direction of [1, -1])] of
    [applyMinimalHueAdjustments]: the first test colour that keeps the
    contrast, after which the loop breaks. *)
Fixpoint try_directions (directions : list R) (originalHsl : HSL.t)
    (backgroundColor : ColorUtil) (minContrastRatio maxHueAdjustment : R)
    : completion (option ColorUtil) :=
  match directions with
  | [] => Normal None
  | direction :: rest =>
      let newHue :=
        js_rem (HSL.h originalHsl + direction * maxHueAdjustment + 360) 360 in
      let testColor := fromHsl newHue (HSL.s originalHsl) (HSL.l originalHsl) in
      testContrast ← getContrastRatio testColor backgroundColor;
      if decide (testContrast >= minContrastRatio) then Normal (Some testColor)
      else try_directions rest originalHsl backgroundColor minContrastRatio
             maxHueAdjustment
  end.

Definition applyMinimalHueAdjustments (palette : list ColorUtil)
    (backgroundColor : ColorUtil) (minContrastRatio maxHueAdjustment : R)
    : completion (list ColorUtil) :=
  veryClosePairs ← collect_pairs palette (fun color1 color2 =>
    hsl1 ← deref (hsl color1);
    hsl2 ← deref (hsl color2);
    let hueDiff := getCircularHueDistance (HSL.h hsl1) (HSL.h hsl2) in
    let lightDiff := Rabs (HSL.l hsl1 - HSL.l hsl2) in
    let satDiff := Rabs (HSL.s hsl1 - HSL.s hsl2) in
    Normal (bool_decide (hueDiff < 15 ∧ lightDiff < 10 ∧ satDiff < 10)));
  for_each veryClosePairs (fun pair palette =>
    color ← deref (palette !! pair.2);
    originalHsl ← deref (hsl color);
    found ← try_directions [1; -1] originalHsl backgroundColor
      minContrastRatio maxHueAdjustment;
    match found with
    | Some testColor => Normal (<[pair.2 := testColor]> palette)
    | None => Normal palette
    end) palette.

Definition ensureMinimumContrast (this : PaletteGenerator)
    (palette : list ColorUtil) (backgroundColor : ColorUtil)
    (minContrastRatio : R) : completion (list ColorUtil) :=
  for_range 0 (length palette) (fun i palette =>
    color ← deref (palette !! i);
    contrast ← getContrastRatio color backgroundColor;
    if decide (contrast < minContrastRatio) then
      optimal ← findOptimalColor this color backgroundColor minContrastRatio
        (minContrastRatio * 1.5) i (length palette);
      Normal (<[i := optimal]> palette)
    else Normal palette) palette.

Definition enhanceMonochromaticDifferentiation (this : PaletteGenerator)
    (palette : list ColorUtil) (backgroundColor : ColorUtil)
    (minContrastRatio : R) : completion (list ColorUtil) :=
  lum ← getLuminance backgroundColor;
  let isLightBackground := bool_decide (lum > 0.5) in
  first ← deref (palette !! 0%nat);
  firstHsl ← deref (hsl first);
  let baseHue := HSL.h firstHsl in
  let lightnessValues :=
    if decide (length palette = 3%nat) then [15; 50; 85]
    else [10; 30; 50; 70; 90] in
  palette ← for_range 0 (length palette) (fun i palette =>
    color ← deref (palette !! i);
    let hueVariation := INR i * 5 in
    let newHue := js_rem (baseHue + hueVariation) 360 in
    lightness ← number_at lightnessValues i;
    let newLightness :=
      if isLightBackground then lightness else 100 - lightness in
    colorHsl ← deref (hsl color);
    Normal (<[i := fromHsl newHue (Rmax 40 (HSL.s colorHsl)) newLightness]> palette))
    palette;
  ensureMinimumContrast this palette backgroundColor minContrastRatio.

(** [palette.every(c => getCircularHueDistance(c.hsl.h, palette[0].hsl.h) < 5)],
    over the elements still to visit. *)
Fixpoint every_near_first (first : option ColorUtil) (rest : list ColorUtil)
    : completion bool :=
  match rest with
  | [] => Normal true
  | c :: rest' =>
      cHsl ← deref (hsl c);
      first' ← deref first;
      firstHsl ← deref (hsl first');
      if decide (getCircularHueDistance (HSL.h cHsl) (HSL.h firstHsl) < 5)
      then every_near_first first rest'
      else Normal false
  end.

Record DifferentiationSettings : Type := mkDifferentiationSettings {
  enabled : bool;
  minHueDifference : R;
  minLuminanceDifference : R
}.

Definition applySimpleDifferentiation (this : PaletteGenerator)
    (palette : list ColorUtil) (backgroundColor : ColorUtil)
    (minContrastRatio : R) (differentiationSettings : DifferentiationSettings)
    : completion (list ColorUtil) :=
  let MIN_LIGHTNESS_DIFFERENCE :=
    if decide (minLuminanceDifference differentiationSettings = 0) then 10
    else minLuminanceDifference differentiationSettings in
  let MIN_SATURATION_DIFFERENCE := 20 in
  let MAX_HUE_ADJUSTMENT := 10 in
  lum ← getLuminance backgroundColor;
  isMonochromatic ← every_near_first (palette !! 0%nat) palette;
  if isMonochromatic : bool then
    enhanceMonochromaticDifferentiation this palette backgroundColor
      minContrastRatio
  else
    palette ← distributeColorsOptimally palette backgroundColor
      minContrastRatio MIN_LIGHTNESS_DIFFERENCE;
    palette ← adjustSaturationForDifferentiation palette
      MIN_SATURATION_DIFFERENCE;
    applyMinimalHueAdjustments palette backgroundColor minContrastRatio
      MAX_HUE_ADJUSTMENT.

(** ** generatePalette *)

(** The options object; [None] is a property that is [undefined], for which
    the destructuring default applies. *)
Record Options : Type := mkOptions {
  opt_paletteSize : option js_size;
  opt_wcagLevel : option string;
  opt_harmonyType : option string;
  opt_baseColor : option string;
  opt_differentiationSettings : option DifferentiationSettings
}.

Record GeneratedPalettes : Type := mkGeneratedPalettes {
  base : list ColorUtil;
  lightOptimized : list ColorUtil;
  darkOptimized : list ColorUtil
}.

(** [generatePalette] first stores the harmony type in the generator, then
    computes; the pair is the outcome and the generator as the call leaves
    it. *)
Definition generatePalette (this : PaletteGenerator) (options : Options)
    : completion GeneratedPalettes * PaletteGenerator :=
  let this :=
    mkPaletteGenerator (whiteColor this) (darkBgColor this)
      (match opt_harmonyType options with
       | Some ""%string | None => "triadic"%string
       | Some t => t
       end) in
  let paletteSize := default (SizeNumber 5) (opt_paletteSize options) in
  let wcagLevel := default "AA"%string (opt_wcagLevel options) in
  let harmonyType' := default "triadic"%string (opt_harmonyType options) in
  let baseColor := default "#5500AA"%string (opt_baseColor options) in
  let differentiationSettings :=
    default (mkDifferentiationSettings true 15 10)
      (opt_differentiationSettings options) in
  let size := validateSize paletteSize in
  let minContrastRatio := if decide (wcagLevel = "AAA"%string) then 7 else 4.5 in
  (baseColors ← generateBaseColors baseColor harmonyType' size;
   lightColors ← generateOptimizedPalette this baseColors (whiteColor this)
     minContrastRatio;
   darkColors ← generateOptimizedPalette this baseColors (darkBgColor this)
     minContrastRatio;
   '(lightColors, darkColors) ←
     (if enabled differentiationSettings then
        lightColors ← applySimpleDifferentiation this lightColors
          (whiteColor this) minContrastRatio differentiationSettings;
        darkColors ← applySimpleDifferentiation this darkColors
          (darkBgColor this) minContrastRatio differentiationSettings;
        Normal (lightColors, darkColors)
      else Normal (lightColors, darkColors));
   Normal (mkGeneratedPalettes baseColors lightColors darkColors),
   this).

(** ** ExportManager *)

Definition calculateContrast (lum1 lum2 : R) : R :=
  let brightest := Rmax lum1 lum2 in
  let darkest := Rmin lum1 lum2 in
  (brightest + 0.05) / (darkest + 0.05).

(** The report of [checkWCAGCompliance]. *)
Module WCAGCompliance.
Record entry : Type := mkEntry {
  colorIndex : nat;
  compliant : bool;
  ratio : R;
  level : string
}.
Record overall : Type := mkOverall { light : bool; dark : bool }.
Record t : Type := mk {
  lightBackground : list entry;
  darkBackground : list entry;
  overallCompliant : overall
}.
End WCAGCompliance.

(** The two stand-ins for the backgrounds are objects whose only member is
    [getLuminance]: they return 1 and 0.133. *)
Definition checkWCAGCompliance (lightOptimized darkOptimized : list ColorUtil)
    (wcagLevel : string) : completion WCAGCompliance.t :=
  let requiredRatio := if decide (wcagLevel = "AAA"%string) then 7 else 4.5 in
  let whiteColor_getLuminance := 1 in
  let darkColor_getLuminance := 0.133 in
  lightCompliance ← map_indexed (fun color index =>
    lum ← getLuminance color;
    let ratio := calculateContrast lum whiteColor_getLuminance in
    Normal (WCAGCompliance.mkEntry (index + 1)
              (bool_decide (ratio >= requiredRatio)) ratio
              (if decide (ratio >= 7) then "AAA"
               else if decide (ratio >= 4.5) then "AA" else "FAIL")%string))
    0 lightOptimized;
  darkCompliance ← map_indexed (fun color index =>
    lum ← getLuminance color;
    let ratio := calculateContrast lum darkColor_getLuminance in
    Normal (WCAGCompliance.mkEntry (index + 1)
              (bool_decide (ratio >= requiredRatio)) ratio
              (if decide (ratio >= 7) then "AAA"
               else if decide (ratio >= 4.5) then "AA" else "FAIL")%string))
    0 darkOptimized;
  Normal (WCAGCompliance.mk lightCompliance darkCompliance
            (WCAGCompliance.mkOverall
               (forallb WCAGCompliance.compliant lightCompliance)
               (forallb WCAGCompliance.compliant darkCompliance))).

(** ** UIComponents *)

Definition getAccessibilityLevel (contrast : R) : string :=
  if decide (contrast >= 7) then "AAA"
  else if decide (contrast >= 4.5) then "AA" else "FAIL".

(** ** StateManager *)

(** The values the state tree holds.  A plain object is the finite map of
    its own properties; [JColor] is a [ColorUtil] instance and [JDate] a
    [Date], objects whose properties the path helpers are not followed
    into. *)
#[warnings="-register-all"]
Inductive jsval : Type :=
| JUndefined
| JNull
| JBool (b : bool)
| JNum (x : R)
| JStr (s : string)
| JArr (items : list jsval)
| JObj (fields : gmap string jsval)
| JColor (c : ColorUtil)
| JDate (ms : Z).

Definition typeof (v : jsval) : string :=
  match v with
  | JUndefined => "undefined"
  | JBool _ => "boolean"
  | JNum _ => "number"
  | JStr _ => "string"
  | JNull | JArr _ | JObj _ | JColor _ | JDate _ => "object"
  end.

(** [!v] *)
Definition falsy (v : jsval) : bool :=
  match v with
  | JUndefined | JNull | JBool false | JStr EmptyString => true
  | JNum x => bool_decide (x = 0)
  | _ => false
  end.

(** What a method of the state manager may throw.  [Unmodelled] marks the
    places where the source goes on with a value this embedding does not
    have: a member inherited from a prototype, or a property of an array,
    a colour or a date. *)
Inductive thrown : Type :=
| Error (message : string)
| ThrownTypeError
| Unmodelled.

Inductive outcome (A : Type) : Type :=
| Returns (a : A)
| Raises (e : thrown).
Arguments Returns {A} a.
Arguments Raises {A} e.

#[global] Instance outcome_ret : MRet outcome := fun A a => Returns a.
#[global] Instance outcome_bind : MBind outcome := fun A B f m =>
  match m with
  | Returns a => f a
  | Raises e => Raises e
  end.

(** The property names every plain object inherits from
    [Object.prototype]. *)
Definition inherited (key : string) : bool :=
  bool_decide (key ∈ ["constructor"; "__defineGetter__"; "__defineSetter__";
                      "hasOwnProperty"; "__lookupGetter__"; "__lookupSetter__";
                      "isPrototypeOf"; "propertyIsEnumerable"; "toString";
                      "valueOf"; "__proto__"; "toLocaleString"]%string).

(** [current[key]] for a [current] whose [typeof] is ['object'] and that
    is not [null]. *)
Definition get_property (current : jsval) (key : string) : outcome jsval :=
  match current with
  | JObj fields =>
      match fields !! key with
      | Some v => Returns v
      | None => if inherited key then Raises Unmodelled else Returns JUndefined
      end
  | _ => Raises Unmodelled
  end.

(** A value that is neither an object nor [null]. *)
Definition primitive (v : jsval) : bool :=
  match v with
  | JUndefined | JBool _ | JNum _ | JStr _ => true
  | JNull | JArr _ | JObj _ | JColor _ | JDate _ => false
  end.

(** [current[key] = value] on a plain object.  Assigning [__proto__] where
    it is not an own property goes to the inherited setter, which writes no
    property: it ignores a value that is neither an object nor [null], and
    gives the object another prototype otherwise, which this embedding
    does not have. *)
Definition set_property (fields : gmap string jsval) (key : string)
    (value : jsval) : outcome (gmap string jsval) :=
  if decide (key = "__proto__"%string ∧ fields !! key = None)
  then if primitive value then Returns fields else Raises Unmodelled
  else Returns (<[key := value]> fields).

(** [path.split('.')], with the part read so far. *)
Fixpoint split_dots (path : string) (part : string) : list string :=
  match path with
  | EmptyString => [part]
  | String c rest =>
      if decide (c = "."%char) then part :: split_dots rest EmptyString
      else split_dots rest (part +:+ String c EmptyString)
  end.

(** The loop of [getValueByPath]. *)
Fixpoint get_walk (keys : list string) (current : jsval) : outcome jsval :=
  match keys with
  | [] => Returns current
  | key :: rest =>
      match current with
      | JUndefined | JNull => Returns JUndefined
      | JBool _ | JNum _ | JStr _ =>
          Raises (Error ("Cannot access property '" +:+ key +:+ "' of "
                         +:+ typeof current))
      | _ => next ← get_property current key; get_walk rest next
      end
  end.

Definition getValueByPath (obj : jsval) (path : string) : outcome jsval :=
  if decide (path = EmptyString) then Raises (Error "Invalid path")
  else get_walk (split_dots path EmptyString) obj.

(** The loop of [setValueByPath] and the assignment after it.  The source
    writes into the objects it walks through; here the walk returns the
    object as the write leaves it. *)
Fixpoint set_walk (keys : list string) (lastKey : string) (value : jsval)
    (current : jsval) : outcome jsval :=
  match keys with
  | [] =>
      match current with
      | JUndefined | JNull =>
          Raises (Error "Cannot set property on null/undefined")
      | JBool _ | JNum _ | JStr _ =>
          Raises (Error ("Cannot set property '" +:+ lastKey +:+ "' of "
                         +:+ typeof current))
      | JObj fields =>
          fields ← set_property fields lastKey value; Returns (JObj fields)
      | _ => Raises Unmodelled
      end
  | key :: rest =>
      match current with
      | JUndefined | JNull =>
          Raises (Error "Cannot set property on null/undefined")
      | JBool _ | JNum _ | JStr _ =>
          Raises (Error ("Cannot access property '" +:+ key +:+ "' of "
                         +:+ typeof current))
      | JObj fields =>
          next ← match fields !! key with
                 | Some v => Returns v
                 | None =>
                     if inherited key then Raises Unmodelled
                     else Returns (JObj ∅)
                 end;
          next ← set_walk rest lastKey value next;
          Returns (JObj (<[key := next]> fields))
      | _ => Raises Unmodelled
      end
  end.

Definition setValueByPath (obj : jsval) (path : string) (value : jsval)
    : outcome jsval :=
  if decide (path = EmptyString) then Raises (Error "Invalid path")
  else
    match reverse (split_dots path EmptyString) with
    | [] => Raises (Error "Invalid path: cannot be empty")
    | lastKey :: front =>
        if decide (lastKey = EmptyString)
        then Raises (Error "Invalid path: cannot be empty")
        else set_walk (reverse front) lastKey value obj
    end.

(** The state manager: its [state] tree and [maxHistorySize].  The
    [observers] map is left out: [notify] runs after the write, catches
    what a callback throws, and the callbacks of this program redraw the
    page. *)
Record StateManager : Type := mkStateManager {
  state : jsval;
  maxHistorySize : nat
}.

Definition initial_settings : gmap string jsval :=
  list_to_map
    [("paletteSize", JNum 5); ("wcagLevel", JStr "AA");
     ("harmonyType", JStr "triadic"); ("baseColor", JStr "#5500AA");
     ("differentiationSettings",
      JObj (list_to_map
              [("enabled", JBool true); ("minHueDifference", JNum 60);
               ("minLuminanceDifference", JNum 30)]%string))]%string.

Definition new_StateManager : StateManager :=
  mkStateManager
    (JObj (list_to_map
             [("currentPalette", JArr []); ("lightOptimizedPalette", JArr []);
              ("darkOptimizedPalette", JArr []); ("paletteHistory", JArr []);
              ("isLoading", JBool false);
              ("settings", JObj initial_settings)]%string))
    10.

(** [try { ... } catch (error) { handler }] around a body that throws
    [Error]s. *)
Definition catching {A} (m : outcome A) (handler : A) : outcome A :=
  match m with
  | Raises (Error _) | Raises ThrownTypeError => Returns handler
  | _ => m
  end.

Definition getState (this : StateManager) (path : string) : outcome jsval :=
  catching (getValueByPath (state this) path) JUndefined.

Definition setState (this : StateManager) (path : string) (value : jsval)
    : outcome StateManager :=
  catching
    (oldValue ← getValueByPath (state this) path;
     state' ← setValueByPath (state this) path value;
     Returns (mkStateManager state' (maxHistorySize this)))
    this.

(** [v.key] for a value that need not be an object. *)
Definition member (v : jsval) (key : string) : outcome jsval :=
  match v with
  | JUndefined | JNull => Raises ThrownTypeError
  | JObj _ => get_property v key
  | _ => Raises Unmodelled
  end.

(** The structural copy of [deepClone]; a [ColorUtil] instance would come
    out as a plain object, see [deepClone]. *)
Fixpoint clone (obj : jsval) : jsval :=
  match obj with
  | JArr items => JArr (clone <$> items)
  | JObj fields => JObj (clone <$> fields)
  | JDate ms => JDate ms
  | _ => obj
  end.

Fixpoint holds_color (obj : jsval) : bool :=
  match obj with
  | JColor _ => true
  | JArr items => existsb holds_color items
  | JObj fields => map_fold (fun _ v found => holds_color v || found) false fields
  | _ => false
  end.

Definition deepClone (obj : jsval) : outcome jsval :=
  if holds_color obj then Raises Unmodelled else Returns (clone obj).

(** [[historyItem, ...history]] *)
Definition spread_array (v : jsval) : outcome (list jsval) :=
  match v with
  | JArr items => Returns items
  | JStr _ => Raises Unmodelled
  | _ => Raises ThrownTypeError
  end.

(** [addToHistory(palette)]; [now] is what [Date.now()] returns and
    [stamp] the time of [new Date()]. *)
Definition addToHistory (this : StateManager) (palette : jsval) (now stamp : Z)
    : outcome StateManager :=
  match palette with
  | JArr ((_ :: _) as items) =>
      settings ← member (state this) "settings";
      settings ← deepClone settings;
      let historyItem :=
        JObj (list_to_map
                [("id", JNum (IZR now)); ("palette", JArr items);
                 ("timestamp", JDate stamp); ("settings", settings)]%string) in
      history ← member (state this) "paletteHistory";
      history ← spread_array history;
      let newHistory := historyItem :: history in
      let newHistory :=
        if decide (maxHistorySize this < length newHistory)%nat
        then take (maxHistorySize this) newHistory else newHistory in
      setState this "paletteHistory" (JArr newHistory)
  | _ => Returns this
  end.

Definition clearHistory (this : StateManager) : outcome StateManager :=
  setState this "paletteHistory" (JArr []).

(** [getHistoryItem(index)] for an integer [index]. *)
Definition getHistoryItem (this : StateManager) (index : Z) : outcome jsval :=
  history ← getState this "paletteHistory";
  match history with
  | JArr items =>
      if decide (index < 0 ∨ index >= Z.of_nat (length items))%Z
      then Returns JNull
      else
        let item := default JUndefined (items !! Z.to_nat index) in
        Returns (if falsy item then JNull else item)
  | _ => Returns JNull
  end.

(** The pattern [/^#[0-9A-Fa-f]{6}$/] *)
Definition is_hex_color (s : string) : bool :=
  match s with
  | String "#" digits =>
      bool_decide (String.length digits = 6%nat)
      && forallb (fun c => bool_decide (is_Some (hex_value c)))
           (list_ascii_of_string digits)
  | _ => false
  end.

Definition validateDifferentiationSettings (settings : jsval) : bool :=
  if falsy settings || negb (bool_decide (typeof settings = "object"%string))
  then false
  else
    match settings with
    | JObj fields =>
        match fields !! "enabled"%string with
        | Some (JBool _) => true
        | _ => false
        end
    | _ => false
    end.

Definition validateSetting (key : string) (value : jsval) : bool :=
  if decide (key = "paletteSize"%string) then
    match value with
    | JNum x => bool_decide (x = 3 ∨ x = 5)
    | _ => false
    end
  else if decide (key = "wcagLevel"%string) then
    match value with
    | JStr s => bool_decide (s = "AA"%string ∨ s = "AAA"%string)
    | _ => false
    end
  else if decide (key = "harmonyType"%string) then
    match value with
    | JStr s =>
        bool_decide (s ∈ ["complementary"; "triadic"; "analogous";
                          "monochromatic"; "tetradic"]%string)
    | _ => false
    end
  else if decide (key = "baseColor"%string) then
    match value with
    | JStr s => is_hex_color s
    | _ => false
    end
  else if decide (key = "differentiationSettings"%string) then
    validateDifferentiationSettings value
  else true.

(** [{ ...v }] *)
Definition spread_object (v : jsval) : outcome (gmap string jsval) :=
  match v with
  | JObj fields => Returns fields
  | JUndefined | JNull | JBool _ | JNum _ | JDate _ => Returns ∅
  | JStr EmptyString => Returns ∅
  | _ => Raises Unmodelled
  end.

(** [Object.entries(v)], as a map: the callback of [updateSettings] writes
    each key once, so the order of the visit does not show. *)
Definition own_entries (v : jsval) : outcome (gmap string jsval) :=
  match v with
  | JObj fields => Returns fields
  | JDate _ => Returns ∅
  | _ => Raises Unmodelled
  end.

Definition updateSettings (this : StateManager) (newSettings : jsval)
    : outcome StateManager :=
  if falsy newSettings || negb (bool_decide (typeof newSettings = "object"%string))
  then Returns this
  else
    currentSettings ← getState this "settings";
    updatedSettings ← spread_object currentSettings;
    entries ← own_entries newSettings;
    updatedSettings ←
      map_fold (fun key value (updated : outcome (gmap string jsval)) =>
                  updatedSettings ← updated;
                  if validateSetting key value
                  then set_property updatedSettings key value
                  else Returns updatedSettings)
        (Returns updatedSettings) entries;
    setState this "settings" (JObj updatedSettings).

(** [updateDifferentiationSettings(newDifferentiationSettings)] *)
Definition updateDifferentiationSettings (this : StateManager)
    (newDifferentiationSettings : jsval) : outcome StateManager :=
  currentSettings ← getState this "settings";
  currentDiffSettings ← member currentSettings "differentiationSettings";
  spread ← spread_object currentDiffSettings;
  enabled ← member newDifferentiationSettings "enabled";
  let updatedDiffSettings := <["enabled"%string := enabled]> spread in
  updateSettings this
    (JObj {["differentiationSettings"%string := JObj updatedDiffSettings]}).

(** The second loop of [updateState]: each write has a [try] of its
    own. *)
Fixpoint write_each (updates : list (string * jsval)) (current : jsval)
    : outcome jsval :=
  match updates with
  | [] => Returns current
  | (path, value) :: rest =>
      current ← catching (setValueByPath current path value) current;
      write_each rest current
  end.

(** [updateState(updates)], for an [updates] object with the given entries,
    in the order of [Object.entries].  The old values of the first loop go
    to the observers only. *)
Definition updateState (this : StateManager) (updates : list (string * jsval))
    : outcome StateManager :=
  oldValues ← mapM (fun update : string * jsval =>
                      catching (getValueByPath (state this) update.1)
                        JUndefined) updates;
  state' ← write_each updates (state this);
  Returns (mkStateManager state' (maxHistorySize this)).

(** [Array.isArray(v)] *)
Definition isArray (v : jsval) : bool :=
  match v with
  | JArr _ => true
  | _ => false
  end.

(** [setPalettes({ base, lightOptimized, darkOptimized })] *)
Definition setPalettes (this : StateManager) (palettes : jsval)
    : outcome StateManager :=
  base ← member palettes "base";
  lightOptimized ← member palettes "lightOptimized";
  darkOptimized ← member palettes "darkOptimized";
  let updates :=
    (if isArray base then [("currentPalette"%string, base)] else [])
    ++ (if isArray lightOptimized
        then [("lightOptimizedPalette"%string, lightOptimized)] else [])
    ++ (if isArray darkOptimized
        then [("darkOptimizedPalette"%string, darkOptimized)] else []) in
  if decide (0 < length updates)%nat then updateState this updates
  else Returns this.

Definition setLoading (this : StateManager) (isLoading : jsval)
    : outcome StateManager :=
  if decide (typeof isLoading = "boolean"%string)
  then setState this "isLoading" isLoading
  else Returns this.

(** The loop of [reset] over the keys of its [initialState]. *)
Fixpoint set_each (entries : list (string * jsval)) (this : StateManager)
    : outcome StateManager :=
  match entries with
  | [] => Returns this
  | (key, value) :: rest =>
      this ← setState this key value;
      set_each rest this
  end.

Definition reset (this : StateManager) : outcome StateManager :=
  set_each
    [("currentPalette", JArr []); ("lightOptimizedPalette", JArr []);
     ("darkOptimizedPalette", JArr []); ("paletteHistory", JArr []);
     ("isLoading", JBool false);
     ("settings", JObj initial_settings)]%string
    this.

(** The calls with which the application changes the state. *)
Inductive call : Type :=
| UpdateSettings (newSettings : jsval)
| UpdateDifferentiationSettings (newDifferentiationSettings : jsval)
| SetPalettes (palettes : jsval)
| SetLoading (isLoading : jsval)
| AddToHistory (palette : jsval) (now stamp : Z)
| ClearHistory
| Reset
| SetState (path : string) (value : jsval).

Definition perform (this : StateManager) (c : call) : outcome StateManager :=
  match c with
  | UpdateSettings newSettings => updateSettings this newSettings
  | UpdateDifferentiationSettings newDifferentiationSettings =>
      updateDifferentiationSettings this newDifferentiationSettings
  | SetPalettes palettes => setPalettes this palettes
  | SetLoading isLoading => setLoading this isLoading
  | AddToHistory palette now stamp => addToHistory this palette now stamp
  | ClearHistory => clearHistory this
  | Reset => reset this
  | SetState path value => setState this path value
  end.

(** A sequence of calls, each of which returns. *)
Fixpoint perform_all (calls : list call) (this : StateManager)
    : outcome StateManager :=
  match calls with
  | [] => Returns this
  | c :: rest => this ← perform this c; perform_all rest this
  end.

(** ** Vocabulary of the statements *)

(** A colour whose constructor ran to its end holds all its fields. *)
Definition well_formed (c : ColorUtil) : Prop :=
  is_Some (rgb c) /\ is_Some (hsl c).

(** [c] is [original] itself or [original] with another lightness. *)
Definition lightness_variant (original c : ColorUtil) : Prop :=
  c = original \/
  exists o l, hsl original = Some o /\ c = fromHsl (HSL.h o) (HSL.s o) l.

(** The channels of a colour lie in [0, 255]. *)
Definition in_gamut (c : ColorUtil) : Prop :=
  exists x, rgb c = Some x
    /\ 0 <= RGB.r x <= 255 /\ 0 <= RGB.g x <= 255 /\ 0 <= RGB.b x <= 255.

(** What [new ColorUtil] builds from a six-digit string with channels
    [r g b]. *)
Definition hex_color (text : string) (r g b : Z) : ColorUtil :=
  mkColorUtil (Some text) (Some (RGB.mk (IZR r) (IZR g) (IZR b)))
    (Some (rgbToHsl (IZR r) (IZR g) (IZR b))).

Definition white : ColorUtil := hex_color "#ffffff" 255 255 255.
Definition darkBg : ColorUtil := hex_color "#2c3e50" 44 62 80.
Definition black : ColorUtil := hex_color "#000000" 0 0 0.

(** What stages 2 and 3 leave in place: the length of the palette, its
    colours being constructed colours, and slot 0. *)
Definition stage_frame (palette result : list ColorUtil) : Prop :=
  length result = length palette
  /\ Forall well_formed result
  /\ result !! 0%nat = palette !! 0%nat.

(** The ladder of the monochromatic path, as the specification lists it. *)
Definition monochromatic_ladder (size : nat) : list R :=
  if decide (size = 3%nat) then [15; 50; 85] else [10; 30; 50; 70; 90].

(** The colour the specification gives slot [i] on the monochromatic path:
    the first hue moved by 5 degrees per slot, the saturation floored at
    40, the ladder lightness, inverted on a dark background. *)
Definition monochromatic_slot (firstHue : R) (isLightBackground : bool)
    (i : nat) (ladderLightness priorSaturation : R) : ColorUtil :=
  fromHsl (js_rem (firstHue + INR i * 5) 360) (Rmax 40 priorSaturation)
    (if isLightBackground then ladderLightness else 100 - ladderLightness).

(** Every slot of [after] holds what it held in [before], or a colour
    whose contrast against the background reaches the minimum. *)
Definition kept_or_compliant (backgroundColor : ColorUtil)
    (minContrastRatio : R) (before after : list ColorUtil) : Prop :=
  forall i x, before !! i = Some x ->
    exists y, after !! i = Some y
      /\ (y = x
          \/ exists k, getContrastRatio y backgroundColor = Normal k
                       /\ k >= minContrastRatio).

(** Three dark colours whose hues are 0, 5 and 0 degrees. *)
Definition boundary_palette : list ColorUtil :=
  [fromHsl 0 0 20; fromHsl 5 50 20; fromHsl 0 50 20].

(** The generator as its constructor leaves it. *)
Definition fresh_generator : PaletteGenerator :=
  mkPaletteGenerator white darkBg "triadic".

(** The call [generatePalette({baseColor: '#000000', differentiationSettings:
    {enabled, minHueDifference: 15, minLuminanceDifference: 10}})]: five
    colours, level AA, triadic harmony by default. *)
Definition black_options (enabled : bool) : Options :=
  mkOptions None None None (Some "#000000"%string)
    (Some (mkDifferentiationSettings enabled 15 10)).

(** [c] is [original], or [original] with a lightness between [lo] and
    [hi]. *)
Definition lightness_within (original c : ColorUtil) (lo hi : R) : Prop :=
  c = original \/
  exists o l, hsl original = Some o /\ lo <= l <= hi
              /\ c = fromHsl (HSL.h o) (HSL.s o) l.

(** Hue in [0, 360), saturation and lightness in [0, 100]. *)
Definition hsl_in_range (o : HSL.t) : Prop :=
  0 <= HSL.h o < 360 /\ 0 <= HSL.s o <= 100 /\ 0 <= HSL.l o <= 100.

(** The channels as [rgbToHex] writes them. *)
Definition rounded (x : RGB.t) : RGB.t :=
  RGB.mk (IZR (Math_round (RGB.r x))) (IZR (Math_round (RGB.g x)))
         (IZR (Math_round (RGB.b x))).

(** A colour that can be shown: hue, saturation and lightness in their
    ranges, channels in [0, 255], and a [hex] text that [hexToRgb] reads
    back as the rounded channels. *)
Definition displayable (c : ColorUtil) : Prop :=
  exists o x text,
    hsl c = Some o /\ rgb c = Some x /\ hex c = Some text
    /\ hsl_in_range o
    /\ (0 <= RGB.r x <= 255 /\ 0 <= RGB.g x <= 255 /\ 0 <= RGB.b x <= 255)
    /\ hexToRgb text = Some (rounded x).

(** The distances are there and each is within a thousandth of a degree
    of its target. *)
Definition distances_near (targets : list R) (distances : option (list R))
    : Prop :=
  exists ds,
    distances = Some ds
    /\ Forall2 (fun d target => Rabs (d - target) <= 0.001) ds targets.

(** [y] has the hue and the lightness of [x]. *)
Definition same_hue_and_lightness (x y : ColorUtil) : Prop :=
  exists o o', hsl x = Some o /\ hsl y = Some o'
    /\ HSL.h o' = HSL.h o /\ HSL.l o' = HSL.l o.

(** [y] has the saturation and the lightness of [x]. *)
Definition same_saturation_and_lightness (x y : ColorUtil) : Prop :=
  exists o o', hsl x = Some o /\ hsl y = Some o'
    /\ HSL.s o' = HSL.s o /\ HSL.l o' = HSL.l o.

(** Every setting passes [validateSetting], and the five settings of the
    constructor are there. *)
Definition settings_valid (settings : gmap string jsval) : Prop :=
  (forall key value, settings !! key = Some value ->
     validateSetting key value = true)
  /\ Forall (fun key => is_Some (settings !! key))
       ["paletteSize"; "wcagLevel"; "harmonyType"; "baseColor";
        "differentiationSettings"]%string.

(** The walk along [keys] from [current] meets plain objects only, up to
    the object that receives the last key; a key that is missing ends the
    walk, the write creating the objects from there on. *)
Fixpoint plain_walk (keys : list string) (current : jsval) : Prop :=
  match keys with
  | [] =>
      match current with
      | JObj _ => True
      | _ => False
      end
  | key :: rest =>
      match current with
      | JObj fields =>
          match fields !! key with
          | Some next => plain_walk rest next
          | None => True
          end
      | _ => False
      end
  end.

(** The application calls [setState] itself for the history only. *)
Definition writes_history_only (c : call) : Prop :=
  match c with
  | SetState path _ => path = "paletteHistory"%string
  | _ => True
  end.

(** The state is an object whose [settings] are valid. *)
Definition holds_valid_settings (this : StateManager) : Prop :=
  exists fields settings,
    state this = JObj fields
    /\ fields !! "settings"%string = Some (JObj settings)
    /\ settings_valid settings.

(** * Properties *)

(** ** Real arithmetic of the source *)

Lemma Int_part_unit (x : R) : 0 <= x < 1 -> Int_part x = 0%Z.
Proof. intros Hx. symmetry. apply Int_part_spec. simpl. lra. Qed.

Lemma Int_part_one (x : R) : 1 <= x < 2 -> Int_part x = 1%Z.
Proof. intros Hx. symmetry. apply Int_part_spec. simpl. lra. Qed.

Lemma js_rem_360_small (x : R) : 0 <= x < 360 -> js_rem x 360 = x.
Proof.
  intros Hx. unfold js_rem, Rtrunc.
  rewrite decide_True by lra.
  rewrite Int_part_unit by lra. simpl. lra.
Qed.

Lemma js_rem_360_wrap (x : R) : 360 <= x < 720 -> js_rem x 360 = x - 360.
Proof.
  intros Hx. unfold js_rem, Rtrunc.
  rewrite decide_True by lra.
  rewrite Int_part_one by lra. simpl. lra.
Qed.

Lemma Rpower_one (y : R) : Rpower 1 y = 1.
Proof. unfold Rpower. rewrite ln_1, Rmult_0_r. apply exp_0. Qed.

Lemma Rpower_square (x : R) : 0 < x -> Rpower x 2 = x * x.
Proof.
  intros Hx. unfold Rpower.
  replace (2 * ln x) with (ln x + ln x) by lra.
  rewrite exp_plus, exp_ln; auto.
Qed.

(** On (0, 1] the gamma curve of [getLuminance] stays below the square. *)
Lemma Math_pow_gamma_bounds (x : R) :
  0 < x <= 1 -> 0 < Math_pow x 2.4 <= x * x.
Proof.
  intros [Hpos Hle]. unfold Math_pow. split.
  - unfold Rpower. apply exp_pos.
  - rewrite <- Rpower_square by assumption.
    destruct (Req_dec x 1) as [-> | Hne].
    + rewrite !Rpower_one. lra.
    + assert (Hln : ln x < 0).
      { rewrite <- ln_1. apply ln_increasing; lra. }
      left. unfold Rpower. apply exp_increasing. nra.
Qed.

Lemma Math_pow_gamma_unit (x : R) : 0 < x <= 1 -> 0 < Math_pow x 2.4 <= 1.
Proof.
  intros Hx. destruct (Math_pow_gamma_bounds x Hx) as [H1 H2].
  split; [assumption | nra].
Qed.

Lemma pow_5_le_reg (a b : R) : 0 < b -> a ^ 5 <= b ^ 5 -> a <= b.
Proof.
  intros Hb Hle. destruct (Rle_lt_dec a b) as [H | H]; [exact H |].
  exfalso.
  assert (H4 : b ^ 4 <= a ^ 4) by (apply pow_incr; lra).
  assert (Ha4 : 0 < a ^ 4) by (apply pow_lt; lra).
  assert (Hb4 : 0 < b ^ 4) by (apply pow_lt; lra).
  change (a ^ 5) with (a * a ^ 4) in Hle.
  change (b ^ 5) with (b * b ^ 4) in Hle.
  nra.
Qed.

(** The exponent 2.4 is 12/5, so a rational enclosure of the gamma curve
    is a comparison of a twelfth power with fifth powers. *)
Lemma Math_pow_gamma_between (x lo hi : R) :
  0 < x -> 0 < hi -> lo ^ 5 <= x ^ 12 <= hi ^ 5 ->
  lo <= Math_pow x 2.4 <= hi.
Proof.
  intros Hx Hhi [Hl Hh]. unfold Math_pow.
  assert (Hp : 0 < Rpower x 2.4) by (unfold Rpower; apply exp_pos).
  assert (H5 : Rpower x 2.4 ^ 5 = x ^ 12).
  { rewrite <- (Rpower_pow 5) by exact Hp.
    rewrite Rpower_mult.
    replace (2.4 * INR 5) with (INR 12) by (simpl; lra).
    apply Rpower_pow. exact Hx. }
  split; apply pow_5_le_reg; try assumption; rewrite H5; assumption.
Qed.

Lemma Rdiv_ge_bound (a b m : R) : 0 < b -> m * b <= a -> m <= a / b.
Proof.
  intros Hb H. apply (Rmult_le_reg_r b); [exact Hb |].
  unfold Rdiv. rewrite Rmult_assoc, Rinv_l by lra. lra.
Qed.

Lemma Rdiv_lt_bound (a b m : R) : 0 < b -> a < m * b -> a / b < m.
Proof.
  intros Hb H. apply (Rmult_lt_reg_r b); [exact Hb |].
  unfold Rdiv. rewrite Rmult_assoc, Rinv_l by lra. lra.
Qed.

Lemma linearize_unit (c : R) : 0 <= c <= 255 -> 0 <= linearize c <= 1.
Proof.
  intros Hc. unfold linearize.
  case_decide.
  - lra.
  - assert (0 < (c / 255 + 0.055) / 1.055 <= 1) as Hb by lra.
    destruct (Math_pow_gamma_unit _ Hb). lra.
Qed.

Lemma linearize_0 : linearize 0 = 0.
Proof. unfold linearize. rewrite decide_True by lra. lra. Qed.

Lemma linearize_255 : linearize 255 = 1.
Proof.
  unfold linearize. rewrite decide_False by lra.
  replace ((255 / 255 + 0.055) / 1.055) with 1 by lra.
  apply Rpower_one.
Qed.

(** ** The embedding on concrete inputs *)

Lemma Math_round_IZR (z : Z) : Math_round (IZR z) = z.
Proof. unfold Math_round. symmetry. apply Int_part_spec. lra. Qed.

Example rgbToHex_5500aa : rgbToHex 85 0 170 = "#5500aa"%string.
Proof. unfold rgbToHex. rewrite !Math_round_IZR. reflexivity. Qed.

Example hexToRgb_5500AA : hexToRgb "#5500AA" = Some (RGB.mk 85 0 170).
Proof. reflexivity. Qed.

Example hexToRgb_lower_case : hexToRgb "#2c3e50" = Some (RGB.mk 44 62 80).
Proof. reflexivity. Qed.

Example hexToRgb_short : hexToRgb "#fff" = None.
Proof. reflexivity. Qed.

Example parseInt_string_examples :
  parseInt_string "5" = Some 5%Z /\ parseInt_string " 3" = Some 3%Z
  /\ parseInt_string "-7.9" = Some (-7)%Z /\ parseInt_string "0x1f" = Some 31%Z
  /\ parseInt_string "px3" = None.
Proof. repeat split; reflexivity. Qed.

Example triadic_hues_of_0 :
  colorHarmonies "triadic" = Some (fun hue => [hue; js_rem (hue + 120) 360;
                                               js_rem (hue + 240) 360])
  /\ js_rem (0 + 120) 360 = 120 /\ js_rem (0 + 240) 360 = 240.
Proof.
  split; [reflexivity |]. split; rewrite js_rem_360_small; lra.
Qed.

Example js_rem_wraps : js_rem (350 + 25) 360 = 15.
Proof. rewrite js_rem_360_wrap; lra. Qed.

(** ** The completion monad *)

Lemma bind_Normal {A B} (a : A) (f : A -> completion B) : (Normal a ≫= f) = f a.
Proof. reflexivity. Qed.

Lemma bind_Throw {A B} (e : js_error) (f : A -> completion B) :
  (Throw e ≫= f) = Throw e.
Proof. reflexivity. Qed.

Lemma bind_Normal_inv {A B} (m : completion A) (f : A -> completion B) (b : B) :
  (m ≫= f) = Normal b -> exists a, m = Normal a /\ f a = Normal b.
Proof. destruct m as [a | e]; simpl; [eauto | discriminate]. Qed.

Lemma bind_assoc {A B C} (m : completion A) (f : A -> completion B)
    (g : B -> completion C) :
  ((m ≫= f) ≫= g) = (m ≫= fun a => f a ≫= g).
Proof. destruct m; reflexivity. Qed.

(** ** Loops *)

(** A loop whose body keeps an invariant runs to its end and keeps it. *)
Lemma for_range_invariant {St : Type} (Inv : nat -> St -> Prop)
    (n start : nat) (body : nat -> St -> completion St) (s : St) :
  Inv start s ->
  (forall i s, (start <= i < start + n)%nat -> Inv i s ->
     exists s', body i s = Normal s' /\ Inv (S i) s') ->
  exists s', for_range start n body s = Normal s' /\ Inv (start + n)%nat s'.
Proof.
  revert start s. induction n as [| n IH]; intros start s Hinv Hbody.
  - exists s. rewrite Nat.add_0_r. auto.
  - destruct (Hbody start s) as [s1 [Hs1 Hinv1]]; [lia | assumption |].
    cbn [for_range]. rewrite Hs1, bind_Normal.
    destruct (IH (S start) s1 Hinv1) as [s2 [Hs2 Hinv2]].
    + intros i s0 Hi. apply Hbody. lia.
    + exists s2. rewrite Nat.add_succ_r. auto.
Qed.

Lemma for_each_invariant {A St : Type} (Inv : St -> Prop) (items : list A)
    (body : A -> St -> completion St) (s : St) :
  Inv s ->
  (forall x s, x ∈ items -> Inv s -> exists s', body x s = Normal s' /\ Inv s') ->
  exists s', for_each items body s = Normal s' /\ Inv s'.
Proof.
  revert s. induction items as [| x items IH]; intros s Hinv Hbody.
  - exists s. auto.
  - destruct (Hbody x s) as [s1 [Hs1 Hinv1]]; [left | assumption |].
    cbn [for_each]. rewrite Hs1, bind_Normal.
    apply IH; [assumption |].
    intros y s0 Hy. apply Hbody. right. assumption.
Qed.

(** A loop over the slots of an array whose body reads slot [i] only and
    writes its result back to slot [i] is a map over the array. *)
Lemma for_range_slotwise {A : Type} (f : A -> nat -> completion A)
    (body : nat -> list A -> completion (list A)) (n : nat)
    (done rest : list A) :
  (forall i l x, length l = n -> l !! i = Some x ->
     body i l = (f x i ≫= fun y => Normal (<[i := y]> l))) ->
  length (done ++ rest) = n ->
  for_range (length done) (length rest) body (done ++ rest)
  = (map_indexed f (length done) rest ≫= fun ys => Normal (done ++ ys)).
Proof.
  intros Hbody. revert done.
  induction rest as [| x rest IH]; intros done Hn.
  - reflexivity.
  - cbn [length for_range map_indexed].
    rewrite (Hbody (length done) (done ++ x :: rest) x)
      by (assumption || apply list_lookup_middle; reflexivity).
    destruct (f x (length done)) as [y | e]; [| reflexivity].
    rewrite !bind_Normal.
    replace (<[length done := y]> (done ++ x :: rest))
      with ((done ++ [y]) ++ rest).
    2:{ rewrite insert_app_r_alt by lia. rewrite Nat.sub_diag.
        cbn. rewrite <- app_assoc. reflexivity. }
    replace (S (length done)) with (length (done ++ [y]))
      by (rewrite length_app; cbn; lia).
    rewrite IH.
    2:{ rewrite <- Hn, !length_app. cbn. lia. }
    destruct (map_indexed f (length (done ++ [y])) rest) as [ys | e];
      [| reflexivity].
    rewrite !bind_Normal. rewrite <- app_assoc. reflexivity.
Qed.

Lemma for_range_slotwise_0 {A : Type} (f : A -> nat -> completion A)
    (body : nat -> list A -> completion (list A)) (l : list A) :
  (forall i l' x, length l' = length l -> l' !! i = Some x ->
     body i l' = (f x i ≫= fun y => Normal (<[i := y]> l'))) ->
  for_range 0 (length l) body l = map_indexed f 0 l.
Proof.
  intros Hbody.
  pose proof (for_range_slotwise f body (length l) [] l Hbody eq_refl) as Hloop.
  cbn [length app] in Hloop. rewrite Hloop.
  destruct (map_indexed f 0 l); reflexivity.
Qed.

Lemma map_indexed_total {A B : Type} (f : A -> nat -> completion B)
    (Q : nat -> A -> B -> Prop) (l : list A) (start : nat) :
  (forall i x, l !! i = Some x ->
     exists y, f x (start + i)%nat = Normal y /\ Q (start + i)%nat x y) ->
  exists ys, map_indexed f start l = Normal ys
    /\ length ys = length l
    /\ forall i x, l !! i = Some x ->
         exists y, ys !! i = Some y /\ f x (start + i)%nat = Normal y
                   /\ Q (start + i)%nat x y.
Proof.
  revert start. induction l as [| x l IH]; intros start Hf.
  - exists []. split; [reflexivity |]. split; [reflexivity |].
    intros i x Hi. discriminate.
  - destruct (Hf 0%nat x eq_refl) as [y [Hy HQ]].
    rewrite Nat.add_0_r in Hy, HQ.
    destruct (IH (S start)) as [ys [Hys [Hlen Hlook]]].
    { intros i x' Hi. destruct (Hf (S i) x' Hi) as [y' Hy'].
      exists y'. rewrite Nat.add_succ_r in Hy'. exact Hy'. }
    cbn [map_indexed]. rewrite Hy, bind_Normal, Hys, bind_Normal.
    exists (y :: ys). split; [reflexivity |].
    split; [cbn; lia |].
    intros [| i] x' Hi.
    + injection Hi as <-. exists y. rewrite Nat.add_0_r. auto.
    + destruct (Hlook i x' Hi) as [y' Hy'].
      exists y'. rewrite Nat.add_succ_r. exact Hy'.
Qed.

(** ** Constructed colours *)

Lemma fromHsl_well_formed (h s l : R) : well_formed (fromHsl h s l).
Proof. split; simpl; eauto. Qed.

Lemma hex_color_well_formed (text : string) (r g b : Z) :
  well_formed (hex_color text r g b).
Proof. split; simpl; eauto. Qed.

Lemma fromHsl_hsl (h s l : R) : hsl (fromHsl h s l) = Some (HSL.mk h s l).
Proof. reflexivity. Qed.

Lemma new_ColorUtil_well_formed (color : string) (rgb0 : RGB.t) :
  String.prefix "#" color = true -> hexToRgb color = Some rgb0 ->
  new_ColorUtil color =
    Normal (mkColorUtil (Some color) (Some rgb0)
              (Some (rgbToHsl (RGB.r rgb0) (RGB.g rgb0) (RGB.b rgb0)))).
Proof. intros Hp Hx. unfold new_ColorUtil. rewrite Hp, Hx. reflexivity. Qed.

Lemma lightness_variant_well_formed (original c : ColorUtil) :
  well_formed original -> lightness_variant original c -> well_formed c.
Proof.
  intros Hwf [-> | (o & l & _ & ->)]; [assumption | apply fromHsl_well_formed].
Qed.

Lemma lightness_variant_refl (c : ColorUtil) : lightness_variant c c.
Proof. left. reflexivity. Qed.

Lemma lightness_variant_fromHsl (original : ColorUtil) (o : HSL.t) (l : R) :
  hsl original = Some o ->
  lightness_variant original (fromHsl (HSL.h o) (HSL.s o) l).
Proof. intros Ho. right. eauto. Qed.

Lemma lightness_variant_hsl (original c : ColorUtil) (o : HSL.t) :
  hsl original = Some o -> lightness_variant original c ->
  exists o', hsl c = Some o' /\ HSL.h o' = HSL.h o /\ HSL.s o' = HSL.s o.
Proof.
  intros Ho [-> | (o1 & l & Ho1 & ->)].
  - eauto.
  - rewrite Ho in Ho1. injection Ho1 as <-. rewrite fromHsl_hsl. eauto.
Qed.

Create HintDb colors discriminated.
#[global] Hint Resolve fromHsl_well_formed hex_color_well_formed
  lightness_variant_well_formed lightness_variant_refl
  lightness_variant_fromHsl : colors.

Lemma getLuminance_total (c : ColorUtil) :
  well_formed c -> exists lum, getLuminance c = Normal lum.
Proof.
  intros [[x Hx] _]. unfold getLuminance. rewrite Hx. simpl. eauto.
Qed.

Lemma getContrastRatio_total (c background : ColorUtil) :
  well_formed c -> well_formed background ->
  exists ratio, getContrastRatio c background = Normal ratio.
Proof.
  intros Hc Hb.
  destruct (getLuminance_total c Hc) as [l1 H1].
  destruct (getLuminance_total background Hb) as [l2 H2].
  unfold getContrastRatio. rewrite H1, H2. simpl. eauto.
Qed.

(** Names the contrast of [c] against [background] and runs the call of
    [getContrastRatio] at the head of the goal. *)
Ltac contrast_of c background k Hk :=
  destruct (getContrastRatio_total c background) as [k Hk];
  [eauto with colors .. |];
  rewrite Hk, bind_Normal.

Lemma getTargetLightnessRange_total (isLightBackground : bool)
    (colorIndex totalColors : nat) (harmony : string) :
  exists range,
    getTargetLightnessRange isLightBackground colorIndex totalColors harmony
    = Normal range.
Proof.
  unfold getTargetLightnessRange, number_at.
  destruct isLightBackground; repeat case_decide; eauto; simpl length.
  - pose proof (Nat.mod_upper_bound colorIndex 5).
    destruct (colorIndex mod 5)%nat as [|[|[|[|[|]]]]]; simpl; eauto; lia.
  - pose proof (Nat.mod_upper_bound colorIndex 3).
    destruct (colorIndex mod 3)%nat as [|[|[|]]]; simpl; eauto; lia.
  - pose proof (Nat.mod_upper_bound colorIndex 5).
    destruct (colorIndex mod 5)%nat as [|[|[|[|[|]]]]]; simpl; eauto; lia.
Qed.

(** ** The optimizer keeps hue and saturation *)

Section optimizer_search.

Variables (this : PaletteGenerator) (original background : ColorUtil).
Hypothesis original_wf : well_formed original.
Hypothesis background_wf : well_formed background.

Lemma expanded_loop_variant (n : nat)
    (targetRatio step searchDirection targetLightness : R)
    (bestColor : ColorUtil) (bestContrast : R) :
  lightness_variant original bestColor ->
  exists c,
    expanded_loop n (hsl original) background targetRatio step searchDirection
      targetLightness bestColor bestContrast = Normal c
    /\ lightness_variant original c.
Proof.
  revert targetLightness bestColor bestContrast.
  induction n as [| n IH]; intros targetLightness bestColor bestContrast Hbest;
    cbn [expanded_loop].
  - eauto.
  - case_decide; [eauto |].
    destruct original_wf as [_ [o Ho]]. rewrite Ho. cbn [deref].
    rewrite bind_Normal.
    set (testColor := fromHsl (HSL.h o) (HSL.s o) _).
    contrast_of testColor background k Hk.
    rewrite <- Ho.
    repeat case_decide; [eexists; split; [reflexivity |] | apply IH ..];
      subst testColor; eauto with colors.
Qed.

Lemma scan_loop_variant (n : nat) (l : Z) (targetRatio upperBound : R)
    (bestColor : ColorUtil) (bestContrast : R) :
  lightness_variant original bestColor ->
  exists scanned,
    scan_loop n l (hsl original) background targetRatio upperBound bestColor
      bestContrast = Normal scanned
    /\ match scanned with
       | inl c => lightness_variant original c
       | inr (c, _) => lightness_variant original c
       end.
Proof.
  revert l bestColor bestContrast.
  induction n as [| n IH]; intros l bestColor bestContrast Hbest;
    cbn [scan_loop].
  - eexists; split; [reflexivity | assumption].
  - destruct original_wf as [_ [o Ho]]. rewrite Ho. cbn [deref].
    rewrite bind_Normal.
    set (testColor := fromHsl (HSL.h o) (HSL.s o) _).
    contrast_of testColor background k Hk.
    rewrite <- Ho.
    assert (lightness_variant original testColor) as Htest
      by (subst testColor; auto with colors).
    repeat case_decide.
    + eexists; split; [reflexivity | exact Htest].
    + apply IH. exact Htest.
    + apply IH. exact Hbest.
Qed.

Lemma expandedColorSearch_variant (targetRatio : R) (isLightBackground : bool)
    (range : Z * Z) (bestColor : ColorUtil) :
  lightness_variant original bestColor ->
  exists c,
    expandedColorSearch (hsl original) background targetRatio
      isLightBackground range bestColor = Normal c
    /\ lightness_variant original c.
Proof.
  intros Hbest. unfold expandedColorSearch.
  contrast_of bestColor background k Hk.
  apply expanded_loop_variant; assumption.
Qed.

Lemma findOptimalColor_variant (targetRatio upperBound : R)
    (colorIndex totalColors : nat) :
  exists c,
    findOptimalColor this original background targetRatio upperBound
      colorIndex totalColors = Normal c
    /\ lightness_variant original c.
Proof.
  unfold findOptimalColor.
  destruct (getLuminance_total background background_wf) as [lum Hlum].
  rewrite Hlum, bind_Normal.
  destruct (getTargetLightnessRange_total (bool_decide (lum > 0.5)) colorIndex
              totalColors (harmonyType this)) as [range Hrange].
  rewrite Hrange, bind_Normal.
  contrast_of original background k Hk.
  destruct (scan_loop_variant (scan_count range.1 range.2) range.1
              targetRatio upperBound original k)
    as [scanned [Hscan Hvar]]; [auto with colors |].
  rewrite Hscan, bind_Normal.
  destruct scanned as [c | [c k']].
  - eauto.
  - apply expandedColorSearch_variant; assumption.
Qed.

Lemma optimizeColorForBackground_variant (targetRatio : R)
    (colorIndex totalColors : nat) :
  exists c,
    optimizeColorForBackground this original background targetRatio
      colorIndex totalColors = Normal c
    /\ lightness_variant original c.
Proof.
  unfold optimizeColorForBackground.
  contrast_of original background k Hk. cbv zeta.
  destruct (decide (k >= targetRatio)).
  - case_decide; eexists; (split; [reflexivity | auto with colors]).
  - apply findOptimalColor_variant.
Qed.

End optimizer_search.

(** ** The reference colours *)

Lemma new_ColorUtil_white : new_ColorUtil "#ffffff" = Normal white.
Proof. apply new_ColorUtil_well_formed; reflexivity. Qed.

Lemma new_ColorUtil_darkBg : new_ColorUtil "#2c3e50" = Normal darkBg.
Proof. apply new_ColorUtil_well_formed; reflexivity. Qed.

Lemma new_ColorUtil_black : new_ColorUtil "#000000" = Normal black.
Proof. apply new_ColorUtil_well_formed; reflexivity. Qed.

Lemma new_PaletteGenerator_fresh : new_PaletteGenerator = Normal fresh_generator.
Proof.
  unfold new_PaletteGenerator.
  rewrite new_ColorUtil_white, bind_Normal, new_ColorUtil_darkBg.
  reflexivity.
Qed.

Lemma getLuminance_white : getLuminance white = Normal 1.
Proof.
  unfold getLuminance, white, hex_color. simpl.
  rewrite linearize_255. f_equal. lra.
Qed.

Lemma getLuminance_black : getLuminance black = Normal 0.
Proof.
  unfold getLuminance, black, hex_color. simpl.
  rewrite linearize_0. f_equal. lra.
Qed.

Lemma getContrastRatio_black_white : getContrastRatio black white = Normal 21.
Proof.
  unfold getContrastRatio.
  rewrite getLuminance_black, bind_Normal, getLuminance_white, bind_Normal.
  rewrite Rmax_right, Rmin_left by lra. f_equal. lra.
Qed.

(** ** Size validation *)

Lemma validateSize_cases (size : js_size) :
  validateSize size = 3%nat \/ validateSize size = 5%nat.
Proof.
  unfold validateSize. destruct (parseInt size) as [z |]; [| auto].
  case_decide as Hz; [| auto]. destruct Hz as [-> | ->]; auto.
Qed.

Lemma validateSize_parseInt (size : js_size) :
  validateSize size = if decide (parseInt size = Some 3%Z) then 3%nat else 5%nat.
Proof.
  unfold validateSize. destruct (parseInt size) as [z |].
  - destruct (decide (z = 3 \/ z = 5)%Z) as [[-> | ->] | Hn].
    + rewrite decide_True by reflexivity. reflexivity.
    + rewrite decide_False by discriminate. reflexivity.
    + rewrite decide_False by (intros [= ->]; tauto). reflexivity.
  - rewrite decide_False by discriminate. reflexivity.
Qed.

(** ** Claims on single operations *)

Lemma optimizeColorForBackground_compliant (this : PaletteGenerator)
    (originalColor backgroundColor : ColorUtil) (targetRatio : R)
    (colorIndex totalColors : nat) (currentContrast : R) :
  getContrastRatio originalColor backgroundColor = Normal currentContrast ->
  currentContrast >= targetRatio ->
  optimizeColorForBackground this originalColor backgroundColor targetRatio
    colorIndex totalColors = Normal originalColor.
Proof.
  intros Hk Hge. unfold optimizeColorForBackground.
  rewrite Hk, bind_Normal.
  rewrite decide_True by assumption.
  case_decide; reflexivity.
Qed.

(** C4: when the colour's contrast against the background already reaches
    the target ratio, [optimizeColorForBackground] returns that very colour,
    whatever the target (4.5 or 7) and however far the contrast lies above
    the upper bound of the band (6.0 or 8.5). *)
Theorem optimize_returns_compliant_original (this : PaletteGenerator)
    (originalColor backgroundColor : ColorUtil) (targetRatio : R)
    (colorIndex totalColors : nat) (currentContrast : R) :
  getContrastRatio originalColor backgroundColor = Normal currentContrast ->
  currentContrast >= targetRatio ->
  optimizeColorForBackground this originalColor backgroundColor targetRatio
    colorIndex totalColors = Normal originalColor.
Proof.
  intros Hk Hge.
  destruct (decide (currentContrast <= (if decide (targetRatio = 4.5)
                                        then 6.0 else 8.5)));
    eapply optimizeColorForBackground_compliant; eassumption.
Qed.

Lemma optimize_returns_compliant_original_witness :
  getContrastRatio black white = Normal 21
  /\ 21 >= 4.5 /\ 21 > 6.0
  /\ optimizeColorForBackground fresh_generator black white 4.5 0 5
     = Normal black.
Proof.
  split; [exact getContrastRatio_black_white |].
  split; [lra |]. split; [lra |].
  apply (optimize_returns_compliant_original fresh_generator black white 4.5
           0 5 21 getContrastRatio_black_white).
  lra.
Defined.

(** C5: the search of the optimizer, in its scan of the target range and
    in its expanded search, returns the colour it was given or a colour
    built from that colour's hue and saturation with another lightness; the
    hue and the saturation of the result are those of the input. *)
Theorem optimizer_search_keeps_hue_and_saturation (this : PaletteGenerator)
    (originalColor backgroundColor : ColorUtil) (targetRatio upperBound : R)
    (colorIndex totalColors : nat) (o : HSL.t) :
  well_formed originalColor -> well_formed backgroundColor ->
  hsl originalColor = Some o ->
  (exists c o',
     findOptimalColor this originalColor backgroundColor targetRatio
       upperBound colorIndex totalColors = Normal c
     /\ lightness_variant originalColor c
     /\ hsl c = Some o' /\ HSL.h o' = HSL.h o /\ HSL.s o' = HSL.s o)
  /\ (forall (isLightBackground : bool) (range : Z * Z) (bestColor : ColorUtil),
        lightness_variant originalColor bestColor ->
        exists c o',
          expandedColorSearch (hsl originalColor) backgroundColor targetRatio
            isLightBackground range bestColor = Normal c
          /\ lightness_variant originalColor c
          /\ hsl c = Some o' /\ HSL.h o' = HSL.h o /\ HSL.s o' = HSL.s o).
Proof.
  intros Hwf Hbg Ho. split.
  - destruct (findOptimalColor_variant this originalColor backgroundColor
                Hwf Hbg targetRatio upperBound colorIndex totalColors)
      as [c [Hc Hvar]].
    destruct (lightness_variant_hsl originalColor c o Ho Hvar) as [o' Ho'].
    exists c, o'. tauto.
  - intros isLightBackground range bestColor Hbest.
    destruct (expandedColorSearch_variant originalColor backgroundColor
                Hwf Hbg targetRatio isLightBackground range bestColor Hbest)
      as [c [Hc Hvar]].
    destruct (lightness_variant_hsl originalColor c o Ho Hvar) as [o' Ho'].
    exists c, o'. tauto.
Qed.

Lemma optimizer_search_keeps_hue_and_saturation_witness :
  well_formed darkBg /\ well_formed white
  /\ exists c o',
       findOptimalColor fresh_generator darkBg white 7 8.5 1 5 = Normal c
       /\ lightness_variant darkBg c
       /\ hsl c = Some o'
       /\ HSL.h o' = HSL.h (rgbToHsl 44 62 80)
       /\ HSL.s o' = HSL.s (rgbToHsl 44 62 80).
Proof.
  split; [apply hex_color_well_formed |].
  split; [apply hex_color_well_formed |].
  apply (optimizer_search_keeps_hue_and_saturation fresh_generator darkBg
           white 7 8.5 1 5 (rgbToHsl 44 62 80)
           (hex_color_well_formed _ _ _ _) (hex_color_well_formed _ _ _ _)
           eq_refl).
Defined.

Lemma getLuminance_unit (c : ColorUtil) :
  in_gamut c -> exists lum, getLuminance c = Normal lum /\ 0 <= lum <= 1.
Proof.
  intros (x & Hx & Hr & Hg & Hb). unfold getLuminance.
  rewrite Hx. cbn [deref]. rewrite bind_Normal.
  pose proof (linearize_unit _ Hr).
  pose proof (linearize_unit _ Hg).
  pose proof (linearize_unit _ Hb).
  eexists. split; [reflexivity | lra].
Qed.

Lemma getContrastRatio_comm (a b : ColorUtil) :
  getContrastRatio a b = getContrastRatio b a.
Proof.
  assert (forall c, getLuminance c = Throw TypeError
                    \/ exists lum, getLuminance c = Normal lum) as Hcases.
  { intros c. unfold getLuminance. destruct (rgb c); simpl; eauto. }
  unfold getContrastRatio.
  destruct (Hcases a) as [-> | [la ->]], (Hcases b) as [-> | [lb ->]];
    simpl; try reflexivity.
  rewrite (Rmax_comm la lb), (Rmin_comm la lb).
  reflexivity.
Qed.

(** The colours of the data model lie in the gamut: those decoded from a
    hex string, and those built from a hue in [0, 360) and a saturation and
    lightness in [0, 100]. *)
Lemma hue2rgb_between (p q t : R) :
  p <= q -> -1 <= t <= 2 -> p <= hue2rgb p q t <= q.
Proof.
  intros Hpq Ht. unfold hue2rgb. cbv zeta.
  repeat case_decide; nra.
Qed.

Lemma fromHsl_in_gamut (h s l : R) :
  0 <= h < 360 -> 0 <= s <= 100 -> 0 <= l <= 100 -> in_gamut (fromHsl h s l).
Proof.
  intros Hh Hs Hl. eexists. split; [reflexivity |].
  unfold hslToRgb. cbv zeta.
  case_decide as Hzero; cbn [RGB.r RGB.g RGB.b]; [lra |].
  set (q := if decide (l / 100 < 0.5) then _ else _).
  assert (0 <= 2 * (l / 100) - q /\ 2 * (l / 100) - q <= q /\ q <= 1)
    as (Hp0 & Hpq & Hq1).
  { unfold q. case_decide; nra. }
  pose proof (hue2rgb_between (2 * (l / 100) - q) q (h / 360 + 1 / 3) Hpq).
  pose proof (hue2rgb_between (2 * (l / 100) - q) q (h / 360) Hpq).
  pose proof (hue2rgb_between (2 * (l / 100) - q) q (h / 360 - 1 / 3) Hpq).
  lra.
Qed.

Lemma hex_value_range (c : ascii) (d : Z) :
  hex_value c = Some d -> (0 <= d <= 15)%Z.
Proof.
  unfold hex_value.
  repeat (case_match;
    [intros [= <-];
     repeat match goal with
            | H : _ && _ = true |- _ => apply andb_prop in H as [? ?]
            end;
     repeat match goal with
            | H : (_ <=? _)%nat = true |- _ => apply Nat.leb_le in H
            end;
     lia |]).
  discriminate.
Qed.

Lemma hexToRgb_in_gamut (text : string) (c : RGB.t) :
  hexToRgb text = Some c ->
  0 <= RGB.r c <= 255 /\ 0 <= RGB.g c <= 255 /\ 0 <= RGB.b c <= 255.
Proof.
  unfold hexToRgb, hex_digits.
  case_decide; [| discriminate].
  destruct (mapM hex_value _) as [digits |] eqn:Hdigits; [| discriminate].
  apply mapM_Some in Hdigits.
  assert (Forall (fun d => 0 <= d <= 15)%Z digits) as Hrange.
  { clear -Hdigits. induction Hdigits; constructor; eauto using hex_value_range. }
  destruct digits as [| r1 [| r2 [| g1 [| g2 [| b1 [| b2 [| ? ?]]]]]]];
    try discriminate.
  intros [= <-]. cbn [RGB.r RGB.g RGB.b].
  repeat match goal with
         | H : Forall _ (_ :: _) |- _ => apply Forall_cons in H as [? H]
         end.
  repeat split; (apply IZR_le; lia).
Qed.

Lemma new_ColorUtil_in_gamut (text : string) (c : ColorUtil) :
  new_ColorUtil text = Normal c -> String.prefix "#" text = true -> in_gamut c.
Proof.
  unfold new_ColorUtil. intros Hnew Hp. rewrite Hp in Hnew.
  destruct (hexToRgb text) as [channels |] eqn:Hx; [| discriminate].
  injection Hnew as <-. exists channels.
  split; [reflexivity | eapply hexToRgb_in_gamut; eassumption].
Qed.

(** C9: the contrast ratio does not depend on the order of the two colours,
    and for colours whose channels lie in [0, 255] it is a number between
    1 and 21. *)
Theorem contrast_ratio_symmetric_in_1_21 (a b : ColorUtil) :
  in_gamut a -> in_gamut b ->
  getContrastRatio a b = getContrastRatio b a
  /\ exists ratio, getContrastRatio a b = Normal ratio /\ 1 <= ratio <= 21.
Proof.
  intros Ha Hb. split; [apply getContrastRatio_comm |].
  destruct (getLuminance_unit a Ha) as (la & Hla & Hra).
  destruct (getLuminance_unit b Hb) as (lb & Hlb & Hrb).
  unfold getContrastRatio. rewrite Hla, bind_Normal, Hlb, bind_Normal.
  eexists. split; [reflexivity |].
  assert (0 < Rmin la lb + 0.05) as Hpos
    by (unfold Rmin; destruct (Rle_dec la lb); lra).
  split.
  - apply (Rmult_le_reg_r (Rmin la lb + 0.05)); [assumption |].
    unfold Rdiv. rewrite Rmult_assoc, Rinv_l by lra.
    pose proof (Rmin_l la lb). pose proof (Rmax_l la lb).
    unfold Rmin, Rmax in *. destruct (Rle_dec la lb); lra.
  - apply (Rmult_le_reg_r (Rmin la lb + 0.05)); [assumption |].
    unfold Rdiv. rewrite Rmult_assoc, Rinv_l by lra.
    unfold Rmin, Rmax. destruct (Rle_dec la lb); lra.
Qed.

Lemma in_gamut_black : in_gamut black.
Proof. eexists. split; [reflexivity |]. simpl. lra. Qed.

Lemma in_gamut_white : in_gamut white.
Proof. eexists. split; [reflexivity |]. simpl. lra. Qed.

Lemma contrast_ratio_symmetric_in_1_21_witness :
  in_gamut black /\ in_gamut white
  /\ getContrastRatio black white = getContrastRatio white black
  /\ exists ratio, getContrastRatio black white = Normal ratio
                   /\ 1 <= ratio <= 21.
Proof.
  split; [exact in_gamut_black |]. split; [exact in_gamut_white |].
  exact (contrast_ratio_symmetric_in_1_21 black white in_gamut_black
           in_gamut_white).
Defined.

Lemma generateBaseColors_without_hash (color harmony : string) (size : nat) :
  String.prefix "#" color = false ->
  generateBaseColors color harmony size = Throw TypeError.
Proof.
  intros Hp. unfold generateBaseColors, new_ColorUtil.
  rewrite Hp. reflexivity.
Qed.

(** C10: for a string that does not start with [#] the constructor returns
    normally an object with none of [hex], [rgb], [hsl] assigned; the
    failure comes later, at the read of [color.hsl.h] in
    [generateBaseColors], which no [try] encloses: that call throws a
    TypeError for every harmony type and size. *)
Theorem constructor_without_hash_assigns_no_field (color : string) :
  String.prefix "#" color = false ->
  new_ColorUtil color = Normal (mkColorUtil None None None)
  /\ forall (harmony : string) (size : nat),
       generateBaseColors color harmony size = Throw TypeError.
Proof.
  intros Hp. assert (new_ColorUtil color = Normal (mkColorUtil None None None))
    as Hnew by (unfold new_ColorUtil; rewrite Hp; reflexivity).
  split; [assumption |].
  intros harmony size. apply generateBaseColors_without_hash. assumption.
Qed.

Lemma constructor_without_hash_assigns_no_field_witness :
  String.prefix "#" "5500AA" = false
  /\ new_ColorUtil "5500AA" = Normal (mkColorUtil None None None)
  /\ forall (harmony : string) (size : nat),
       generateBaseColors "5500AA" harmony size = Throw TypeError.
Proof.
  split; [reflexivity |].
  exact (constructor_without_hash_assigns_no_field "5500AA" eq_refl).
Defined.

(** ** Claims on [generatePalette] that need no palette reasoning *)

Lemma new_ColorUtil_default : new_ColorUtil "#5500AA" = Normal (hex_color "#5500AA" 85 0 170).
Proof. apply new_ColorUtil_well_formed; reflexivity. Qed.

Lemma new_ColorUtil_malformed (color : string) :
  hexToRgb color = None ->
  new_ColorUtil color = Throw TypeError
  \/ new_ColorUtil color = Normal (mkColorUtil None None None).
Proof.
  intros Hx. unfold new_ColorUtil.
  destruct (String.prefix "#" color); [left | right; reflexivity].
  rewrite Hx. reflexivity.
Qed.

Lemma generateBaseColors_malformed (color harmony : string) (size : nat) :
  hexToRgb color = None -> size <> 0%nat ->
  generateBaseColors color harmony size = Throw TypeError.
Proof.
  intros Hx Hsize. unfold generateBaseColors.
  destruct (new_ColorUtil_malformed color Hx) as [Hnew | Hnew]; rewrite Hnew.
  - cbn [try_catch]. rewrite new_ColorUtil_default, bind_Normal.
    cbn [hsl hex_color deref]. rewrite bind_Normal.
    destruct (colorHarmonies harmony) as [hues |]; [| reflexivity].
    cbn [deref]. rewrite bind_Normal.
    destruct size as [| size]; [congruence |].
    cbn [for_range]. rewrite decide_True by reflexivity.
    reflexivity.
  - reflexivity.
Qed.

(** C2, evaluated on the code: for every base colour that the pattern of
    [hexToRgb] does not match, [generatePalette] does not return palettes
    but throws a TypeError to its caller, for every generator and every
    other setting; the default colour of the [catch] branch never reaches
    slot 0, which parses the given string again outside the [try]. *)
Theorem malformed_base_color_throws (this : PaletteGenerator)
    (options : Options) (color : string) :
  opt_baseColor options = Some color -> hexToRgb color = None ->
  (generatePalette this options).1 = Throw TypeError.
Proof.
  intros Hcolor Hx. unfold generatePalette. cbn [fst].
  rewrite Hcolor. cbn [default].
  rewrite generateBaseColors_malformed; [reflexivity | assumption |].
  destruct (validateSize_cases (default (SizeNumber 5) (opt_paletteSize options)))
    as [-> | ->]; discriminate.
Qed.

Lemma malformed_base_color_throws_witness :
  hexToRgb "#GGGGGG" = None
  /\ (generatePalette fresh_generator
        (mkOptions None None None (Some "#GGGGGG"%string) None)).1
     = Throw TypeError.
Proof.
  split; [reflexivity |].
  exact (malformed_base_color_throws fresh_generator
           (mkOptions None None None (Some "#GGGGGG"%string) None) "#GGGGGG"
           eq_refl eq_refl).
Defined.

(** C3: the outcome of [generatePalette] is a function of the settings and
    of the two reference colours alone.  A call leaves the generator in a
    state from which the same settings give the same outcome again, and no
    earlier call with other settings changes the outcome; equal outcomes
    carry equal hex strings at every position of the three palettes. *)
Theorem generatePalette_deterministic (this : PaletteGenerator)
    (earlier options : Options) :
  generatePalette (generatePalette this options).2 options
  = generatePalette this options
  /\ (generatePalette (generatePalette this earlier).2 options).1
     = (generatePalette this options).1
  /\ (fun palettes : GeneratedPalettes =>
        (hex <$> base palettes, hex <$> lightOptimized palettes,
         hex <$> darkOptimized palettes))
     <$> (generatePalette (generatePalette this earlier).2 options).1
     = (fun palettes : GeneratedPalettes =>
          (hex <$> base palettes, hex <$> lightOptimized palettes,
           hex <$> darkOptimized palettes))
       <$> (generatePalette this options).1.
Proof.
  split; [reflexivity |]. split; reflexivity.
Qed.

Lemma Rtrunc_IZR (z : Z) : Rtrunc (IZR z) = z.
Proof.
  unfold Rtrunc. case_decide as Hz.
  - symmetry. apply Int_part_spec. lra.
  - rewrite <- opp_IZR.
    replace (Int_part (IZR (- z))) with (- z)%Z; [lia |].
    apply Int_part_spec. lra.
Qed.

Lemma parseInt_number_small (z : Z) :
  (0 < z < 1000)%Z -> parseInt_number (IZR z) = z.
Proof.
  intros Hz. unfold parseInt_number.
  assert (1 <= IZR z < 1000) as Hr
    by (split; [apply IZR_le | apply IZR_lt]; lia).
  rewrite decide_False by lra.
  rewrite Rabs_pos_eq by lra.
  rewrite decide_True by lra.
  apply Rtrunc_IZR.
Qed.

Lemma parseInt_number_3_5 : parseInt_number 3.5 = 3%Z.
Proof.
  unfold parseInt_number.
  rewrite decide_False by lra.
  rewrite Rabs_pos_eq by lra.
  rewrite decide_True by lra.
  unfold Rtrunc. rewrite decide_True by lra.
  symmetry. apply Int_part_spec. lra.
Qed.

Lemma validateSize_small (z : Z) :
  (0 < z < 1000)%Z ->
  validateSize (SizeNumber (IZR z)) = if decide (z = 3%Z) then 3%nat else 5%nat.
Proof.
  intros Hz. rewrite validateSize_parseInt. cbn [parseInt].
  rewrite parseInt_number_small by assumption.
  destruct (decide (z = 3%Z)) as [-> | Hne].
  - rewrite decide_True by reflexivity. reflexivity.
  - rewrite decide_False by congruence. reflexivity.
Qed.

Lemma validateSize_5 : validateSize (SizeNumber 5) = 5%nat.
Proof. exact (validateSize_small 5 ltac:(lia)). Qed.

(** C7 as the code has it: [validateSize] returns 3 when [parseInt] of the
    requested size is 3 and returns 5 in every other case; so it returns 3
    for the input 3, 5 for the input 5 and 5 for the input 4; and
    [generatePalette] with palette size 4 is [generatePalette] with palette
    size 5, all other settings and the generator being the same. *)
Theorem validateSize_follows_parseInt :
  (forall size : js_size,
     validateSize size
     = if decide (parseInt size = Some 3%Z) then 3%nat else 5%nat)
  /\ validateSize (SizeNumber 3) = 3%nat
  /\ validateSize (SizeNumber 5) = 5%nat
  /\ validateSize (SizeNumber 4) = 5%nat
  /\ (forall (this : PaletteGenerator) (level harmony color : option string)
             (settings : option DifferentiationSettings),
        generatePalette this
          (mkOptions (Some (SizeNumber 4)) level harmony color settings)
        = generatePalette this
            (mkOptions (Some (SizeNumber 5)) level harmony color settings)).
Proof.
  split; [exact validateSize_parseInt |].
  split; [exact (validateSize_small 3 ltac:(lia)) |].
  split; [exact validateSize_5 |].
  assert (validateSize (SizeNumber 4) = 5%nat) as H4
    by exact (validateSize_small 4 ltac:(lia)).
  split; [exact H4 |].
  intros this level harmony color settings.
  unfold generatePalette. cbv [opt_paletteSize from_option Datatypes.id].
  rewrite H4, validateSize_5. reflexivity.
Qed.

(** C7 fails as stated: the number 3.5 and the string "3px" are other
    values than 3, and [validateSize] answers 3 for both, not 5. *)
Lemma validateSize_3_5_is_3 :
  3.5 <> 3 /\ validateSize (SizeNumber 3.5) = 3%nat
  /\ validateSize (SizeString "3px") = 3%nat
  /\ validateSize (SizeNumber 3.5) <> 5%nat.
Proof.
  assert (validateSize (SizeNumber 3.5) = 3%nat) as H.
  { rewrite validateSize_parseInt. cbn [parseInt].
    rewrite parseInt_number_3_5. reflexivity. }
  split; [lra |]. split; [exact H |]. split; [reflexivity |].
  rewrite H. discriminate.
Qed.

(** ** Palettes of constructed colours *)

Lemma Forall_well_formed_lookup (palette palette' : list ColorUtil) :
  Forall well_formed palette ->
  length palette' = length palette ->
  (forall i x, palette !! i = Some x ->
     exists y, palette' !! i = Some y /\ well_formed y) ->
  Forall well_formed palette'.
Proof.
  intros Hwf Hlen Hlook. apply Forall_lookup. intros i y Hy.
  destruct (lookup_lt_is_Some_2 palette i) as [x Hx].
  { rewrite <- Hlen. eapply lookup_lt_Some. eassumption. }
  destruct (Hlook i x Hx) as [y' [Hy' Hwfy]]. congruence.
Qed.

Lemma generateOptimizedPalette_total (this : PaletteGenerator)
    (baseColors : list ColorUtil) (backgroundColor : ColorUtil)
    (minContrastRatio : R) :
  Forall well_formed baseColors -> well_formed backgroundColor ->
  exists optimized,
    generateOptimizedPalette this baseColors backgroundColor minContrastRatio
    = Normal optimized
    /\ length optimized = length baseColors
    /\ Forall well_formed optimized
    /\ forall i x, baseColors !! i = Some x ->
         exists y, optimized !! i = Some y
           /\ optimizeColorForBackground this x backgroundColor
                minContrastRatio i (length baseColors) = Normal y
           /\ lightness_variant x y.
Proof.
  intros Hwf Hbg. unfold generateOptimizedPalette.
  destruct (map_indexed_total
    (fun color index => optimizeColorForBackground this color backgroundColor
       minContrastRatio index (length baseColors))
    (fun _ x y => lightness_variant x y) baseColors 0)
    as [optimized [Hopt [Hlen Hlook]]].
  { intros i x Hx. apply optimizeColorForBackground_variant; [| assumption].
    eapply Forall_lookup_1; eassumption. }
  exists optimized. split; [assumption |]. split; [assumption |].
  split.
  - apply (Forall_well_formed_lookup baseColors); [assumption .. |].
    intros i x Hx. destruct (Hlook i x Hx) as [y [Hy [_ Hvar]]].
    exists y. split; [assumption |].
    apply (lightness_variant_well_formed x); [| assumption].
    eapply Forall_lookup_1; eassumption.
  - intros i x Hx. destruct (Hlook i x Hx) as [y Hy]. exists y. exact Hy.
Qed.

(** ** Stage 1: lightness redistribution *)

Lemma adjust_loop_spec (n : nat) (adjustment : R) (originalHsl : HSL.t)
    (backgroundColor : ColorUtil) (minContrastRatio targetLightness : R)
    (searchDirection : R) :
  well_formed backgroundColor ->
  exists found,
    adjust_loop n adjustment originalHsl backgroundColor minContrastRatio
      targetLightness searchDirection = Normal found
    /\ match found with
       | Some c =>
           (exists l, c = fromHsl (HSL.h originalHsl) (HSL.s originalHsl) l)
           /\ exists k, getContrastRatio c backgroundColor = Normal k
                        /\ k >= minContrastRatio
       | None => True
       end.
Proof.
  intros Hbg. revert adjustment.
  induction n as [| n IH]; intros adjustment; cbn [adjust_loop].
  - exists None. auto.
  - set (testColor := fromHsl _ _ _).
    contrast_of testColor backgroundColor k Hk.
    case_decide.
    + exists (Some testColor). split; [reflexivity |].
      split; [eexists; reflexivity | eauto].
    + apply IH.
Qed.

(** What stage 1 does to one slot: the colour is kept, or replaced by one of
    the same hue and saturation whose contrast reaches the minimum. *)
Lemma adjustColorToTargetLightness_spec (originalColor backgroundColor : ColorUtil)
    (minContrastRatio targetLightness : R) :
  well_formed originalColor -> well_formed backgroundColor ->
  exists c,
    adjustColorToTargetLightness originalColor backgroundColor
      minContrastRatio targetLightness = Normal c
    /\ lightness_variant originalColor c
    /\ (c = originalColor
        \/ exists k, getContrastRatio c backgroundColor = Normal k
                     /\ k >= minContrastRatio).
Proof.
  intros Hwf Hbg. unfold adjustColorToTargetLightness.
  destruct Hwf as [Hrgb [o Ho]]. rewrite Ho. cbn [deref].
  rewrite bind_Normal.
  set (testColor := fromHsl _ _ _).
  contrast_of testColor backgroundColor k Hk.
  case_decide.
  - exists testColor. split; [reflexivity |].
    split; [right; eauto | right; eauto].
  - destruct (getLuminance_total backgroundColor Hbg) as [lum Hlum].
    rewrite Hlum, bind_Normal.
    destruct (adjust_loop_spec 5 5 o backgroundColor minContrastRatio
                targetLightness
                (if bool_decide (lum > 0.5) then -1 else 1) Hbg)
      as [found [Hfound Hspec]].
    rewrite Hfound, bind_Normal.
    destruct found as [c |].
    + destruct Hspec as [[l ->] Hk'].
      eexists. split; [reflexivity |]. split; right; eauto.
    + exists originalColor. split; [reflexivity |]. split; left; reflexivity.
Qed.

Lemma getOptimalLightnessDistribution_lookup (n : nat)
    (isLightBackground : bool) (i : nat) :
  (i < n <= 5)%nat ->
  exists t, getOptimalLightnessDistribution n isLightBackground !! i = Some t.
Proof.
  intros Hi. unfold getOptimalLightnessDistribution.
  destruct isLightBackground; case_decide; subst;
    apply lookup_lt_is_Some_2; cbn [length]; lia.
Qed.

Lemma distributeColorsOptimally_spec (palette : list ColorUtil)
    (backgroundColor : ColorUtil) (minContrastRatio minLightnessDiff : R) :
  Forall well_formed palette -> well_formed backgroundColor ->
  (length palette <= 5)%nat ->
  exists lum result,
    getLuminance backgroundColor = Normal lum
    /\ distributeColorsOptimally palette backgroundColor minContrastRatio
         minLightnessDiff = Normal result
    /\ length result = length palette
    /\ Forall well_formed result
    /\ forall i x, palette !! i = Some x ->
         exists y t, result !! i = Some y
           /\ getOptimalLightnessDistribution (length palette)
                (bool_decide (lum > 0.5)) !! i = Some t
           /\ adjustColorToTargetLightness x backgroundColor minContrastRatio t
              = Normal y
           /\ (y = x \/ exists k, getContrastRatio y backgroundColor = Normal k
                                  /\ k >= minContrastRatio).
Proof.
  intros Hwf Hbg Hlen. unfold distributeColorsOptimally.
  destruct (getLuminance_total backgroundColor Hbg) as [lum Hlum].
  exists lum. rewrite Hlum, bind_Normal.
  set (table := getOptimalLightnessDistribution (length palette)
                  (bool_decide (lum > 0.5))).
  set (f := fun (x : ColorUtil) (i : nat) =>
              number_at table i ≫= fun t =>
              adjustColorToTargetLightness x backgroundColor minContrastRatio t).
  rewrite (for_range_slotwise_0 f).
  2:{ intros i l x _ Hx. rewrite Hx. cbn [deref]. rewrite bind_Normal.
      unfold f. rewrite bind_assoc. reflexivity. }
  destruct (map_indexed_total f
    (fun i x y => exists t, table !! i = Some t
       /\ adjustColorToTargetLightness x backgroundColor minContrastRatio t
          = Normal y
       /\ lightness_variant x y
       /\ (y = x \/ exists k, getContrastRatio y backgroundColor = Normal k
                              /\ k >= minContrastRatio)) palette 0)
    as [result [Hres [Hlen' Hlook]]].
  { intros i x Hx. cbn [Nat.add].
    destruct (getOptimalLightnessDistribution_lookup (length palette)
                (bool_decide (lum > 0.5)) i) as [t Ht].
    { split; [eapply lookup_lt_Some; eassumption | assumption]. }
    fold table in Ht.
    destruct (adjustColorToTargetLightness_spec x backgroundColor
                minContrastRatio t) as [y [Hy [Hvar Hk]]];
      [eapply Forall_lookup_1; eassumption | assumption |].
    exists y. unfold f, number_at. rewrite Ht, bind_Normal.
    split; [assumption | eauto 6]. }
  exists result. split; [reflexivity |]. split; [assumption |].
  split; [assumption |]. split.
  - apply (Forall_well_formed_lookup palette); [assumption .. |].
    intros i x Hx. destruct (Hlook i x Hx) as (y & Hy & _ & t & _ & _ & Hvar & _).
    exists y. split; [assumption |].
    apply (lightness_variant_well_formed x); [| assumption].
    eapply Forall_lookup_1; eassumption.
  - intros i x Hx. destruct (Hlook i x Hx) as (y & Hy & _ & t & Ht & Hadj & _ & Hk).
    exists y, t. auto.
Qed.

(** ** Stages 2 and 3: the later slot of a pair is the one adjusted *)

Lemma collect_pairs_spec (palette : list ColorUtil)
    (similar : ColorUtil -> ColorUtil -> completion bool) :
  (forall c1 c2, well_formed c1 -> well_formed c2 ->
     exists close, similar c1 c2 = Normal close) ->
  Forall well_formed palette ->
  exists pairs,
    collect_pairs palette similar = Normal pairs
    /\ Forall (fun pair => (pair.1 < pair.2 < length palette)%nat) pairs.
Proof.
  intros Hsim Hwf. unfold collect_pairs.
  set (good := fun pair : nat * nat => (pair.1 < pair.2 < length palette)%nat).
  destruct (for_range_invariant (fun _ pairs => Forall good pairs)
              (length palette) 0
              (fun i pairs =>
                 for_range (S i) (length palette - S i) (fun j pairs =>
                   color1 ← deref (palette !! i);
                   color2 ← deref (palette !! j);
                   close ← similar color1 color2;
                   Normal (if close : bool then pairs ++ [(i, j)] else pairs))
                   pairs) [])
    as [pairs [Hpairs Hgood]].
  - constructor.
  - intros i pairs Hi Hinv.
    destruct (for_range_invariant (fun _ pairs => Forall good pairs)
                (length palette - S i) (S i)
                (fun j pairs =>
                   color1 ← deref (palette !! i);
                   color2 ← deref (palette !! j);
                   close ← similar color1 color2;
                   Normal (if close : bool then pairs ++ [(i, j)] else pairs))
                pairs Hinv) as [pairs' [Hpairs' Hgood']].
    + intros j acc Hj Hacc.
      destruct (lookup_lt_is_Some_2 palette i) as [c1 Hc1]; [lia |].
      destruct (lookup_lt_is_Some_2 palette j) as [c2 Hc2]; [lia |].
      rewrite Hc1, Hc2. cbn [deref]. rewrite !bind_Normal.
      destruct (Hsim c1 c2) as [close Hclose];
        [eapply Forall_lookup_1; eassumption .. |].
      rewrite Hclose, bind_Normal.
      eexists. split; [reflexivity |].
      destruct close; [| assumption].
      apply Forall_app. split; [assumption |].
      constructor; [| constructor]. unfold good. cbn. lia.
    + exists pairs'. auto.
  - exists pairs. auto.
Qed.

Lemma stage_frame_insert (palette current : list ColorUtil) (j : nat)
    (c : ColorUtil) :
  stage_frame palette current -> well_formed c -> (0 < j)%nat ->
  stage_frame palette (<[j := c]> current).
Proof.
  intros (Hlen & Hwf & H0) Hc Hj. split; [| split].
  - rewrite length_insert. assumption.
  - apply Forall_insert; assumption.
  - rewrite list_lookup_insert_ne by lia. assumption.
Qed.

Lemma adjustSaturationForDifferentiation_frame (palette : list ColorUtil)
    (minSaturationDiff : R) :
  Forall well_formed palette ->
  exists result,
    adjustSaturationForDifferentiation palette minSaturationDiff = Normal result
    /\ stage_frame palette result.
Proof.
  intros Hwf. unfold adjustSaturationForDifferentiation.
  match goal with
  | |- context [collect_pairs palette ?similar] =>
      destruct (collect_pairs_spec palette similar)
        as [pairs [Hpairs Hgood]]; [| assumption |]
  end.
  { intros c1 c2 [_ [o1 Ho1]] [_ [o2 Ho2]]. rewrite Ho1, Ho2.
    eexists. reflexivity. }
  rewrite Hpairs, bind_Normal.
  apply for_each_invariant.
  - split; [reflexivity |]. split; [assumption | reflexivity].
  - intros [i j] current Hin Hframe.
    pose proof (proj1 (Forall_forall _ _) Hgood _ Hin) as Hij. cbn in Hij.
    pose proof Hframe as (Hlen & Hwfc & H0).
    destruct (lookup_lt_is_Some_2 current i) as [c1 Hc1]; [lia |].
    destruct (lookup_lt_is_Some_2 current j) as [c2 Hc2]; [lia |].
    destruct (Forall_lookup_1 _ _ _ _ Hwfc Hc1) as [_ [o1 Ho1]].
    destruct (Forall_lookup_1 _ _ _ _ Hwfc Hc2) as [_ [o2 Ho2]].
    cbn [fst snd]. rewrite Hc1, Hc2. cbn [deref]. rewrite !bind_Normal.
    rewrite Ho2, Ho1. cbn [deref]. rewrite !bind_Normal.
    eexists. split; [reflexivity |].
    apply stage_frame_insert;
      [assumption | apply fromHsl_well_formed | lia].
Qed.

(** Stage 2 tests no contrast.  The channels of a cyan [hsl(180, s, 35)]:
    red is [p], green and blue are [q]. *)
Lemma hslToRgb_cyan_35 (s : R) :
  0 < s <= 100 ->
  hslToRgb 180 s 35
  = RGB.mk ((2 * (35 / 100) - 35 / 100 * (1 + s / 100)) * 255)
           (35 / 100 * (1 + s / 100) * 255)
           (35 / 100 * (1 + s / 100) * 255).
Proof.
  intros Hs. unfold hslToRgb. cbv zeta.
  rewrite decide_False by lra. rewrite decide_True by lra.
  f_equal; unfold hue2rgb; cbv zeta; repeat case_decide; lra.
Qed.

Lemma getLuminance_cyan_35 (s : R) :
  0 < s <= 60 ->
  getLuminance (fromHsl 180 s 35)
  = Normal (0.2126 * Math_pow ((0.35 * (1 - s / 100) + 0.055) / 1.055) 2.4
            + 0.7874 * Math_pow ((0.35 * (1 + s / 100) + 0.055) / 1.055) 2.4).
Proof.
  intros Hs. unfold getLuminance, fromHsl. cbv zeta.
  cbn [rgb deref]. rewrite bind_Normal, hslToRgb_cyan_35 by lra.
  cbn [RGB.r RGB.g RGB.b]. unfold linearize. cbv zeta.
  rewrite !decide_False by lra. f_equal.
  replace ((2 * (35 / 100) - 35 / 100 * (1 + s / 100)) * 255 / 255)
    with (0.35 * (1 - s / 100)) by lra.
  replace (35 / 100 * (1 + s / 100) * 255 / 255)
    with (0.35 * (1 + s / 100)) by lra.
  lra.
Qed.

(** On white, the cyan of saturation 30 passes AA (its ratio is about 5.3)
    and the cyan of saturation 60 does not (about 3.9). *)
Lemma getContrastRatio_cyan_35 :
  exists k k',
    getContrastRatio (fromHsl 180 30 35) white = Normal k
    /\ getContrastRatio (fromHsl 180 60 35) white = Normal k'
    /\ 4.5 <= k /\ k' < 4.5.
Proof.
  unfold getContrastRatio.
  rewrite !getLuminance_cyan_35, getLuminance_white, !bind_Normal by lra.
  destruct (Math_pow_gamma_between ((0.35 * (1 - 30 / 100) + 0.055) / 1.055)
              0 0.05) as [Hp1 Hp2]; [lra | lra | split; lra |].
  destruct (Math_pow_gamma_between ((0.35 * (1 + 30 / 100) + 0.055) / 1.055)
              0 0.18) as [Hq1 Hq2]; [lra | lra | split; lra |].
  destruct (Math_pow_gamma_between ((0.35 * (1 - 60 / 100) + 0.055) / 1.055)
              0.017 1) as [Hp3 Hp4]; [lra | lra | split; lra |].
  destruct (Math_pow_gamma_between ((0.35 * (1 + 60 / 100) + 0.055) / 1.055)
              0.27 1) as [Hq3 Hq4]; [lra | lra | split; lra |].
  do 2 eexists. split; [reflexivity |]. split; [reflexivity |].
  rewrite !Rmax_right, !Rmin_left by lra. split.
  - apply Rdiv_ge_bound; lra.
  - apply Rdiv_lt_bound; lra.
Qed.

(** Called with the pass's own [MIN_SATURATION_DIFFERENCE = 20] on two
    cyans that both pass AA on white, stage 2 raises the saturation of the
    second from 30 to 60, and the replacement no longer passes. *)
Lemma adjustSaturationForDifferentiation_below_minimum :
  exists k k',
    adjustSaturationForDifferentiation [fromHsl 180 20 35; fromHsl 180 30 35] 20
    = Normal [fromHsl 180 20 35; fromHsl 180 60 35]
    /\ getContrastRatio (fromHsl 180 30 35) white = Normal k
    /\ getContrastRatio (fromHsl 180 60 35) white = Normal k'
    /\ 4.5 <= k /\ k' < 4.5.
Proof.
  destruct getContrastRatio_cyan_35 as (k & k' & Hk & Hk' & Hge & Hlt).
  exists k, k'. repeat split; try assumption.
  unfold adjustSaturationForDifferentiation, collect_pairs.
  cbn [length for_range Nat.sub lookup list_lookup deref].
  rewrite !bind_Normal, !fromHsl_hsl. cbn [deref]. rewrite !bind_Normal.
  cbn [HSL.s HSL.l]. rewrite bool_decide_eq_true_2.
  2: { split; apply Rabs_def1; lra. }
  cbn [app for_each fst snd lookup list_lookup deref].
  rewrite !bind_Normal, !fromHsl_hsl. cbn [deref]. rewrite !bind_Normal.
  cbn [HSL.h HSL.s HSL.l]. rewrite decide_True by lra.
  rewrite Rmin_right by lra.
  replace (30 + (20 + 10)) with 60 by lra. reflexivity.
Qed.

Lemma try_directions_spec (directions : list R) (originalHsl : HSL.t)
    (backgroundColor : ColorUtil) (minContrastRatio maxHueAdjustment : R) :
  well_formed backgroundColor ->
  exists found,
    try_directions directions originalHsl backgroundColor minContrastRatio
      maxHueAdjustment = Normal found
    /\ match found with
       | Some c =>
           well_formed c
           /\ exists k, getContrastRatio c backgroundColor = Normal k
                        /\ k >= minContrastRatio
       | None => True
       end.
Proof.
  intros Hbg.
  induction directions as [| direction rest IH]; cbn [try_directions].
  - exists None. auto.
  - set (testColor := fromHsl _ _ _).
    contrast_of testColor backgroundColor k Hk.
    case_decide.
    + exists (Some testColor). split; [reflexivity |].
      split; [apply fromHsl_well_formed | eauto].
    + exact IH.
Qed.

Lemma applyMinimalHueAdjustments_frame (palette : list ColorUtil)
    (backgroundColor : ColorUtil) (minContrastRatio maxHueAdjustment : R) :
  Forall well_formed palette -> well_formed backgroundColor ->
  exists result,
    applyMinimalHueAdjustments palette backgroundColor minContrastRatio
      maxHueAdjustment = Normal result
    /\ stage_frame palette result.
Proof.
  intros Hwf Hbg. unfold applyMinimalHueAdjustments.
  match goal with
  | |- context [collect_pairs palette ?similar] =>
      destruct (collect_pairs_spec palette similar)
        as [pairs [Hpairs Hgood]]; [| assumption |]
  end.
  { intros c1 c2 [_ [o1 Ho1]] [_ [o2 Ho2]]. rewrite Ho1, Ho2.
    eexists. reflexivity. }
  rewrite Hpairs, bind_Normal.
  apply for_each_invariant.
  - split; [reflexivity |]. split; [assumption | reflexivity].
  - intros [i j] current Hin Hframe.
    pose proof (proj1 (Forall_forall _ _) Hgood _ Hin) as Hij. cbn in Hij.
    pose proof Hframe as (Hlen & Hwfc & H0).
    destruct (lookup_lt_is_Some_2 current j) as [c2 Hc2]; [lia |].
    destruct (Forall_lookup_1 _ _ _ _ Hwfc Hc2) as [_ [o2 Ho2]].
    cbn [fst snd]. rewrite Hc2. cbn [deref]. rewrite !bind_Normal.
    rewrite Ho2. cbn [deref]. rewrite !bind_Normal.
    destruct (try_directions_spec [1; -1] o2 backgroundColor minContrastRatio
                maxHueAdjustment Hbg) as [found [Hfound Hspec]].
    rewrite Hfound, bind_Normal.
    destruct found as [c |].
    + eexists. split; [reflexivity |].
      apply stage_frame_insert; [assumption | tauto | lia].
    + eexists. split; [reflexivity | assumption].
Qed.

Lemma applyMinimalHueAdjustments_compliant (palette : list ColorUtil)
    (backgroundColor : ColorUtil) (minContrastRatio maxHueAdjustment : R) :
  Forall well_formed palette -> well_formed backgroundColor ->
  exists result,
    applyMinimalHueAdjustments palette backgroundColor minContrastRatio
      maxHueAdjustment = Normal result
    /\ kept_or_compliant backgroundColor minContrastRatio palette result.
Proof.
  intros Hwf Hbg. unfold applyMinimalHueAdjustments.
  match goal with
  | |- context [collect_pairs palette ?similar] =>
      destruct (collect_pairs_spec palette similar)
        as [pairs [Hpairs Hgood]]; [| assumption |]
  end.
  { intros c1 c2 [_ [o1 Ho1]] [_ [o2 Ho2]]. rewrite Ho1, Ho2.
    eexists. reflexivity. }
  rewrite Hpairs, bind_Normal.
  match goal with
  | |- context [for_each pairs ?body palette] =>
      destruct (for_each_invariant
        (fun current =>
           stage_frame palette current
           /\ kept_or_compliant backgroundColor minContrastRatio palette current)
        pairs body palette) as [result [Hresult [_ Hkept]]]
  end.
  - split; [split; [reflexivity | split; [assumption | reflexivity]] |].
    intros i x Hx. exists x. auto.
  - intros [i j] current Hin [Hframe Hkept].
    pose proof (proj1 (Forall_forall _ _) Hgood _ Hin) as Hij. cbn in Hij.
    pose proof Hframe as (Hlen & Hwfc & H0).
    destruct (lookup_lt_is_Some_2 current j) as [c2 Hc2]; [lia |].
    destruct (Forall_lookup_1 _ _ _ _ Hwfc Hc2) as [_ [o2 Ho2]].
    cbn [fst snd]. rewrite Hc2. cbn [deref]. rewrite !bind_Normal.
    rewrite Ho2. cbn [deref]. rewrite !bind_Normal.
    destruct (try_directions_spec [1; -1] o2 backgroundColor minContrastRatio
                maxHueAdjustment Hbg) as [found [Hfound Hspec]].
    rewrite Hfound, bind_Normal.
    destruct found as [c |]; (eexists; split; [reflexivity |]).
    + split; [apply stage_frame_insert; [assumption | tauto | lia] |].
      intros i' x Hx. destruct (decide (i' = j)) as [-> | Hne].
      * exists c. rewrite list_lookup_insert_eq by lia. split; [reflexivity |].
        right. tauto.
      * rewrite list_lookup_insert_ne by congruence. apply Hkept. assumption.
    + split; assumption.
  - exists result. auto.
Qed.

(** ** The monochromatic path *)

Lemma every_near_first_spec (first : ColorUtil) (firstHsl : HSL.t)
    (rest : list ColorUtil) :
  hsl first = Some firstHsl -> Forall well_formed rest ->
  exists near,
    every_near_first (Some first) rest = Normal near
    /\ (near = true <->
        forall c o, c ∈ rest -> hsl c = Some o ->
          getCircularHueDistance (HSL.h o) (HSL.h firstHsl) < 5).
Proof.
  intros Hfirst Hwf.
  induction Hwf as [| c rest [_ [o Ho]] Hwf IH]; cbn [every_near_first].
  - exists true. split; [reflexivity |]. split; [| reflexivity].
    intros _ c o Hc. inversion Hc.
  - rewrite Ho. cbn [deref]. rewrite !bind_Normal, Hfirst.
    cbn [deref]. rewrite bind_Normal.
    case_decide as Hd.
    + destruct IH as [near [Hnear Hiff]]. exists near.
      split; [assumption |]. rewrite Hiff. split.
      * intros Hall c' o' Hc' Ho'.
        apply elem_of_cons in Hc' as [-> | Hc']; [| eauto].
        rewrite Ho in Ho'. injection Ho' as <-. assumption.
      * intros Hall c' o' Hc' Ho'. apply (Hall c' o'); [| assumption].
        apply elem_of_cons. auto.
    + exists false. split; [reflexivity |]. split; [discriminate |].
      intros Hall. exfalso. apply Hd. apply (Hall c o); [| assumption].
      apply elem_of_cons. auto.
Qed.

Lemma monochromatic_ladder_lookup (n i : nat) :
  (i < n <= 5)%nat -> exists t, monochromatic_ladder n !! i = Some t.
Proof.
  intros Hi. unfold monochromatic_ladder.
  case_decide; subst; apply lookup_lt_is_Some_2; cbn [length]; lia.
Qed.

Lemma ensureMinimumContrast_spec (this : PaletteGenerator)
    (palette : list ColorUtil) (backgroundColor : ColorUtil)
    (minContrastRatio : R) :
  Forall well_formed palette -> well_formed backgroundColor ->
  exists result,
    ensureMinimumContrast this palette backgroundColor minContrastRatio
    = Normal result
    /\ length result = length palette
    /\ Forall well_formed result
    /\ forall i x, palette !! i = Some x ->
         exists y k, result !! i = Some y
           /\ getContrastRatio x backgroundColor = Normal k
           /\ ((~ k < minContrastRatio /\ y = x)
               \/ (k < minContrastRatio
                   /\ findOptimalColor this x backgroundColor minContrastRatio
                        (minContrastRatio * 1.5) i (length palette)
                      = Normal y)).
Proof.
  intros Hwf Hbg. unfold ensureMinimumContrast.
  set (f := fun (x : ColorUtil) (i : nat) =>
              getContrastRatio x backgroundColor ≫= fun contrast =>
              if decide (contrast < minContrastRatio)
              then findOptimalColor this x backgroundColor minContrastRatio
                     (minContrastRatio * 1.5) i (length palette)
              else Normal x).
  rewrite (for_range_slotwise_0 f).
  2:{ intros i l x Hlen Hx. rewrite Hx. cbn [deref]. rewrite bind_Normal.
      unfold f. rewrite bind_assoc.
      destruct (getContrastRatio x backgroundColor) as [k | e]; [| reflexivity].
      rewrite !bind_Normal. case_decide.
      - rewrite Hlen. reflexivity.
      - rewrite bind_Normal, list_insert_id by assumption. reflexivity. }
  destruct (map_indexed_total f
    (fun i x y => well_formed y /\ exists k,
       getContrastRatio x backgroundColor = Normal k
       /\ ((~ k < minContrastRatio /\ y = x)
           \/ (k < minContrastRatio
               /\ findOptimalColor this x backgroundColor minContrastRatio
                    (minContrastRatio * 1.5) i (length palette) = Normal y)))
    palette 0) as [result [Hres [Hlen Hlook]]].
  { intros i x Hx. cbn [Nat.add].
    pose proof (Forall_lookup_1 _ _ _ _ Hwf Hx) as Hwfx.
    destruct (getContrastRatio_total x backgroundColor Hwfx Hbg) as [k Hk].
    unfold f. rewrite Hk, bind_Normal. case_decide.
    - destruct (findOptimalColor_variant this x backgroundColor Hwfx Hbg
                  minContrastRatio (minContrastRatio * 1.5) i (length palette))
        as [y [Hy Hvar]].
      exists y. split; [assumption |]. split.
      + apply (lightness_variant_well_formed x); assumption.
      + exists k. auto.
    - exists x. split; [reflexivity |]. split; [assumption |].
      exists k. auto. }
  exists result. split; [assumption |]. split; [assumption |]. split.
  - apply (Forall_well_formed_lookup palette); [assumption .. |].
    intros i x Hx. destruct (Hlook i x Hx) as (y & Hy & _ & Hwfy & _).
    exists y. auto.
  - intros i x Hx.
    destruct (Hlook i x Hx) as (y & Hy & _ & _ & k & Hk & Hcases).
    exists y, k. auto.
Qed.

Lemma enhanceMonochromaticDifferentiation_spec (this : PaletteGenerator)
    (palette : list ColorUtil) (backgroundColor : ColorUtil)
    (minContrastRatio : R) (first : ColorUtil) (firstHsl : HSL.t) :
  Forall well_formed palette -> well_formed backgroundColor ->
  (length palette <= 5)%nat ->
  palette !! 0%nat = Some first -> hsl first = Some firstHsl ->
  exists lum result,
    getLuminance backgroundColor = Normal lum
    /\ enhanceMonochromaticDifferentiation this palette backgroundColor
         minContrastRatio = Normal result
    /\ length result = length palette
    /\ Forall well_formed result
    /\ forall i x, palette !! i = Some x ->
         exists o lightness y k,
           hsl x = Some o
           /\ monochromatic_ladder (length palette) !! i = Some lightness
           /\ result !! i = Some y
           /\ let c := monochromatic_slot (HSL.h firstHsl)
                         (bool_decide (lum > 0.5)) i lightness (HSL.s o) in
              getContrastRatio c backgroundColor = Normal k
              /\ ((~ k < minContrastRatio /\ y = c)
                  \/ (k < minContrastRatio
                      /\ findOptimalColor this c backgroundColor
                           minContrastRatio (minContrastRatio * 1.5) i
                           (length palette) = Normal y)).
Proof.
  intros Hwf Hbg Hlen Hfirst HfirstHsl.
  unfold enhanceMonochromaticDifferentiation.
  destruct (getLuminance_total backgroundColor Hbg) as [lum Hlum].
  exists lum. rewrite Hlum, bind_Normal, Hfirst. cbn [deref].
  rewrite bind_Normal, HfirstHsl. cbn [deref]. rewrite bind_Normal.
  fold (monochromatic_ladder (length palette)).
  set (f := fun (x : ColorUtil) (i : nat) =>
              number_at (monochromatic_ladder (length palette)) i
              ≫= fun lightness =>
              deref (hsl x) ≫= fun colorHsl =>
              Normal (monochromatic_slot (HSL.h firstHsl)
                        (bool_decide (lum > 0.5)) i lightness (HSL.s colorHsl))).
  rewrite (for_range_slotwise_0 f).
  2:{ intros i l x _ Hx. rewrite Hx. cbn [deref]. rewrite bind_Normal.
      unfold f. rewrite bind_assoc.
      destruct (number_at (monochromatic_ladder (length palette)) i)
        as [lightness | e]; [| reflexivity].
      rewrite !bind_Normal, bind_assoc. reflexivity. }
  destruct (map_indexed_total f
    (fun i x y => exists o lightness,
       hsl x = Some o
       /\ monochromatic_ladder (length palette) !! i = Some lightness
       /\ y = monochromatic_slot (HSL.h firstHsl) (bool_decide (lum > 0.5)) i
                lightness (HSL.s o))
    palette 0) as [enhanced [Henh [Hlen1 Hlook1]]].
  { intros i x Hx. cbn [Nat.add].
    destruct (Forall_lookup_1 _ _ _ _ Hwf Hx) as [_ [o Ho]].
    destruct (monochromatic_ladder_lookup (length palette) i) as [t Ht].
    { split; [eapply lookup_lt_Some; eassumption | assumption]. }
    unfold f, number_at. rewrite Ht, bind_Normal, Ho. cbn [deref].
    rewrite bind_Normal. eexists. split; [reflexivity |]. eauto. }
  cbn [Nat.add] in Hlook1. rewrite Henh, bind_Normal.
  assert (Forall well_formed enhanced) as Hwf1.
  { apply (Forall_well_formed_lookup palette); [assumption .. |].
    intros i x Hx.
    destruct (Hlook1 i x Hx) as (y & Hy & _ & o & t & _ & _ & ->).
    eexists. split; [eassumption | apply fromHsl_well_formed]. }
  destruct (ensureMinimumContrast_spec this enhanced backgroundColor
              minContrastRatio Hwf1 Hbg) as [result [Hres [Hlen2 [Hwf2 Hlook2]]]].
  exists result. split; [reflexivity |]. split; [assumption |].
  split; [congruence |]. split; [assumption |].
  intros i x Hx.
  destruct (Hlook1 i x Hx) as (c & Hc & _ & o & t & Ho & Ht & ->).
  destruct (Hlook2 i _ Hc) as (y & k & Hy & Hk & Hcases).
  exists o, t, y, k. rewrite Hlen1 in Hcases.
  split; [assumption |]. split; [assumption |]. split; [assumption |].
  cbv zeta. split; assumption.
Qed.

(** ** Differentiation as a whole *)

Lemma applySimpleDifferentiation_general (this : PaletteGenerator)
    (palette : list ColorUtil) (backgroundColor : ColorUtil)
    (minContrastRatio : R) (settings : DifferentiationSettings)
    (first : ColorUtil) :
  Forall well_formed palette -> well_formed backgroundColor ->
  (length palette <= 5)%nat -> palette !! 0%nat = Some first ->
  every_near_first (Some first) palette = Normal false ->
  exists lum result y t,
    getLuminance backgroundColor = Normal lum
    /\ applySimpleDifferentiation this palette backgroundColor
         minContrastRatio settings = Normal result
    /\ length result = length palette
    /\ Forall well_formed result
    /\ result !! 0%nat = Some y
    /\ getOptimalLightnessDistribution (length palette)
         (bool_decide (lum > 0.5)) !! 0%nat = Some t
    /\ adjustColorToTargetLightness first backgroundColor minContrastRatio t
       = Normal y.
Proof.
  intros Hwf Hbg Hlen Hfirst Hnear. unfold applySimpleDifferentiation.
  cbv zeta.
  destruct (distributeColorsOptimally_spec palette backgroundColor
              minContrastRatio
              (if decide (minLuminanceDifference settings = 0) then 10
               else minLuminanceDifference settings) Hwf Hbg Hlen)
    as (lum & stage1 & Hlum & Hstage1 & Hlen1 & Hwf1 & Hlook1).
  exists lum. rewrite Hlum, bind_Normal, Hfirst, Hnear, bind_Normal.
  rewrite Hstage1, bind_Normal.
  destruct (adjustSaturationForDifferentiation_frame stage1 20 Hwf1)
    as (stage2 & Hstage2 & Hlen2 & Hwf2 & Hzero2).
  rewrite Hstage2, bind_Normal.
  destruct (applyMinimalHueAdjustments_frame stage2 backgroundColor
              minContrastRatio 10 Hwf2 Hbg)
    as (stage3 & Hstage3 & Hlen3 & Hwf3 & Hzero3).
  destruct (Hlook1 0%nat first Hfirst) as (y & t & Hy & Ht & Hadj & _).
  exists stage3, y, t.
  split; [reflexivity |]. split; [assumption |]. split; [congruence |].
  split; [assumption |]. split; [congruence |]. auto.
Qed.

Lemma applySimpleDifferentiation_total (this : PaletteGenerator)
    (palette : list ColorUtil) (backgroundColor : ColorUtil)
    (minContrastRatio : R) (settings : DifferentiationSettings) :
  Forall well_formed palette -> well_formed backgroundColor ->
  (0 < length palette <= 5)%nat ->
  exists result,
    applySimpleDifferentiation this palette backgroundColor minContrastRatio
      settings = Normal result
    /\ length result = length palette
    /\ Forall well_formed result.
Proof.
  intros Hwf Hbg [Hpos Hlen].
  destruct (lookup_lt_is_Some_2 palette 0 Hpos) as [first Hfirst].
  destruct (Forall_lookup_1 _ _ _ _ Hwf Hfirst) as [_ [firstHsl HfirstHsl]].
  destruct (every_near_first_spec first firstHsl palette HfirstHsl Hwf)
    as [near [Hnear _]].
  destruct near.
  - destruct (enhanceMonochromaticDifferentiation_spec this palette
                backgroundColor minContrastRatio first firstHsl Hwf Hbg Hlen
                Hfirst HfirstHsl)
      as (lum & result & Hlum & Hres & Hlen' & Hwf' & _).
    exists result. unfold applySimpleDifferentiation. cbv zeta.
    rewrite Hlum, bind_Normal, Hfirst, Hnear, bind_Normal. auto.
  - destruct (applySimpleDifferentiation_general this palette backgroundColor
                minContrastRatio settings first Hwf Hbg Hlen Hfirst Hnear)
      as (lum & result & y & t & _ & Hres & Hlen' & Hwf' & _).
    exists result. auto.
Qed.

(** ** The base palette *)

Lemma colorHarmonies_nonempty (harmony : string) (hues : R -> list R) (hue : R) :
  colorHarmonies harmony = Some hues -> (0 < length (hues hue))%nat.
Proof.
  unfold colorHarmonies. repeat case_decide; intros [= <-]; cbn; lia.
Qed.

Lemma generateColorFromHarmony_total (baseColor : ColorUtil)
    (harmonyHues : list R) (harmony : string) (index totalSize : nat) :
  well_formed baseColor -> (0 < length harmonyHues)%nat ->
  exists c,
    generateColorFromHarmony baseColor harmonyHues harmony index totalSize
    = Normal c
    /\ well_formed c.
Proof.
  intros [_ [o Ho]] Hhues. unfold generateColorFromHarmony.
  destruct (lookup_lt_is_Some_2 harmonyHues (index mod length harmonyHues))
    as [hue Hhue]; [apply Nat.mod_upper_bound; lia |].
  rewrite Hhue, Ho. cbv zeta. cbn [deref].
  repeat case_decide; rewrite ?bind_Normal;
    (eexists; split; [reflexivity | apply fromHsl_well_formed]).
Qed.

Lemma generateBaseColors_spec (baseColor harmony : string) (size : nat)
    (channels : RGB.t) (hues : R -> list R) :
  String.prefix "#" baseColor = true -> hexToRgb baseColor = Some channels ->
  colorHarmonies harmony = Some hues ->
  let color :=
    mkColorUtil (Some baseColor) (Some channels)
      (Some (rgbToHsl (RGB.r channels) (RGB.g channels) (RGB.b channels))) in
  exists colors,
    generateBaseColors baseColor harmony size = Normal colors
    /\ length colors = size
    /\ Forall well_formed colors
    /\ ((0 < size)%nat -> colors !! 0%nat = Some color)
    /\ forall i, (0 < i < size)%nat ->
         exists c, colors !! i = Some c
           /\ generateColorFromHarmony color
                (hues (HSL.h (rgbToHsl (RGB.r channels) (RGB.g channels)
                                (RGB.b channels))))
                harmony i size = Normal c.
Proof.
  intros Hp Hx Hh color. unfold generateBaseColors.
  rewrite (new_ColorUtil_well_formed baseColor channels Hp Hx).
  fold color. cbn [try_catch]. rewrite bind_Normal.
  cbn [hsl color deref]. rewrite bind_Normal, Hh. cbn [deref].
  rewrite bind_Normal.
  set (hsl0 := rgbToHsl _ _ _). fold hsl0 in color.
  match goal with
  | |- context [for_range 0 size ?body []] =>
      destruct (for_range_invariant
        (fun i colors =>
           length colors = i /\ Forall well_formed colors
           /\ ((0 < i)%nat -> colors !! 0%nat = Some color)
           /\ forall j, (0 < j < i)%nat ->
                exists c, colors !! j = Some c
                  /\ generateColorFromHarmony color (hues (HSL.h hsl0))
                       harmony j size = Normal c)
        size 0 body []) as [colors [Hcolors Hinv]]
  end.
  - split; [reflexivity |]. split; [constructor |].
    split; [lia |]. intros j Hj. lia.
  - intros i colors Hi (Hlen & Hwf & Hzero & Hrest).
    assert (well_formed color) as Hwfc by (split; cbn; eauto).
    assert (exists c,
              (if decide (i = 0%nat)
               then Normal color
               else generateColorFromHarmony color (hues (HSL.h hsl0))
                      harmony i size) = Normal c
              /\ well_formed c) as [c [Hc Hwfc']].
    { case_decide; [eauto |].
      apply generateColorFromHarmony_total; [assumption |].
      eapply colorHarmonies_nonempty; eassumption. }
    rewrite Hc, bind_Normal. eexists. split; [reflexivity |].
    split; [rewrite length_app; cbn; lia |].
    split; [apply Forall_app; split; [assumption | apply Forall_singleton; assumption] |].
    split.
    + intros _. destruct (decide (i = 0%nat)) as [-> | Hne].
      * destruct colors; [| discriminate]. cbn. congruence.
      * rewrite lookup_app_l by lia. apply Hzero. lia.
    + intros j Hj. destruct (decide (j = i)) as [-> | Hne].
      * exists c. rewrite decide_False in Hc by lia.
        split; [| assumption].
        rewrite lookup_app_r by lia. rewrite Hlen, Nat.sub_diag. reflexivity.
      * destruct (Hrest j) as [c' Hc'']; [lia |].
        exists c'. rewrite lookup_app_l by lia. assumption.
  - exists colors. cbn [Nat.add] in Hinv. tauto.
Qed.

(** ** [generatePalette] on a well-formed base colour *)

(** The stages of a call, each with its outcome. *)
Lemma generatePalette_stages (this : PaletteGenerator) (options : Options)
    (channels : RGB.t) (hues : R -> list R) :
  well_formed (whiteColor this) -> well_formed (darkBgColor this) ->
  let color := default "#5500AA"%string (opt_baseColor options) in
  let size := validateSize (default (SizeNumber 5) (opt_paletteSize options)) in
  let harmony := default "triadic"%string (opt_harmonyType options) in
  let settings :=
    default (mkDifferentiationSettings true 15 10)
      (opt_differentiationSettings options) in
  let minContrastRatio :=
    if decide (default "AA"%string (opt_wcagLevel options) = "AAA"%string)
    then 7 else 4.5 in
  let this' := (generatePalette this options).2 in
  String.prefix "#" color = true -> hexToRgb color = Some channels ->
  colorHarmonies harmony = Some hues ->
  exists colors light dark light' dark',
    generateBaseColors color harmony size = Normal colors
    /\ generateOptimizedPalette this' colors (whiteColor this) minContrastRatio
       = Normal light
    /\ generateOptimizedPalette this' colors (darkBgColor this) minContrastRatio
       = Normal dark
    /\ (if enabled settings
        then applySimpleDifferentiation this' light (whiteColor this)
               minContrastRatio settings = Normal light'
             /\ applySimpleDifferentiation this' dark (darkBgColor this)
                  minContrastRatio settings = Normal dark'
        else light' = light /\ dark' = dark)
    /\ (generatePalette this options).1
       = Normal (mkGeneratedPalettes colors light' dark')
    /\ length colors = size /\ (0 < size <= 5)%nat
    /\ length light = size /\ length dark = size
    /\ length light' = size /\ length dark' = size
    /\ Forall well_formed colors /\ Forall well_formed light.
Proof.
  intros Hwhite Hdark color size harmony settings minContrastRatio this'
    Hp Hx Hh.
  assert (0 < size <= 5)%nat as Hsize
    by (unfold size;
        destruct (validateSize_cases
                    (default (SizeNumber 5) (opt_paletteSize options)))
          as [-> | ->]; lia).
  destruct (generateBaseColors_spec color harmony size channels hues Hp Hx Hh)
    as (colors & Hcolors & Hlen & Hwf & _).
  destruct (generateOptimizedPalette_total this' colors (whiteColor this)
              minContrastRatio Hwf Hwhite)
    as (light & Hlight & Hlenl & Hwfl & _).
  destruct (generateOptimizedPalette_total this' colors (darkBgColor this)
              minContrastRatio Hwf Hdark)
    as (dark & Hdk & Hlend & Hwfd & _).
  exists colors, light, dark.
  unfold generatePalette. cbn [fst].
  fold color size harmony settings minContrastRatio.
  change (mkPaletteGenerator (whiteColor this) (darkBgColor this) _)
    with this'.
  change (whiteColor this') with (whiteColor this).
  change (darkBgColor this') with (darkBgColor this).
  rewrite Hcolors, bind_Normal, Hlight, bind_Normal, Hdk, bind_Normal.
  destruct (enabled settings).
  - destruct (applySimpleDifferentiation_total this' light (whiteColor this)
                minContrastRatio settings Hwfl Hwhite)
      as (light' & Hlight' & Hlenl' & _); [lia |].
    destruct (applySimpleDifferentiation_total this' dark (darkBgColor this)
                minContrastRatio settings Hwfd Hdark)
      as (dark' & Hdark' & Hlend' & _); [lia |].
    exists light', dark'.
    rewrite Hlight', bind_Normal, Hdark', !bind_Normal.
    repeat split; first [reflexivity | assumption | congruence | lia].
  - exists light, dark. rewrite !bind_Normal.
    repeat split; first [reflexivity | assumption | congruence | lia].
Qed.

Lemma generatePalette_total (this : PaletteGenerator) (options : Options)
    (channels : RGB.t) (hues : R -> list R) :
  well_formed (whiteColor this) -> well_formed (darkBgColor this) ->
  let color := default "#5500AA"%string (opt_baseColor options) in
  String.prefix "#" color = true -> hexToRgb color = Some channels ->
  colorHarmonies (default "triadic"%string (opt_harmonyType options))
  = Some hues ->
  exists palettes,
    (generatePalette this options).1 = Normal palettes
    /\ base palettes !! 0%nat
       = Some (mkColorUtil (Some color) (Some channels)
                 (Some (rgbToHsl (RGB.r channels) (RGB.g channels)
                          (RGB.b channels))))
    /\ length (base palettes)
       = validateSize (default (SizeNumber 5) (opt_paletteSize options))
    /\ length (lightOptimized palettes) = length (base palettes)
    /\ length (darkOptimized palettes) = length (base palettes).
Proof.
  intros Hwhite Hdark color Hp Hx Hh.
  destruct (generatePalette_stages this options channels hues Hwhite Hdark
              Hp Hx Hh)
    as (colors & light & dark & light' & dark' & Hcolors & _ & _ & _ & Hgen
        & Hlen & Hsize & _ & _ & Hlenl & Hlend & _).
  destruct (generateBaseColors_spec color _
              (validateSize (default (SizeNumber 5) (opt_paletteSize options)))
              channels hues Hp Hx Hh)
    as (colors0 & Hcolors0 & _ & _ & Hzero & _).
  fold color in Hcolors. rewrite Hcolors in Hcolors0.
  injection Hcolors0 as <-.
  eexists. split; [exact Hgen |]. cbn [base lightOptimized darkOptimized].
  split; [apply Hzero; lia |]. split; [assumption |]. split; congruence.
Qed.

(** X22: for a base colour made of [#] and six hex digits, and a harmony
    type of the table, [generatePalette] returns palettes whose base slot 0
    is the colour the constructor parses from that string, for every size:
    its hex field is the given string, its channels the decoded bytes, its
    hue, saturation and lightness those of [rgbToHsl] on these channels,
    with no table entry and no clamp applied. *)
Theorem base_slot_0_is_the_parsed_base_color (this : PaletteGenerator)
    (options : Options) (color : string) (channels : RGB.t)
    (hues : R -> list R) :
  well_formed (whiteColor this) -> well_formed (darkBgColor this) ->
  opt_baseColor options = Some color ->
  String.prefix "#" color = true -> hexToRgb color = Some channels ->
  colorHarmonies (default "triadic"%string (opt_harmonyType options))
  = Some hues ->
  exists palettes first,
    (generatePalette this options).1 = Normal palettes
    /\ base palettes !! 0%nat = Some first
    /\ new_ColorUtil color = Normal first
    /\ hex first = Some color
    /\ rgb first = Some channels
    /\ hsl first
       = Some (rgbToHsl (RGB.r channels) (RGB.g channels) (RGB.b channels)).
Proof.
  intros Hwhite Hdark Hcolor Hp Hx Hh.
  destruct (generatePalette_total this options channels hues Hwhite Hdark)
    as (palettes & Hgen & Hzero & _);
    try (rewrite Hcolor; cbn [default]; assumption); [assumption |].
  rewrite Hcolor in Hzero. cbn [default] in Hzero.
  exists palettes. eexists. split; [exact Hgen |]. split; [exact Hzero |].
  split; [apply new_ColorUtil_well_formed; assumption |].
  split; [reflexivity |]. split; reflexivity.
Qed.

Lemma base_slot_0_is_the_parsed_base_color_witness :
  String.prefix "#" "#5500AA" = true
  /\ hexToRgb "#5500AA" = Some (RGB.mk 85 0 170)
  /\ exists palettes first,
       (generatePalette fresh_generator
          (mkOptions (Some (SizeNumber 5)) (Some "AA"%string)
             (Some "triadic"%string) (Some "#5500AA"%string)
             (Some (mkDifferentiationSettings true 15 10)))).1
       = Normal palettes
       /\ base palettes !! 0%nat = Some first
       /\ new_ColorUtil "#5500AA" = Normal first
       /\ hex first = Some "#5500AA"%string
       /\ rgb first = Some (RGB.mk 85 0 170)
       /\ hsl first = Some (rgbToHsl 85 0 170).
Proof.
  split; [reflexivity |]. split; [reflexivity |].
  exact (base_slot_0_is_the_parsed_base_color fresh_generator
           (mkOptions (Some (SizeNumber 5)) (Some "AA"%string)
              (Some "triadic"%string) (Some "#5500AA"%string)
              (Some (mkDifferentiationSettings true 15 10)))
           "#5500AA" (RGB.mk 85 0 170)
           (fun hue => [hue; js_rem (hue + 120) 360; js_rem (hue + 240) 360])
           (hex_color_well_formed _ _ _ _) (hex_color_well_formed _ _ _ _)
           eq_refl eq_refl eq_refl eq_refl).
Defined.

(** C8, evaluated on the code: a base colour of six hexadecimal digits
    written without [#] is a well-formed hex colour, and the pattern of
    [hexToRgb] decodes it, but [generatePalette] does not return palettes
    with that colour in slot 0: it throws a TypeError to its caller, for
    every generator and every other setting.  The constructor parses only
    strings that start with [#] and leaves any other string without
    fields, and [generateBaseColors] reads [color.hsl.h] outside its
    [try]. *)
Theorem hex_base_color_without_hash_throws (this : PaletteGenerator)
    (options : Options) (color : string) (channels : RGB.t) :
  opt_baseColor options = Some color ->
  hexToRgb color = Some channels -> String.prefix "#" color = false ->
  new_ColorUtil color = Normal (mkColorUtil None None None)
  /\ (generatePalette this options).1 = Throw TypeError.
Proof.
  intros Hcolor Hx Hp. split.
  - unfold new_ColorUtil. rewrite Hp. reflexivity.
  - unfold generatePalette. cbn [fst]. rewrite Hcolor. cbn [default].
    rewrite generateBaseColors_without_hash by assumption. reflexivity.
Qed.

Lemma hex_base_color_without_hash_throws_witness :
  hexToRgb "5500AA" = Some (RGB.mk 85 0 170)
  /\ String.prefix "#" "5500AA" = false
  /\ new_ColorUtil "5500AA" = Normal (mkColorUtil None None None)
  /\ (generatePalette fresh_generator
        (mkOptions (Some (SizeNumber 5)) (Some "AA"%string)
           (Some "triadic"%string) (Some "5500AA"%string)
           (Some (mkDifferentiationSettings true 15 10)))).1
     = Throw TypeError.
Proof.
  split; [reflexivity |]. split; [reflexivity |].
  exact (hex_base_color_without_hash_throws fresh_generator
           (mkOptions (Some (SizeNumber 5)) (Some "AA"%string)
              (Some "triadic"%string) (Some "5500AA"%string)
              (Some (mkDifferentiationSettings true 15 10)))
           "5500AA" (RGB.mk 85 0 170) eq_refl eq_refl eq_refl).
Defined.

(** ** Hue distances *)

Lemma js_rem_360_normalize (x : R) :
  0 <= x < 360 -> js_rem (js_rem x 360 + 360) 360 = x.
Proof.
  intros Hx. rewrite (js_rem_360_small x Hx).
  rewrite js_rem_360_wrap by lra. lra.
Qed.

Lemma getCircularHueDistance_in_range (hue1 hue2 : R) :
  0 <= hue1 < 360 -> 0 <= hue2 < 360 ->
  getCircularHueDistance hue1 hue2
  = Rmin (Rabs (hue1 - hue2)) (360 - Rabs (hue1 - hue2)).
Proof.
  intros H1 H2. unfold getCircularHueDistance.
  rewrite !js_rem_360_normalize by assumption. reflexivity.
Qed.

Lemma getCircularHueDistance_same (hue : R) : getCircularHueDistance hue hue = 0.
Proof.
  unfold getCircularHueDistance.
  rewrite Rminus_diag, Rabs_R0, Rmin_left; lra.
Qed.

(** ** Claim on the monochromatic path *)

(** C6 as the code has it: when every colour's hue is less than 5 degrees
    (circular distance) from the first colour's hue, differentiation is the
    monochromatic routine.  On a palette of 3 or 5 constructed colours slot
    [i] first becomes the colour with hue [firstHue + 5 * i] under [% 360],
    saturation [max 40] of the slot's prior saturation and lightness from
    the ladder [15, 50, 85] or [10, 30, 50, 70, 90], taken as [100 - l] when
    the background is not light; that colour stays when its contrast reaches
    [minContrastRatio], and is otherwise replaced by the result of
    [findOptimalColor] on it with upper bound [minContrastRatio * 1.5]. *)
Theorem monochromatic_palette_takes_ladder_path (this : PaletteGenerator)
    (palette : list ColorUtil) (backgroundColor : ColorUtil)
    (minContrastRatio : R) (settings : DifferentiationSettings)
    (first : ColorUtil) (firstHsl : HSL.t) (lum : R) :
  Forall well_formed palette -> well_formed backgroundColor ->
  length palette = 3%nat \/ length palette = 5%nat ->
  palette !! 0%nat = Some first -> hsl first = Some firstHsl ->
  getLuminance backgroundColor = Normal lum ->
  (forall c o, c ∈ palette -> hsl c = Some o ->
     getCircularHueDistance (HSL.h o) (HSL.h firstHsl) < 5) ->
  exists result,
    applySimpleDifferentiation this palette backgroundColor minContrastRatio
      settings = Normal result
    /\ enhanceMonochromaticDifferentiation this palette backgroundColor
         minContrastRatio = Normal result
    /\ length result = length palette
    /\ forall i x, palette !! i = Some x ->
         exists o lightness y k,
           hsl x = Some o
           /\ monochromatic_ladder (length palette) !! i = Some lightness
           /\ result !! i = Some y
           /\ let c := monochromatic_slot (HSL.h firstHsl)
                         (bool_decide (lum > 0.5)) i lightness (HSL.s o) in
              getContrastRatio c backgroundColor = Normal k
              /\ ((~ k < minContrastRatio /\ y = c)
                  \/ (k < minContrastRatio
                      /\ findOptimalColor this c backgroundColor
                           minContrastRatio (minContrastRatio * 1.5) i
                           (length palette) = Normal y)).
Proof.
  intros Hwf Hbg Hlen Hfirst HfirstHsl Hlum Hnear.
  destruct (every_near_first_spec first firstHsl palette HfirstHsl Hwf)
    as [near [Hevery Hiff]].
  assert (near = true) as -> by (apply Hiff; assumption).
  destruct (enhanceMonochromaticDifferentiation_spec this palette
              backgroundColor minContrastRatio first firstHsl Hwf Hbg)
    as (lum' & result & Hlum' & Hres & Hlen' & _ & Hslots);
    [lia | assumption | assumption |].
  rewrite Hlum in Hlum'. injection Hlum' as <-.
  exists result. split; [| auto].
  unfold applySimpleDifferentiation. cbv zeta.
  rewrite Hlum, bind_Normal, Hfirst, Hevery, bind_Normal. assumption.
Qed.

Lemma monochromatic_palette_takes_ladder_path_witness :
  let palette := [fromHsl 200 50 40; fromHsl 202 60 40; fromHsl 198 30 40] in
  (forall c o, c ∈ palette -> hsl c = Some o ->
     getCircularHueDistance (HSL.h o) 200 < 5)
  /\ exists result,
       applySimpleDifferentiation fresh_generator palette white 4.5
         (mkDifferentiationSettings true 15 10) = Normal result
       /\ enhanceMonochromaticDifferentiation fresh_generator palette white
            4.5 = Normal result
       /\ length result = 3%nat
       /\ forall i x, palette !! i = Some x ->
            exists o lightness y k,
              hsl x = Some o
              /\ monochromatic_ladder 3 !! i = Some lightness
              /\ result !! i = Some y
              /\ let c := monochromatic_slot 200 (bool_decide (1 > 0.5)) i
                            lightness (HSL.s o) in
                 getContrastRatio c white = Normal k
                 /\ ((~ k < 4.5 /\ y = c)
                     \/ (k < 4.5
                         /\ findOptimalColor fresh_generator c white 4.5
                              (4.5 * 1.5) i 3 = Normal y)).
Proof.
  intros palette.
  assert (forall c o, c ∈ palette -> hsl c = Some o ->
            getCircularHueDistance (HSL.h o) 200 < 5) as Hnear.
  { intros c o Hc Ho. unfold palette in Hc.
    repeat (apply elem_of_cons in Hc as [-> | Hc]);
      [| | | inversion Hc];
      injection Ho as <-; cbn [HSL.h];
      rewrite getCircularHueDistance_in_range by lra;
      unfold Rmin, Rabs;
      repeat (destruct (Rle_dec _ _) || destruct (Rcase_abs _)); lra. }
  split; [exact Hnear |].
  apply (monochromatic_palette_takes_ladder_path fresh_generator palette white
           4.5 (mkDifferentiationSettings true 15 10) (fromHsl 200 50 40)
           (HSL.mk 200 50 40) 1).
  - repeat constructor; cbn; eauto.
  - apply hex_color_well_formed.
  - left. reflexivity.
  - reflexivity.
  - reflexivity.
  - exact getLuminance_white.
  - exact Hnear.
Defined.

(** Dark colours on the white background: the optimizer returns them as
    they are. *)
Lemma linearize_dark (c : R) : 0 <= c <= 100 -> 0 <= linearize c <= 0.18.
Proof.
  intros Hc. unfold linearize. cbv zeta.
  case_decide.
  - lra.
  - destruct (Math_pow_gamma_bounds ((c / 255 + 0.055) / 1.055)) as [Hpos Hle];
      [lra |].
    assert ((c / 255 + 0.055) / 1.055 <= 0.424) by lra.
    nra.
Qed.

Lemma getLuminance_dark (c : ColorUtil) (x : RGB.t) :
  rgb c = Some x ->
  0 <= RGB.r x <= 100 -> 0 <= RGB.g x <= 100 -> 0 <= RGB.b x <= 100 ->
  exists lum, getLuminance c = Normal lum /\ 0 <= lum <= 0.18.
Proof.
  intros Hx Hr Hg Hb. unfold getLuminance.
  rewrite Hx. cbn [deref]. rewrite bind_Normal.
  pose proof (linearize_dark _ Hr). pose proof (linearize_dark _ Hg).
  pose proof (linearize_dark _ Hb).
  eexists. split; [reflexivity | lra].
Qed.

Lemma getContrastRatio_dark_on_white (c : ColorUtil) (x : RGB.t) :
  rgb c = Some x ->
  0 <= RGB.r x <= 100 -> 0 <= RGB.g x <= 100 -> 0 <= RGB.b x <= 100 ->
  exists k, getContrastRatio c white = Normal k /\ k >= 4.5.
Proof.
  intros Hx Hr Hg Hb.
  destruct (getLuminance_dark c x Hx Hr Hg Hb) as (lum & Hlum & Hrange).
  unfold getContrastRatio.
  rewrite Hlum, bind_Normal, getLuminance_white, bind_Normal.
  rewrite Rmax_right, Rmin_left by lra.
  eexists. split; [reflexivity |].
  apply Rle_ge. apply (Rmult_le_reg_r (lum + 0.05)); [lra |].
  unfold Rdiv. rewrite Rmult_assoc, Rinv_l by lra. lra.
Qed.

Lemma fromHsl_dark (h s l : R) :
  0 <= h < 360 -> 0 <= s <= 50 -> 0 <= l <= 20 ->
  exists x, rgb (fromHsl h s l) = Some x
    /\ 0 <= RGB.r x <= 100 /\ 0 <= RGB.g x <= 100 /\ 0 <= RGB.b x <= 100.
Proof.
  intros Hh Hs Hl. eexists. split; [reflexivity |].
  unfold hslToRgb. cbv zeta.
  case_decide as Hzero; cbn [RGB.r RGB.g RGB.b]; [lra |].
  rewrite decide_True by lra.
  set (q := l / 100 * (1 + s / 100)).
  assert (0 <= 2 * (l / 100) - q /\ 2 * (l / 100) - q <= q /\ q <= 0.3)
    as (Hp0 & Hpq & Hq1) by (unfold q; nra).
  pose proof (hue2rgb_between (2 * (l / 100) - q) q (h / 360 + 1 / 3) Hpq).
  pose proof (hue2rgb_between (2 * (l / 100) - q) q (h / 360) Hpq).
  pose proof (hue2rgb_between (2 * (l / 100) - q) q (h / 360 - 1 / 3) Hpq).
  lra.
Qed.

Lemma optimize_dark_on_white (this : PaletteGenerator) (h s l : R) (i n : nat) :
  0 <= h < 360 -> 0 <= s <= 50 -> 0 <= l <= 20 ->
  optimizeColorForBackground this (fromHsl h s l) white 4.5 i n
  = Normal (fromHsl h s l).
Proof.
  intros Hh Hs Hl.
  destruct (fromHsl_dark h s l Hh Hs Hl) as (x & Hx & Hr & Hg & Hb).
  destruct (getContrastRatio_dark_on_white _ x Hx Hr Hg Hb) as (k & Hk & Hge).
  eapply optimizeColorForBackground_compliant; eassumption.
Qed.

(** Of the two reference backgrounds, white is light and [#2c3e50] is
    not. *)
Lemma reference_backgrounds :
  getLuminance white = Normal 1 /\ bool_decide (1 > 0.5) = true
  /\ exists lum, getLuminance darkBg = Normal lum
                 /\ bool_decide (lum > 0.5) = false.
Proof.
  split; [exact getLuminance_white |].
  split; [apply bool_decide_eq_true_2; lra |].
  destruct (getLuminance_dark darkBg (RGB.mk 44 62 80) eq_refl)
    as (lum & Hlum & Hrange); cbn [RGB.r RGB.g RGB.b]; try lra.
  exists lum. split; [assumption |].
  apply bool_decide_eq_false_2. lra.
Qed.

Lemma boundary_palette_well_formed : Forall well_formed boundary_palette.
Proof. repeat constructor; cbn; eauto. Qed.

Lemma getCircularHueDistance_5_0 : getCircularHueDistance 5 0 = 5.
Proof.
  rewrite getCircularHueDistance_in_range by lra.
  unfold Rmin, Rabs.
  repeat (destruct (Rle_dec _ _) || destruct (Rcase_abs _)); lra.
Qed.

Lemma boundary_palette_not_near :
  every_near_first (Some (fromHsl 0 0 20)) boundary_palette = Normal false.
Proof.
  destruct (every_near_first_spec (fromHsl 0 0 20) (HSL.mk 0 0 20)
              boundary_palette eq_refl boundary_palette_well_formed)
    as [near [Hnear Hiff]].
  destruct near; [| assumption].
  exfalso. destruct Hiff as [Hall _].
  specialize (Hall eq_refl (fromHsl 5 50 20) (HSL.mk 5 50 20)).
  cbn [HSL.h] in Hall. rewrite getCircularHueDistance_5_0 in Hall.
  assert (5 < 5) by (apply Hall; [| reflexivity];
                      unfold boundary_palette; apply elem_of_cons; right;
                      apply elem_of_cons; left; reflexivity).
  lra.
Qed.

(** C6 fails as stated at a distance of exactly 5 degrees: the palette
    [boundary_palette] is returned unchanged by the optimizer for the white
    background, its hues 0, 5, 0 are all within 5 degrees of the first, yet
    the code does not take the monochromatic path.  Slot 0 keeps its
    saturation 0, where the monochromatic path would have raised it to
    40. *)
Lemma hue_distance_5_is_not_monochromatic :
  generateOptimizedPalette fresh_generator boundary_palette white 4.5
  = Normal boundary_palette
  /\ (forall c o, c ∈ boundary_palette -> hsl c = Some o ->
        getCircularHueDistance (HSL.h o) 0 <= 5)
  /\ every_near_first (boundary_palette !! 0%nat) boundary_palette
     = Normal false
  /\ exists result y o,
       applySimpleDifferentiation fresh_generator boundary_palette white 4.5
         (mkDifferentiationSettings true 15 10) = Normal result
       /\ result !! 0%nat = Some y /\ hsl y = Some o
       /\ HSL.s o = 0 /\ HSL.s o <> Rmax 40 0.
Proof.
  split.
  { unfold generateOptimizedPalette, boundary_palette.
    cbn [map_indexed length].
    rewrite !optimize_dark_on_white by lra. reflexivity. }
  split; [| split; [exact boundary_palette_not_near |]].
  - intros c o Hc Ho. unfold boundary_palette in Hc.
    repeat (apply elem_of_cons in Hc as [-> | Hc]);
      [| | | inversion Hc]; injection Ho as <-; cbn [HSL.h].
    + rewrite getCircularHueDistance_same. lra.
    + rewrite getCircularHueDistance_5_0. lra.
    + rewrite getCircularHueDistance_same. lra.
  - destruct (applySimpleDifferentiation_general fresh_generator
                boundary_palette white 4.5
                (mkDifferentiationSettings true 15 10) (fromHsl 0 0 20)
                boundary_palette_well_formed (hex_color_well_formed _ _ _ _))
      as (lum & result & y & t & _ & Hres & _ & _ & Hy & _ & Hadj);
      [cbn; lia | reflexivity | exact boundary_palette_not_near |].
    destruct (adjustColorToTargetLightness_spec (fromHsl 0 0 20) white 4.5 t
                (fromHsl_well_formed _ _ _) (hex_color_well_formed _ _ _ _))
      as (y' & Hadj' & Hvar & _).
    rewrite Hadj in Hadj'. injection Hadj' as <-.
    destruct (lightness_variant_hsl (fromHsl 0 0 20) y (HSL.mk 0 0 20)
                eq_refl Hvar) as (o & Ho & _ & Hs).
    exists result, y, o. cbn [HSL.s] in Hs.
    split; [assumption |]. split; [assumption |]. split; [assumption |].
    split; [assumption |].
    rewrite Hs. unfold Rmax. destruct (Rle_dec 40 0); lra.
Qed.

(** ** Claim on the three-stage pass *)

(** C1 as the code has it: on a palette of constructed colours that is not
    monochromatic, stage 1 (lightness redistribution) and stage 3 (bounded
    hue adjustment) each leave a slot as it was or replace it by a colour
    whose contrast against the background is at least [minContrastRatio];
    that contrast may be lower than the one the slot had.  Slot 0, which
    stages 2 and 3 never write, ends the whole pass as it was or with a
    contrast of at least [minContrastRatio].  Nothing is stated of stage 2,
    which tests no contrast. *)
Theorem differentiation_stages_keep_or_reach_minimum (this : PaletteGenerator)
    (palette : list ColorUtil) (backgroundColor : ColorUtil)
    (minContrastRatio : R) (settings : DifferentiationSettings)
    (first : ColorUtil) :
  Forall well_formed palette -> well_formed backgroundColor ->
  (length palette <= 5)%nat -> palette !! 0%nat = Some first ->
  every_near_first (Some first) palette = Normal false ->
  (forall minLightnessDiff, exists stage1,
     distributeColorsOptimally palette backgroundColor minContrastRatio
       minLightnessDiff = Normal stage1
     /\ kept_or_compliant backgroundColor minContrastRatio palette stage1)
  /\ (forall maxHueAdjustment, exists stage3,
        applyMinimalHueAdjustments palette backgroundColor minContrastRatio
          maxHueAdjustment = Normal stage3
        /\ kept_or_compliant backgroundColor minContrastRatio palette stage3)
  /\ exists result y,
       applySimpleDifferentiation this palette backgroundColor
         minContrastRatio settings = Normal result
       /\ result !! 0%nat = Some y
       /\ (y = first
           \/ exists k, getContrastRatio y backgroundColor = Normal k
                        /\ k >= minContrastRatio).
Proof.
  intros Hwf Hbg Hlen Hfirst Hnear. split; [| split].
  - intros minLightnessDiff.
    destruct (distributeColorsOptimally_spec palette backgroundColor
                minContrastRatio minLightnessDiff Hwf Hbg Hlen)
      as (lum & stage1 & _ & Hstage1 & _ & _ & Hlook).
    exists stage1. split; [assumption |].
    intros i x Hx. destruct (Hlook i x Hx) as (y & t & Hy & _ & _ & Hk).
    exists y. auto.
  - intros maxHueAdjustment.
    apply applyMinimalHueAdjustments_compliant; assumption.
  - destruct (applySimpleDifferentiation_general this palette backgroundColor
                minContrastRatio settings first Hwf Hbg Hlen Hfirst Hnear)
      as (lum & result & y & t & _ & Hres & _ & _ & Hy & _ & Hadj).
    destruct (adjustColorToTargetLightness_spec first backgroundColor
                minContrastRatio t) as (y' & Hadj' & _ & Hk);
      [eapply Forall_lookup_1; eassumption | assumption |].
    rewrite Hadj in Hadj'. injection Hadj' as <-.
    exists result, y. auto.
Qed.

Lemma differentiation_stages_keep_or_reach_minimum_witness :
  Forall well_formed boundary_palette /\ well_formed white
  /\ every_near_first (Some (fromHsl 0 0 20)) boundary_palette = Normal false
  /\ (forall minLightnessDiff, exists stage1,
        distributeColorsOptimally boundary_palette white 4.5 minLightnessDiff
        = Normal stage1
        /\ kept_or_compliant white 4.5 boundary_palette stage1)
  /\ (forall maxHueAdjustment, exists stage3,
        applyMinimalHueAdjustments boundary_palette white 4.5 maxHueAdjustment
        = Normal stage3
        /\ kept_or_compliant white 4.5 boundary_palette stage3)
  /\ exists result y,
       applySimpleDifferentiation fresh_generator boundary_palette white 4.5
         (mkDifferentiationSettings true 15 10) = Normal result
       /\ result !! 0%nat = Some y
       /\ (y = fromHsl 0 0 20
           \/ exists k, getContrastRatio y white = Normal k /\ k >= 4.5).
Proof.
  split; [exact boundary_palette_well_formed |].
  split; [apply hex_color_well_formed |].
  split; [exact boundary_palette_not_near |].
  apply (differentiation_stages_keep_or_reach_minimum fresh_generator
           boundary_palette white 4.5 (mkDifferentiationSettings true 15 10)
           (fromHsl 0 0 20) boundary_palette_well_formed
           (hex_color_well_formed _ _ _ _)).
  - cbn. lia.
  - reflexivity.
  - exact boundary_palette_not_near.
Defined.

(** ** A black base colour through optimization and differentiation *)

Lemma rgbToHsl_black :
  HSL.h (rgbToHsl 0 0 0) = 0 /\ HSL.s (rgbToHsl 0 0 0) = 0.
Proof.
  unfold rgbToHsl. cbv zeta.
  rewrite decide_True.
  - cbn [HSL.h HSL.s]. lra.
  - unfold Rmax, Rmin. repeat destruct (Rle_dec _ _); lra.
Qed.

Lemma getLuminance_gray_10 :
  exists lum, getLuminance (fromHsl 0 0 10) = Normal lum /\ 0 < lum <= 0.03.
Proof.
  unfold getLuminance, fromHsl, hslToRgb. cbv zeta.
  rewrite decide_True by lra. cbn [rgb deref RGB.r RGB.g RGB.b].
  rewrite bind_Normal. cbn [RGB.r RGB.g RGB.b]. unfold linearize. cbv zeta.
  rewrite decide_False by lra.
  destruct (Math_pow_gamma_bounds ((10 / 100 * 255 / 255 + 0.055) / 1.055))
    as [Hpos Hle]; [lra |].
  eexists. split; [reflexivity |]. nra.
Qed.

Lemma getContrastRatio_gray_10_white :
  exists k, getContrastRatio (fromHsl 0 0 10) white = Normal k
            /\ 4.5 <= k < 21.
Proof.
  destruct getLuminance_gray_10 as (lum & Hlum & Hpos & Hle).
  unfold getContrastRatio.
  rewrite Hlum, bind_Normal, getLuminance_white, bind_Normal.
  rewrite Rmax_right, Rmin_left by lra.
  eexists. split; [reflexivity |]. split.
  - apply (Rmult_le_reg_r (lum + 0.05)); [lra |].
    unfold Rdiv. rewrite Rmult_assoc, Rinv_l by lra. lra.
  - apply (Rmult_lt_reg_r (lum + 0.05)); [lra |].
    unfold Rdiv. rewrite Rmult_assoc, Rinv_l by lra. lra.
Qed.

Lemma generateColorFromHarmony_hue (baseColor : ColorUtil)
    (harmonyHues : list R) (harmony : string) (index totalSize : nat)
    (hue : R) (c : ColorUtil) :
  harmony <> "monochromatic"%string ->
  harmonyHues !! (index mod length harmonyHues)%nat = Some hue ->
  generateColorFromHarmony baseColor harmonyHues harmony index totalSize
  = Normal c ->
  exists o, hsl c = Some o /\ HSL.h o = hue.
Proof.
  intros Hne Hhue. unfold generateColorFromHarmony.
  rewrite Hhue, decide_False by assumption. cbv zeta.
  rewrite bind_Normal.
  repeat case_decide; rewrite bind_Normal; intros [= <-];
    (eexists; split; [reflexivity | reflexivity]).
Qed.

Lemma adjust_black_to_10 :
  adjustColorToTargetLightness black white 4.5 10 = Normal (fromHsl 0 0 10).
Proof.
  unfold adjustColorToTargetLightness. cbn [hsl black hex_color deref].
  rewrite bind_Normal.
  destruct rgbToHsl_black as [-> ->].
  destruct getContrastRatio_gray_10_white as (k & Hk & Hge & _).
  rewrite Hk, bind_Normal.
  rewrite decide_True by lra. reflexivity.
Qed.

Lemma getCircularHueDistance_120 : getCircularHueDistance 120 0 = 120.
Proof.
  rewrite getCircularHueDistance_in_range by lra.
  unfold Rmin, Rabs.
  repeat (destruct (Rle_dec _ _) || destruct (Rcase_abs _)); lra.
Qed.

Lemma black_light_palette :
  exists colors light dark y1 o1,
    generateBaseColors "#000000" "triadic" 5 = Normal colors
    /\ generateOptimizedPalette fresh_generator colors white 4.5 = Normal light
    /\ generateOptimizedPalette fresh_generator colors darkBg 4.5 = Normal dark
    /\ Forall well_formed light /\ Forall well_formed dark
    /\ length light = 5%nat /\ length dark = 5%nat
    /\ light !! 0%nat = Some black
    /\ light !! 1%nat = Some y1 /\ hsl y1 = Some o1 /\ HSL.h o1 = 120.
Proof.
  destruct (generateBaseColors_spec "#000000" "triadic" 5 (RGB.mk 0 0 0)
              (fun hue => [hue; js_rem (hue + 120) 360; js_rem (hue + 240) 360])
              eq_refl eq_refl eq_refl)
    as (colors & Hcolors & Hlen & Hwf & Hzero & Hrest).
  destruct (generateOptimizedPalette_total fresh_generator colors white 4.5
              Hwf (hex_color_well_formed _ _ _ _))
    as (light & Hlight & Hlenl & Hwfl & Hlookl).
  destruct (generateOptimizedPalette_total fresh_generator colors darkBg 4.5
              Hwf (hex_color_well_formed _ _ _ _))
    as (dark & Hdark & Hlend & Hwfd & _).
  cbn [RGB.r RGB.g RGB.b] in Hzero, Hrest.
  change (mkColorUtil (Some "#000000"%string) (Some (RGB.mk 0 0 0))
            (Some (rgbToHsl 0 0 0))) with black in Hzero, Hrest.
  specialize (Hzero ltac:(lia)).
  destruct (Hrest 1%nat ltac:(lia)) as (c1 & Hc1 & Hgen).
  assert ("triadic"%string <> "monochromatic"%string) as Hne by discriminate.
  apply (generateColorFromHarmony_hue _ _ _ _ _
           (js_rem (HSL.h (rgbToHsl 0 0 0) + 120) 360) _ Hne) in Hgen;
    [| reflexivity].
  destruct Hgen as (o & Ho & Hh).
  destruct (Hlookl 0%nat _ Hzero) as (y0 & Hy0 & Hopt0 & _).
  rewrite (optimizeColorForBackground_compliant fresh_generator black white
             4.5 0 (length colors) 21 getContrastRatio_black_white)
    in Hopt0 by lra.
  injection Hopt0 as <-.
  destruct (Hlookl 1%nat c1 Hc1) as (y1 & Hy1 & _ & Hvar).
  destruct (lightness_variant_hsl c1 y1 o Ho Hvar) as (o1 & Ho1 & Hh1 & _).
  exists colors, light, dark, y1, o1.
  repeat split; try assumption; try congruence.
  rewrite Hh1, Hh. destruct rgbToHsl_black as [-> _].
  rewrite js_rem_360_small; lra.
Qed.

Lemma black_every_near_first (light : list ColorUtil) (y1 : ColorUtil) (o1 : HSL.t) :
  Forall well_formed light -> light !! 1%nat = Some y1 -> hsl y1 = Some o1 ->
  HSL.h o1 = 120 ->
  every_near_first (Some black) light = Normal false.
Proof.
  intros Hwf Hy1 Ho1 Hh.
  destruct (every_near_first_spec black (rgbToHsl 0 0 0) light eq_refl Hwf)
    as [near [Hnear Hiff]].
  destruct near; [| assumption].
  exfalso. destruct Hiff as [Hall _].
  specialize (Hall eq_refl y1 o1 (list_elem_of_lookup_2 _ _ _ Hy1) Ho1).
  rewrite Hh in Hall. destruct rgbToHsl_black as [Hzero _].
  rewrite Hzero, getCircularHueDistance_120 in Hall. lra.
Qed.

(** C1 fails as stated: for the base colour [#000000] with the default
    settings, slot 0 of the palette optimized for the white
    background is black itself, with contrast 21; after differentiation the
    slot holds the grey of lightness 10, whose contrast is at least 4.5 and
    strictly below 21.  Stage 1 accepts a candidate as soon as it reaches
    [minContrastRatio]; it does not compare with the contrast the slot
    had. *)
Theorem differentiation_lowers_contrast_of_black :
  exists optimized differentiated c0 c1 k0 k1,
    (generatePalette fresh_generator (black_options false)).1 = Normal optimized
    /\ (generatePalette fresh_generator (black_options true)).1
       = Normal differentiated
    /\ lightOptimized optimized !! 0%nat = Some c0
    /\ lightOptimized differentiated !! 0%nat = Some c1
    /\ getContrastRatio c0 white = Normal k0
    /\ getContrastRatio c1 white = Normal k1
    /\ k0 = 21 /\ 4.5 <= k1 < k0.
Proof.
  destruct black_light_palette
    as (colors & light & dark & y1 & o1 & Hcolors & Hlight & Hdark & Hwfl
        & Hwfd & Hlenl & Hlend & Hzero & Hy1 & Ho1 & Hh).
  pose proof (black_every_near_first light y1 o1 Hwfl Hy1 Ho1 Hh) as Hevery.
  destruct (applySimpleDifferentiation_general fresh_generator light white 4.5
              (mkDifferentiationSettings true 15 10) black Hwfl
              (hex_color_well_formed _ _ _ _))
    as (lum & light' & y & t & Hlum & Hlight' & _ & _ & Hy & Ht & Hadj);
    [lia | assumption | assumption |].
  rewrite getLuminance_white in Hlum. injection Hlum as <-.
  rewrite Hlenl, bool_decide_eq_true_2 in Ht by lra.
  injection Ht as <-. rewrite adjust_black_to_10 in Hadj.
  injection Hadj as <-.
  destruct (applySimpleDifferentiation_total fresh_generator dark darkBg 4.5
              (mkDifferentiationSettings true 15 10) Hwfd
              (hex_color_well_formed _ _ _ _))
    as (dark' & Hdark' & _); [lia |].
  destruct getContrastRatio_gray_10_white as (k1 & Hk1 & Hrange).
  exists (mkGeneratedPalettes colors light dark),
         (mkGeneratedPalettes colors light' dark'),
         black, (fromHsl 0 0 10), 21, k1.
  assert (forall enabled,
            (generatePalette fresh_generator (black_options enabled)).1
            = (generateBaseColors "#000000" "triadic" 5 ≫= fun baseColors =>
               generateOptimizedPalette fresh_generator baseColors white 4.5
               ≫= fun lightColors =>
               generateOptimizedPalette fresh_generator baseColors darkBg 4.5
               ≫= fun darkColors =>
               (if enabled
                then applySimpleDifferentiation fresh_generator lightColors
                       white 4.5 (mkDifferentiationSettings enabled 15 10)
                     ≫= fun lightColors =>
                     applySimpleDifferentiation fresh_generator darkColors
                       darkBg 4.5 (mkDifferentiationSettings enabled 15 10)
                     ≫= fun darkColors => Normal (lightColors, darkColors)
                else Normal (lightColors, darkColors))
               ≫= fun '(lightColors, darkColors) =>
               Normal (mkGeneratedPalettes baseColors lightColors darkColors)))
    as Hcall
    by (intros enabled; unfold generatePalette;
        cbv [black_options opt_paletteSize from_option Datatypes.id];
        rewrite validateSize_5; reflexivity).
  split.
  { rewrite Hcall, Hcolors, bind_Normal, Hlight, bind_Normal, Hdark.
    reflexivity. }
  split.
  { rewrite Hcall, Hcolors, bind_Normal, Hlight, bind_Normal, Hdark,
      bind_Normal, Hlight', bind_Normal, Hdark'. reflexivity. }
  split; [exact Hzero |]. split; [exact Hy |].
  split; [exact getContrastRatio_black_white |].
  split; [exact Hk1 |]. split; [reflexivity | lra].
Qed.

(** * Further properties of the code *)

(** ** Hexadecimal text and channels *)

Ltac N_lia := zify; Z.to_euclidean_division_equations; lia.

Lemma Math_round_range (x : R) (lo hi : Z) :
  IZR lo <= x <= IZR hi -> (lo <= Math_round x <= hi)%Z.
Proof.
  intros [Hlo Hhi]. unfold Math_round.
  destruct (base_Int_part (x + / 2)) as [Hle Hgt].
  split.
  - apply Z.lt_succ_r. apply lt_IZR. rewrite succ_IZR. lra.
  - apply Z.lt_succ_r. apply lt_IZR. rewrite succ_IZR. lra.
Qed.

Lemma hex_of_pos_zero (fuel : nat) (acc : string) : hex_of_pos fuel 0 acc = acc.
Proof. destruct fuel; reflexivity. Qed.

Lemma hex_of_pos_S (fuel : nat) (p : N) (acc : string) :
  p <> 0%N ->
  hex_of_pos (S fuel) p acc
  = hex_of_pos fuel (p / 16)%N (String (hex_digit (p mod 16)%N) acc).
Proof.
  intros Hp. cbn [hex_of_pos].
  rewrite (proj2 (N.eqb_neq _ _)) by assumption. reflexivity.
Qed.

Lemma hex_value_hex_digit (d : N) :
  (d < 16)%N -> hex_value (hex_digit d) = Some (Z.of_N d).
Proof.
  intros Hd. destruct d as [| p]; [reflexivity |].
  do 4 (destruct p as [p | p |]; try reflexivity; try lia).
Qed.

(** The text of a seven-digit hexadecimal number. *)
Lemma toString16_7_digits (z : Z) :
  (16 ^ 6 <= z < 16 ^ 7)%Z ->
  let n := Z.to_N z in
  toString16 z
  = String (hex_digit (n / 16 / 16 / 16 / 16 / 16 / 16 mod 16)%N)
     (String (hex_digit (n / 16 / 16 / 16 / 16 / 16 mod 16)%N)
       (String (hex_digit (n / 16 / 16 / 16 / 16 mod 16)%N)
         (String (hex_digit (n / 16 / 16 / 16 mod 16)%N)
           (String (hex_digit (n / 16 / 16 mod 16)%N)
             (String (hex_digit (n / 16 mod 16)%N)
               (String (hex_digit (n mod 16)%N) EmptyString)))))).
Proof.
  intros Hz n. destruct z as [| p | p]; try lia.
  unfold toString16. subst n. rewrite Z2N.inj_pos.
  assert (Hfuel : (7 <= Pos.size_nat p)%nat).
  { change 7%nat with (Pos.size_nat 64%positive).
    destruct (Pos.eq_dec 64%positive p) as [<- | Hne]; [reflexivity |].
    apply Pos.size_nat_monotone. lia. }
  destruct (Pos.size_nat p) as [| [| [| [| [| [| [| fuel]]]]]]]; try lia.
  set (n := N.pos p). assert (Hn : (16 ^ 6 <= n < 16 ^ 7)%N) by (subst n; lia).
  clearbody n.
  rewrite !hex_of_pos_S by N_lia.
  replace (n / 16 / 16 / 16 / 16 / 16 / 16 / 16)%N with 0%N by N_lia.
  apply hex_of_pos_zero.
Qed.

Lemma shl32_byte (a k : Z) :
  (0 <= a <= 255)%Z -> (0 <= k <= 16)%Z -> shl32 a k = (a * 2 ^ k)%Z.
Proof.
  intros Ha Hk. unfold shl32, ToInt32.
  assert (Hpow : (0 < 2 ^ k <= 2 ^ 16)%Z).
  { split; [apply Z.pow_pos_nonneg; lia |].
    apply Z.pow_le_mono_r; lia. }
  rewrite (Z.mod_small a) by lia.
  replace (a <? 2 ^ 31)%Z with true by (symmetry; apply Z.ltb_lt; lia).
  rewrite Z.shiftl_mul_pow2 by lia.
  change (2 ^ 16)%Z with 65536%Z in Hpow.
  rewrite Z.mod_small by nia.
  replace (a * 2 ^ k <? 2 ^ 31)%Z with true by (symmetry; apply Z.ltb_lt; nia).
  reflexivity.
Qed.

(** The text [rgbToHex] builds for channels that round into a byte. *)
Lemma rgbToHex_digits (r g b : R) :
  0 <= r <= 255 -> 0 <= g <= 255 -> 0 <= b <= 255 ->
  let byte x := Z.to_N (Math_round x) in
  rgbToHex r g b
  = String "#"
     (String (hex_digit (byte r / 16)%N) (String (hex_digit (byte r mod 16)%N)
     (String (hex_digit (byte g / 16)%N) (String (hex_digit (byte g mod 16)%N)
     (String (hex_digit (byte b / 16)%N) (String (hex_digit (byte b mod 16)%N)
        EmptyString)))))).
Proof.
  intros Hr Hg Hb byte. unfold rgbToHex.
  pose proof (Math_round_range r 0 255 Hr) as Hr'.
  pose proof (Math_round_range g 0 255 Hg) as Hg'.
  pose proof (Math_round_range b 0 255 Hb) as Hb'.
  replace (shl32 1 24) with 16777216%Z by reflexivity.
  rewrite !shl32_byte by lia.
  rewrite toString16_7_digits by lia.
  cbv zeta. cbn [slice1]. subst byte. cbv beta.
  set (R0 := Math_round r) in *. set (G0 := Math_round g) in *.
  set (B0 := Math_round b) in *.
  set (n := Z.to_N (16777216 + R0 * 2 ^ 16 + G0 * 2 ^ 8 + B0)).
  assert (Hn : n = (16777216 + Z.to_N R0 * 65536 + Z.to_N G0 * 256 + Z.to_N B0)%N)
    by (subst n; lia).
  assert (HR : (Z.to_N R0 < 256)%N) by lia.
  assert (HG : (Z.to_N G0 < 256)%N) by lia.
  assert (HB : (Z.to_N B0 < 256)%N) by lia.
  clearbody n. generalize dependent (Z.to_N R0). generalize dependent (Z.to_N G0).
  generalize dependent (Z.to_N B0). intros nb Hnb ng Hng nr Hn Hnr. subst n.
  apply (f_equal (String "#")).
  repeat (apply f_equal2; [apply (f_equal hex_digit); N_lia |]).
  reflexivity.
Qed.

Lemma hexToRgb_hash_six (c1 c2 c3 c4 c5 c6 : ascii) (v1 v2 v3 v4 v5 v6 : Z) :
  hex_value c1 = Some v1 -> hex_value c2 = Some v2 -> hex_value c3 = Some v3 ->
  hex_value c4 = Some v4 -> hex_value c5 = Some v5 -> hex_value c6 = Some v6 ->
  hexToRgb (String "#" (String c1 (String c2 (String c3 (String c4
              (String c5 (String c6 EmptyString)))))))
  = Some (RGB.mk (IZR (16 * v1 + v2)) (IZR (16 * v3 + v4)) (IZR (16 * v5 + v6))).
Proof.
  intros H1 H2 H3 H4 H5 H6. unfold hexToRgb, hex_digits.
  replace (String.prefix "#" (String "#" (String c1 (String c2 (String c3
             (String c4 (String c5 (String c6 EmptyString)))))))) with true
    by reflexivity.
  cbn [slice1 String.length list_ascii_of_string].
  rewrite decide_True by reflexivity.
  cbn [mapM mbind option_bind mret option_ret].
  rewrite H1, H2, H3, H4, H5, H6. reflexivity.
Qed.

Lemma hexToRgb_rgbToHex (r g b : R) :
  0 <= r <= 255 -> 0 <= g <= 255 -> 0 <= b <= 255 ->
  hexToRgb (rgbToHex r g b)
  = Some (RGB.mk (IZR (Math_round r)) (IZR (Math_round g)) (IZR (Math_round b))).
Proof.
  intros Hr Hg Hb. rewrite rgbToHex_digits by assumption. cbv zeta.
  pose proof (Math_round_range r 0 255 Hr) as Hr'.
  pose proof (Math_round_range g 0 255 Hg) as Hg'.
  pose proof (Math_round_range b 0 255 Hb) as Hb'.
  erewrite hexToRgb_hash_six by (apply hex_value_hex_digit; N_lia).
  do 2 f_equal; f_equal; N_lia.
Qed.

(** X1: for channels between 0 and 255 the text of [rgbToHex] is [#] and
    six hexadecimal digits; [hexToRgb] reads it back as the channels
    rounded to integers, and the constructor builds a colour with that
    text and those channels from it. *)
Theorem rgbToHex_reads_back_rounded (r g b : R) :
  0 <= r <= 255 -> 0 <= g <= 255 -> 0 <= b <= 255 ->
  let text := rgbToHex r g b in
  let channels := rounded (RGB.mk r g b) in
  String.length text = 7%nat
  /\ hexToRgb text = Some channels
  /\ new_ColorUtil text
     = Normal (mkColorUtil (Some text) (Some channels)
                 (Some (rgbToHsl (RGB.r channels) (RGB.g channels)
                          (RGB.b channels)))).
Proof.
  intros Hr Hg Hb text channels.
  pose proof (hexToRgb_rgbToHex r g b Hr Hg Hb) as Hread.
  fold text in Hread.
  change (RGB.mk (IZR (Math_round r)) (IZR (Math_round g))
            (IZR (Math_round b))) with channels in Hread.
  pose proof (rgbToHex_digits r g b Hr Hg Hb) as Hdigits.
  cbv zeta in Hdigits. fold text in Hdigits.
  split; [rewrite Hdigits; reflexivity |].
  split; [exact Hread |].
  unfold new_ColorUtil.
  replace (String.prefix "#" text) with true
    by (rewrite Hdigits; reflexivity).
  rewrite Hread. reflexivity.
Qed.

Lemma rgbToHex_reads_back_rounded_witness :
  (0 <= 84.6 <= 255 /\ 0 <= 0 <= 255 /\ 0 <= 170.5 <= 255)
  /\ String.length (rgbToHex 84.6 0 170.5) = 7%nat
  /\ hexToRgb (rgbToHex 84.6 0 170.5) = Some (rounded (RGB.mk 84.6 0 170.5))
  /\ new_ColorUtil (rgbToHex 84.6 0 170.5)
     = Normal (mkColorUtil (Some (rgbToHex 84.6 0 170.5))
                 (Some (rounded (RGB.mk 84.6 0 170.5)))
                 (Some (rgbToHsl (RGB.r (rounded (RGB.mk 84.6 0 170.5)))
                          (RGB.g (rounded (RGB.mk 84.6 0 170.5)))
                          (RGB.b (rounded (RGB.mk 84.6 0 170.5)))))).
Proof.
  split; [lra |].
  apply (rgbToHex_reads_back_rounded 84.6 0 170.5); lra.
Defined.

(** ** RGB and HSL *)

Lemma Rdiv_between (x d lo hi : R) :
  0 < d -> lo * d <= x <= hi * d -> lo <= x / d <= hi.
Proof.
  intros Hd [Hlo Hhi]. split.
  - apply (Rmult_le_reg_r d); [exact Hd |].
    unfold Rdiv. rewrite Rmult_assoc, Rinv_l by lra. lra.
  - apply (Rmult_le_reg_r d); [exact Hd |].
    unfold Rdiv. rewrite Rmult_assoc, Rinv_l by lra. lra.
Qed.

Lemma Rdiv_below (x d hi : R) : 0 < d -> x < hi * d -> x / d < hi.
Proof.
  intros Hd H. apply (Rmult_lt_reg_r d); [exact Hd |].
  unfold Rdiv. rewrite Rmult_assoc, Rinv_l by lra. lra.
Qed.

(** Bounds of the quotient [x / d] that occurs in the goal, as far as the
    context gives them. *)
Ltac quotient_bounds :=
  match goal with
  | |- context [?x / ?d] =>
      assert (0 < d) by lra;
      try assert (x / d < 0) by (apply Rdiv_below; lra);
      try assert (0 <= x / d <= 1) by (apply Rdiv_between; lra);
      assert (-1 <= x / d <= 1) by (apply Rdiv_between; lra);
      generalize dependent (x / d); intros
  end.

Lemma rgbToHsl_range (r g b : R) :
  0 <= r <= 255 -> 0 <= g <= 255 -> 0 <= b <= 255 ->
  0 <= HSL.h (rgbToHsl r g b) < 360
  /\ 0 <= HSL.s (rgbToHsl r g b) <= 100
  /\ 0 <= HSL.l (rgbToHsl r g b) <= 100.
Proof.
  intros Hr Hg Hb. unfold rgbToHsl. cbv zeta.
  set (R0 := r / 255). set (G0 := g / 255). set (B0 := b / 255).
  assert (HR : 0 <= R0 <= 1) by (subst R0; lra).
  assert (HG : 0 <= G0 <= 1) by (subst G0; lra).
  assert (HB : 0 <= B0 <= 1) by (subst B0; lra).
  clearbody R0 G0 B0. clear r g b Hr Hg Hb.
  unfold Rmax, Rmin. repeat destruct (Rle_dec _ _); repeat case_decide;
    cbn [HSL.h HSL.s HSL.l]; try lra.
  all: (split; [| split]); try lra.
  all: quotient_bounds; lra.
Qed.

(** [hue2rgb] on an argument that needs no wrapping. *)
Lemma hue2rgb_unwrapped (p q t : R) :
  0 <= t <= 1 ->
  hue2rgb p q t
  = if decide (t < 1 / 6) then p + (q - p) * 6 * t
    else if decide (t < 1 / 2) then q
    else if decide (t < 2 / 3) then p + (q - p) * (2 / 3 - t) * 6
    else p.
Proof.
  intros Ht. unfold hue2rgb. cbv zeta.
  rewrite (decide_False (P := t < 0)) by lra.
  rewrite (decide_False (P := t > 1)) by lra. reflexivity.
Qed.

(** [hue2rgb] by sextant; the branches agree where they meet. *)
Lemma hue2rgb_rise (p q t : R) : 0 <= t <= 1 / 6 -> hue2rgb p q t = p + (q - p) * 6 * t.
Proof.
  intros Ht. rewrite hue2rgb_unwrapped by lra.
  case_decide; [reflexivity |]. rewrite decide_True by lra.
  replace t with (1 / 6) by lra. lra.
Qed.

Lemma hue2rgb_top (p q t : R) : 1 / 6 <= t <= 1 / 2 -> hue2rgb p q t = q.
Proof.
  intros Ht. rewrite hue2rgb_unwrapped by lra.
  rewrite decide_False by lra.
  case_decide; [reflexivity |]. rewrite decide_True by lra.
  replace t with (1 / 2) by lra. lra.
Qed.

Lemma hue2rgb_fall (p q t : R) :
  1 / 2 <= t <= 2 / 3 -> hue2rgb p q t = p + (q - p) * (2 / 3 - t) * 6.
Proof.
  intros Ht. rewrite hue2rgb_unwrapped by lra.
  rewrite !decide_False by lra.
  case_decide; [reflexivity |].
  replace t with (2 / 3) by lra. lra.
Qed.

Lemma hue2rgb_bottom (p q t : R) : 2 / 3 <= t <= 1 -> hue2rgb p q t = p.
Proof.
  intros Ht. rewrite hue2rgb_unwrapped by lra.
  rewrite !decide_False by lra. reflexivity.
Qed.

Lemma hue2rgb_below (p q t : R) : -1 <= t < 0 -> hue2rgb p q t = hue2rgb p q (t + 1).
Proof.
  intros Ht. rewrite (hue2rgb_unwrapped p q (t + 1)) by lra.
  unfold hue2rgb. cbv zeta.
  rewrite (decide_True (P := t < 0)) by lra.
  rewrite (decide_False (P := t + 1 > 1)) by lra. reflexivity.
Qed.

Lemma hue2rgb_above (p q t : R) : 1 < t <= 2 -> hue2rgb p q t = hue2rgb p q (t - 1).
Proof.
  intros Ht. rewrite (hue2rgb_unwrapped p q (t - 1)) by lra.
  unfold hue2rgb. cbv zeta.
  rewrite (decide_False (P := t < 0)) by lra.
  rewrite (decide_True (P := t > 1)) by lra. reflexivity.
Qed.

(** [hslToRgb] on the hue, saturation and lightness that [rgbToHsl] derives
    from a least channel [lo] and a greatest channel [hi]: [p] is [lo] and
    [q] is [hi]. *)
Lemma hslToRgb_of_extremes (hue lo hi : R) :
  0 <= lo -> lo < hi -> hi <= 1 ->
  hslToRgb (hue * 360)
    ((if decide ((hi + lo) / 2 > 0.5) then (hi - lo) / (2 - hi - lo)
      else (hi - lo) / (hi + lo)) * 100)
    ((hi + lo) / 2 * 100)
  = RGB.mk (hue2rgb lo hi (hue + 1 / 3) * 255) (hue2rgb lo hi hue * 255)
           (hue2rgb lo hi (hue - 1 / 3) * 255).
Proof.
  intros Hlo Hlt Hhi. unfold hslToRgb. cbv zeta.
  replace (hue * 360 / 360) with hue by lra.
  set (S0 := if decide ((hi + lo) / 2 > 0.5) then (hi - lo) / (2 - hi - lo)
             else (hi - lo) / (hi + lo)).
  replace (S0 * 100 / 100) with S0 by lra.
  replace ((hi + lo) / 2 * 100 / 100) with ((hi + lo) / 2) by lra.
  assert (HS : S0 <> 0).
  { subst S0. case_decide.
    - apply Rgt_not_eq, Rdiv_lt_0_compat; lra.
    - apply Rgt_not_eq, Rdiv_lt_0_compat; lra. }
  assert (Hq : (if decide ((hi + lo) / 2 < 0.5) then (hi + lo) / 2 * (1 + S0)
                else (hi + lo) / 2 + S0 - (hi + lo) / 2 * S0) = hi).
  { subst S0. repeat case_decide; try (exfalso; lra);
      first [field; lra | replace lo with (1 - hi) by lra; field; lra]. }
  rewrite decide_False by exact HS. rewrite Hq.
  replace (2 * ((hi + lo) / 2) - hi) with lo by lra. reflexivity.
Qed.

(** Names the quotient [x / d] of the goal, with the equation that defines
    it and the bounds the context gives. *)
Ltac name_quotient u :=
  match goal with
  | |- context [?x / ?d] =>
      assert (0 < d) by lra;
      let Hu := fresh "Hu" in
      assert (Hu : x / d * d = x) by (field; lra);
      try assert (x / d < 0) by (apply Rdiv_below; lra);
      try assert (0 < x / d) by (apply Rdiv_lt_0_compat; lra);
      try assert (0 <= x / d <= 1) by (apply Rdiv_between; lra);
      try assert (-1 <= x / d <= 0) by (apply Rdiv_between; lra);
      assert (-1 <= x / d <= 1) by (apply Rdiv_between; lra);
      set (u := x / d) in *; clearbody u
  end.

Ltac hue2rgb_sextant :=
  first
    [ rewrite hue2rgb_rise by lra
    | rewrite hue2rgb_top by lra
    | rewrite hue2rgb_fall by lra
    | rewrite hue2rgb_bottom by lra
    | rewrite hue2rgb_below by lra; hue2rgb_sextant
    | rewrite hue2rgb_above by lra; hue2rgb_sextant ].

Lemma hslToRgb_rgbToHsl_unit (R0 G0 B0 : R) :
  0 <= R0 <= 1 -> 0 <= G0 <= 1 -> 0 <= B0 <= 1 ->
  let o := rgbToHsl (R0 * 255) (G0 * 255) (B0 * 255) in
  hslToRgb (HSL.h o) (HSL.s o) (HSL.l o)
  = RGB.mk (R0 * 255) (G0 * 255) (B0 * 255).
Proof.
  intros HR HG HB. unfold rgbToHsl. cbv zeta.
  replace (R0 * 255 / 255) with R0 by lra.
  replace (G0 * 255 / 255) with G0 by lra.
  replace (B0 * 255 / 255) with B0 by lra.
  unfold Rmax, Rmin. repeat destruct (Rle_dec _ _); try lra.
  all: match goal with
       | |- context [decide (?hi = ?lo)] => destruct (decide (hi = lo))
       end.
  all: cbn [HSL.h HSL.s HSL.l].
  all: try (unfold hslToRgb; cbv zeta; rewrite decide_True by lra;
            f_equal; lra).
  all: rewrite hslToRgb_of_extremes by lra.
  all: repeat case_decide; try lra.
  all: name_quotient u.
  all: f_equal; hue2rgb_sextant; nra.
Qed.

(** In the exact arithmetic of this embedding [hslToRgb] inverts
    [rgbToHsl]. *)
Lemma hslToRgb_rgbToHsl (r g b : R) :
  0 <= r <= 255 -> 0 <= g <= 255 -> 0 <= b <= 255 ->
  let o := rgbToHsl r g b in
  hslToRgb (HSL.h o) (HSL.s o) (HSL.l o) = RGB.mk r g b.
Proof.
  intros Hr Hg Hb.
  replace r with (r / 255 * 255) by lra.
  replace g with (g / 255 * 255) by lra.
  replace b with (b / 255 * 255) by lra.
  apply hslToRgb_rgbToHsl_unit; lra.
Qed.

(** ** Hues on the circle *)

(** The remainder of [x % 360]: it has the sign of [x] and stays within one
    turn. *)
Lemma js_rem_360_sign (x : R) :
  (0 <= x -> 0 <= js_rem x 360 < 360)
  /\ (x < 0 -> -360 < js_rem x 360 <= 0).
Proof.
  unfold js_rem, Rtrunc. split; intros Hx.
  - rewrite decide_True by lra.
    destruct (base_Int_part (x / 360)) as [Hle Hgt]. lra.
  - rewrite decide_False by lra. rewrite opp_IZR.
    destruct (base_Int_part (- (x / 360))) as [Hle Hgt]. lra.
Qed.

(** [((hue % 360) + 360) % 360] lies in [0, 360) for every hue. *)
Lemma normalized_hue_range (hue : R) :
  0 <= js_rem (js_rem hue 360 + 360) 360 < 360.
Proof.
  destruct (js_rem_360_sign hue) as [Hpos Hneg].
  destruct (js_rem_360_sign (js_rem hue 360 + 360)) as [Hpos' _].
  apply Hpos'. destruct (Rle_dec 0 hue); [specialize (Hpos r) | ]; lra.
Qed.

Lemma getCircularHueDistance_comm (hue1 hue2 : R) :
  getCircularHueDistance hue1 hue2 = getCircularHueDistance hue2 hue1.
Proof.
  unfold getCircularHueDistance. cbv zeta.
  rewrite (Rabs_minus_sym (js_rem (js_rem hue1 360 + 360) 360)). reflexivity.
Qed.

(** X4: the circular hue distance is symmetric and lies between 0 and 180
    for all hues, negative ones and ones past 360 included. *)
Theorem getCircularHueDistance_symmetric_0_180 (hue1 hue2 : R) :
  getCircularHueDistance hue1 hue2 = getCircularHueDistance hue2 hue1
  /\ 0 <= getCircularHueDistance hue1 hue2 <= 180.
Proof.
  unfold getCircularHueDistance. cbv zeta.
  pose proof (normalized_hue_range hue1) as H1.
  pose proof (normalized_hue_range hue2) as H2.
  set (h1 := js_rem (js_rem hue1 360 + 360) 360) in *.
  set (h2 := js_rem (js_rem hue2 360 + 360) 360) in *.
  clearbody h1 h2. split.
  - rewrite (Rabs_minus_sym h1 h2). reflexivity.
  - unfold Rmin, Rabs. destruct (Rcase_abs _); destruct (Rle_dec _ _); lra.
Qed.

Lemma js_rem_360_offset (hue k : R) :
  0 <= hue < 360 -> 0 <= k <= 360 ->
  js_rem (hue + k) 360 = if decide (hue + k < 360) then hue + k else hue + k - 360.
Proof.
  intros Hh Hk. case_decide.
  - apply js_rem_360_small. lra.
  - apply js_rem_360_wrap. lra.
Qed.

Lemma getCircularHueDistance_offset (hue k : R) :
  0 <= hue < 360 -> 0 <= k <= 360 ->
  getCircularHueDistance hue (js_rem (hue + k) 360) = Rmin k (360 - k).
Proof.
  intros Hh Hk. rewrite js_rem_360_offset by assumption.
  case_decide.
  - rewrite getCircularHueDistance_in_range by lra.
    unfold Rmin, Rabs. destruct (Rcase_abs _); repeat destruct (Rle_dec _ _); lra.
  - rewrite getCircularHueDistance_in_range by lra.
    unfold Rmin, Rabs. destruct (Rcase_abs _); repeat destruct (Rle_dec _ _); lra.
Qed.

Lemma colorHarmonies_hues_Forall (harmony : string) (hues : R -> list R)
    (hue : R) :
  colorHarmonies harmony = Some hues -> 0 <= hue < 360 ->
  Forall (fun h => 0 <= h < 360) (hues hue).
Proof.
  intros Hh Hhue. unfold colorHarmonies in Hh.
  repeat case_decide; try discriminate; injection Hh as <-.
  all: repeat (apply Forall_cons; split; [| ]); try apply Forall_nil; try lra.
  all: try (apply js_rem_360_sign; lra).
  all: replace (hue - 25 + 360) with (hue + 335) by lra;
       replace (hue - 50 + 360) with (hue + 310) by lra;
       apply js_rem_360_sign; lra.
Qed.

(** X5: for a base hue in [0, 360) every harmony lists between two and
    five hues, the base hue first, and all of them in [0, 360). *)
Theorem colorHarmonies_hues_in_range (harmony : string) (hues : R -> list R)
    (hue : R) :
  colorHarmonies harmony = Some hues -> 0 <= hue < 360 ->
  hues hue !! 0%nat = Some hue
  /\ (2 <= length (hues hue) <= 5)%nat
  /\ Forall (fun h => 0 <= h < 360) (hues hue).
Proof.
  intros Hh Hhue.
  split; [| split].
  - unfold colorHarmonies in Hh.
    repeat case_decide; try discriminate; injection Hh as <-; reflexivity.
  - unfold colorHarmonies in Hh.
    repeat case_decide; try discriminate; injection Hh as <-; cbn; lia.
  - exact (colorHarmonies_hues_Forall harmony hues hue Hh Hhue).
Qed.

Lemma colorHarmonies_hues_in_range_witness :
  let hues := fun hue : R =>
    [hue; js_rem (hue + 25) 360; js_rem (hue + 50) 360;
     js_rem (hue - 25 + 360) 360; js_rem (hue - 50 + 360) 360] in
  colorHarmonies "analogous" = Some hues /\ 0 <= 10 < 360
  /\ hues 10 !! 0%nat = Some 10
  /\ (2 <= length (hues 10%R) <= 5)%nat
  /\ Forall (fun h => 0 <= h < 360) (hues 10).
Proof.
  intros hues. split; [reflexivity |].
  assert (Hhue : 0 <= 10 < 360) by lra. split; [exact Hhue |].
  exact (colorHarmonies_hues_in_range "analogous" hues 10 eq_refl Hhue).
Defined.

(** In the exact arithmetic of this embedding the hues of a harmony lie at
    these circular distances from a base hue in [0, 360). *)
Lemma colorHarmonies_hue_distances_exact (hue : R) :
  0 <= hue < 360 ->
  let distances (hues : R -> list R) : list R :=
    getCircularHueDistance hue <$> hues hue in
  distances <$> colorHarmonies "complementary" = Some [0; 180]
  /\ distances <$> colorHarmonies "triadic" = Some [0; 120; 120]
  /\ distances <$> colorHarmonies "analogous" = Some [0; 25; 50; 25; 50]
  /\ distances <$> colorHarmonies "monochromatic" = Some [0; 0; 0; 0; 0]
  /\ distances <$> colorHarmonies "tetradic" = Some [0; 90; 180; 90].
Proof.
  intros Hhue distances. subst distances.
  assert (Hmin : forall k, 0 <= k <= 360 ->
            getCircularHueDistance hue (js_rem (hue + k) 360) = Rmin k (360 - k))
    by (intros; apply getCircularHueDistance_offset; assumption).
  unfold colorHarmonies.
  repeat (first [rewrite decide_True by reflexivity
                | rewrite decide_False by discriminate]).
  cbn [fmap option_fmap option_map list_fmap].
  replace (hue - 25 + 360) with (hue + 335) by lra.
  replace (hue - 50 + 360) with (hue + 310) by lra.
  rewrite !getCircularHueDistance_same, !Hmin by lra.
  unfold Rmin. repeat destruct (Rle_dec _ _); try lra.
  repeat split; repeat f_equal; lra.
Qed.

(** X6: for a base hue in [0, 360) the hues of a harmony lie, to within a
    thousandth of a degree, at these circular distances from the base hue:
    0 and 180 (complementary), 0, 120, 120 (triadic), 0, 25, 50, 25, 50
    (analogous), all 0 (monochromatic), 0, 90, 180, 90 (tetradic). *)
Theorem colorHarmonies_hue_distances (hue : R) :
  0 <= hue < 360 ->
  let distances (harmony : string) : option (list R) :=
    (fun hues : R -> list R => getCircularHueDistance hue <$> hues hue)
      <$> colorHarmonies harmony in
  distances_near [0; 180] (distances "complementary")
  /\ distances_near [0; 120; 120] (distances "triadic")
  /\ distances_near [0; 25; 50; 25; 50] (distances "analogous")
  /\ distances_near [0; 0; 0; 0; 0] (distances "monochromatic")
  /\ distances_near [0; 90; 180; 90] (distances "tetradic").
Proof.
  intros Hhue distances.
  destruct (colorHarmonies_hue_distances_exact hue Hhue)
    as (H1 & H2 & H3 & H4 & H5).
  cbv zeta in H1, H2, H3, H4, H5. subst distances. cbv beta.
  repeat split; eexists; (split; [eassumption |]);
    repeat constructor; rewrite Rminus_diag, Rabs_R0; lra.
Qed.

Lemma colorHarmonies_hue_distances_witness :
  let distances (harmony : string) : option (list R) :=
    (fun hues : R -> list R => getCircularHueDistance 300 <$> hues 300)
      <$> colorHarmonies harmony in
  0 <= 300 < 360
  /\ distances_near [0; 180] (distances "complementary")
  /\ distances_near [0; 120; 120] (distances "triadic")
  /\ distances_near [0; 25; 50; 25; 50] (distances "analogous")
  /\ distances_near [0; 0; 0; 0; 0] (distances "monochromatic")
  /\ distances_near [0; 90; 180; 90] (distances "tetradic").
Proof.
  intros distances.
  assert (Hhue : 0 <= 300 < 360) by lra. split; [exact Hhue |].
  exact (colorHarmonies_hue_distances 300 Hhue).
Defined.

(** ** The search of the optimizer *)

Lemma lightness_within_weaken (original c : ColorUtil) (lo hi lo' hi' : R) :
  lo' <= lo -> hi <= hi' ->
  lightness_within original c lo hi -> lightness_within original c lo' hi'.
Proof.
  intros Hlo Hhi [-> | (o & l & Ho & Hl & ->)]; [left; reflexivity |].
  right. exists o, l. repeat split; try assumption; lra.
Qed.

Section optimizer_result.

Variables (original background : ColorUtil) (o : HSL.t) (k0 : R).
Hypothesis original_hsl : hsl original = Some o.
Hypothesis background_wf : well_formed background.
Hypothesis original_contrast : getContrastRatio original background = Normal k0.

(** What the scan of [findOptimalColor] hands on: a colour inside the band,
    or a best colour at least as close to the target as the colour it
    started from. *)
Lemma scan_loop_result (n : nat) (l : Z) (targetRatio upperBound : R)
    (bestColor : ColorUtil) (bestContrast : R) (lo hi : R) :
  getContrastRatio bestColor background = Normal bestContrast ->
  lightness_within original bestColor lo hi ->
  lo <= IZR l -> IZR l + 2 * INR n - 2 <= hi ->
  exists scanned,
    scan_loop n l (hsl original) background targetRatio upperBound bestColor
      bestContrast = Normal scanned
    /\ match scanned with
       | inl c =>
           lightness_within original c lo hi
           /\ exists k, getContrastRatio c background = Normal k
                        /\ targetRatio <= k <= upperBound
       | inr (c, k) =>
           lightness_within original c lo hi
           /\ getContrastRatio c background = Normal k
           /\ Rabs (k - targetRatio) <= Rabs (bestContrast - targetRatio)
       end.
Proof.
  revert l bestColor bestContrast.
  induction n as [| n IH]; intros l bestColor bestContrast Hbest Hwithin Hlo Hhi;
    cbn [scan_loop].
  - eexists. split; [reflexivity |]. repeat split; try assumption. lra.
  - rewrite original_hsl. cbn [deref]. rewrite bind_Normal.
    set (testColor := fromHsl (HSL.h o) (HSL.s o) (IZR l)).
    contrast_of testColor background k Hk.
    rewrite S_INR in Hhi.
    assert (Htest : lightness_within original testColor lo hi).
    { right. exists o, (IZR l). repeat split; try assumption.
      pose proof (pos_INR n). lra. }
    rewrite <- original_hsl.
    destruct (decide (k >= targetRatio ∧ k <= upperBound)) as [Hband | _].
    + eexists. split; [reflexivity |]. split; [exact Htest |].
      exists k. split; [exact Hk | lra].
    + case_decide as Hcloser.
      * destruct (IH (l + 2)%Z testColor k Hk Htest) as [scanned [Hs Hres]].
        { rewrite plus_IZR. pose proof (pos_INR n). lra. }
        { rewrite plus_IZR. lra. }
        exists scanned. split; [exact Hs |].
        destruct scanned as [c | [c k']]; [exact Hres |].
        destruct Hres as (Hw & Hc & Hd). repeat split; try assumption. lra.
      * apply IH; try assumption.
        -- rewrite plus_IZR. pose proof (pos_INR n). lra.
        -- rewrite plus_IZR. lra.
Qed.

(** The expanded search returns a colour that reaches the target, or has
    at least the contrast of the best colour it was given. *)
Lemma expanded_loop_result (n : nat)
    (targetRatio step searchDirection targetLightness : R)
    (bestColor : ColorUtil) (bestContrast : R) (lo hi : R) :
  getContrastRatio bestColor background = Normal bestContrast ->
  lightness_within original bestColor lo hi ->
  lo <= 5 -> 95 <= hi ->
  exists c k,
    expanded_loop n (hsl original) background targetRatio step searchDirection
      targetLightness bestColor bestContrast = Normal c
    /\ lightness_within original c lo hi
    /\ getContrastRatio c background = Normal k
    /\ (targetRatio <= k \/ bestContrast <= k).
Proof.
  intros Hbest Hwithin Hlo Hhi.
  revert targetLightness bestColor bestContrast Hbest Hwithin.
  induction n as [| n IH]; intros targetLightness bestColor bestContrast
    Hbest Hwithin; cbn [expanded_loop].
  - exists bestColor, bestContrast. repeat split; try assumption. lra.
  - case_decide as Hout.
    { exists bestColor, bestContrast. repeat split; try assumption. lra. }
    rewrite original_hsl. cbn [deref]. rewrite bind_Normal.
    set (l := targetLightness + searchDirection * step) in *.
    set (testColor := fromHsl (HSL.h o) (HSL.s o) l).
    contrast_of testColor background k Hk.
    assert (Htest : lightness_within original testColor lo hi).
    { right. exists o, l. repeat split; try assumption; lra. }
    rewrite <- original_hsl.
    case_decide as Hmeets.
    + exists testColor, k. repeat split; try assumption. lra.
    + case_decide as Hbetter.
      * destruct (IH l testColor k Hk Htest) as (c & k' & Hc & Hw & Hk' & Hge).
        exists c, k'. repeat split; try assumption. lra.
      * apply IH; assumption.
Qed.

Lemma expandedColorSearch_result (targetRatio : R) (isLightBackground : bool)
    (range : Z * Z) (bestColor : ColorUtil) (bestContrast : R) (lo hi : R) :
  getContrastRatio bestColor background = Normal bestContrast ->
  lightness_within original bestColor lo hi ->
  lo <= 5 -> 95 <= hi ->
  exists c k,
    expandedColorSearch (hsl original) background targetRatio
      isLightBackground range bestColor = Normal c
    /\ lightness_within original c lo hi
    /\ getContrastRatio c background = Normal k
    /\ (targetRatio <= k \/ bestContrast <= k).
Proof.
  intros Hbest Hwithin Hlo Hhi. unfold expandedColorSearch.
  rewrite Hbest, bind_Normal. apply expanded_loop_result; assumption.
Qed.

End optimizer_result.

(** The ranges of [getTargetLightnessRange] for the indices of a palette of
    at most five colours. *)
Lemma getTargetLightnessRange_bounds (isLightBackground : bool)
    (colorIndex totalColors : nat) (harmony : string) :
  (colorIndex < totalColors <= 5)%nat ->
  exists range,
    getTargetLightnessRange isLightBackground colorIndex totalColors harmony
    = Normal range
    /\ (10 <= range.1 <= range.2)%Z /\ (range.2 <= 95)%Z.
Proof.
  intros Hindex. unfold getTargetLightnessRange, number_at.
  destruct isLightBackground; repeat case_decide;
    try (eexists; split; [reflexivity |]; cbn [fst snd]; lia).
  - cbn [length]. pose proof (Nat.mod_upper_bound colorIndex 5).
    destruct (colorIndex mod 5)%nat as [|[|[|[|[|]]]]]; cbn;
      try (eexists; split; [reflexivity |]; cbn [fst snd]; lia); lia.
  - cbn [length]. pose proof (Nat.mod_upper_bound colorIndex 3).
    destruct (colorIndex mod 3)%nat as [|[|[|]]]; cbn;
      try (eexists; split; [reflexivity |]; cbn [fst snd]; lia); lia.
  - cbn [length]. pose proof (Nat.mod_upper_bound colorIndex 5).
    destruct (colorIndex mod 5)%nat as [|[|[|[|[|]]]]]; cbn;
      try (eexists; split; [reflexivity |]; cbn [fst snd]; lia); lia.
Qed.

Lemma scan_count_last (lo hi : Z) :
  (lo <= hi)%Z -> IZR lo + 2 * INR (scan_count lo hi) - 2 <= IZR hi.
Proof.
  intros Hle. unfold scan_count. rewrite INR_IZR_INZ, Z2Nat.id.
  - assert (H2 : (2 * ((hi - lo + 2) / 2) <= hi - lo + 2)%Z)
      by (apply Z.mul_div_le; lia).
    apply IZR_le in H2. rewrite mult_IZR, plus_IZR, minus_IZR in H2. lra.
  - apply Z.div_pos; lia.
Qed.

Lemma findOptimalColor_result (this : PaletteGenerator)
    (original background : ColorUtil) (targetRatio upperBound : R)
    (colorIndex totalColors : nat) (o : HSL.t) (k0 : R) :
  hsl original = Some o -> well_formed background ->
  getContrastRatio original background = Normal k0 ->
  exists c k lum range,
    findOptimalColor this original background targetRatio upperBound
      colorIndex totalColors = Normal c
    /\ getLuminance background = Normal lum
    /\ getTargetLightnessRange (bool_decide (lum > 0.5)) colorIndex totalColors
         (harmonyType this) = Normal range
    /\ lightness_within original c (Rmin 5 (IZR range.1))
         (Rmax 95 (IZR range.1 + 2 * INR (scan_count range.1 range.2) - 2))
    /\ getContrastRatio c background = Normal k
    /\ (k0 < targetRatio -> k0 <= k).
Proof.
  intros Ho Hbg Hk0. unfold findOptimalColor.
  destruct (getLuminance_total background Hbg) as [lum Hlum].
  rewrite Hlum, bind_Normal.
  destruct (getTargetLightnessRange_total (bool_decide (lum > 0.5)) colorIndex
              totalColors (harmonyType this)) as (range & Hrange).
  rewrite Hrange, bind_Normal, Hk0, bind_Normal.
  set (lo := Rmin 5 (IZR range.1)).
  set (hi := Rmax 95 (IZR range.1 + 2 * INR (scan_count range.1 range.2) - 2)).
  assert (Hlo : lo <= 5 /\ lo <= IZR range.1)
    by (subst lo; split; [apply Rmin_l | apply Rmin_r]).
  assert (Hhi : 95 <= hi
                /\ IZR range.1 + 2 * INR (scan_count range.1 range.2) - 2 <= hi)
    by (subst hi; split; [apply Rmax_l | apply Rmax_r]).
  destruct (scan_loop_result original background o Ho Hbg
              (scan_count range.1 range.2) range.1 targetRatio upperBound
              original k0 lo hi Hk0 (or_introl eq_refl) (proj2 Hlo) (proj2 Hhi))
    as (scanned & Hscan & Hres).
  rewrite Hscan, bind_Normal.
  destruct scanned as [c | [c k]].
  - destruct Hres as (Hw & k & Hk & Hband).
    exists c, k, lum, range. repeat split; try assumption. intros; lra.
  - destruct Hres as (Hw & Hk & Hd).
    destruct (expandedColorSearch_result original background o Ho Hbg
                targetRatio (bool_decide (lum > 0.5)) range c k lo hi Hk Hw
                (proj1 Hlo) (proj1 Hhi))
      as (c' & k' & Hc' & Hw' & Hk' & Hge).
    exists c', k', lum, range. repeat split; try assumption.
    intros Hlt. unfold Rabs in Hd.
    repeat destruct (Rcase_abs _); lra.
Qed.

(** For the slots of a palette of at most five colours the search stays
    between lightness 5 and 95. *)
Lemma findOptimalColor_in_palette (this : PaletteGenerator)
    (original background : ColorUtil) (targetRatio upperBound : R)
    (colorIndex totalColors : nat) :
  well_formed original -> well_formed background ->
  (colorIndex < totalColors <= 5)%nat ->
  exists c,
    findOptimalColor this original background targetRatio upperBound
      colorIndex totalColors = Normal c
    /\ lightness_within original c 5 95.
Proof.
  intros Hwf Hbg Hindex.
  destruct (getContrastRatio_total original background Hwf Hbg) as [k0 Hk0].
  destruct Hwf as [_ [o Ho]].
  destruct (findOptimalColor_result this original background targetRatio
              upperBound colorIndex totalColors o k0 Ho Hbg Hk0)
    as (c & k & lum & range & Hc & _ & Hrange & Hw & _).
  exists c. split; [exact Hc |].
  destruct (getTargetLightnessRange_bounds (bool_decide (lum > 0.5)) colorIndex
              totalColors (harmonyType this) Hindex)
    as (range' & Hrange' & [Hl1 Hl2] & Hh).
  rewrite Hrange in Hrange'. injection Hrange' as <-.
  pose proof (scan_count_last range.1 range.2 Hl2) as Hlast.
  apply IZR_le in Hl1, Hh.
  eapply lightness_within_weaken; [| | exact Hw].
  - unfold Rmin. destruct (Rle_dec _ _); lra.
  - unfold Rmax. destruct (Rle_dec _ _); lra.
Qed.

Lemma optimizeColorForBackground_contrast (this : PaletteGenerator)
    (original background : ColorUtil) (targetRatio : R)
    (colorIndex totalColors : nat) :
  well_formed original -> well_formed background ->
  exists c k0 k,
    optimizeColorForBackground this original background targetRatio
      colorIndex totalColors = Normal c
    /\ getContrastRatio original background = Normal k0
    /\ getContrastRatio c background = Normal k
    /\ k0 <= k.
Proof.
  intros Hwf Hbg. unfold optimizeColorForBackground.
  destruct (getContrastRatio_total original background Hwf Hbg) as [k0 Hk0].
  rewrite Hk0, bind_Normal. cbv zeta.
  destruct (decide (k0 >= targetRatio)) as [Hmeets | Hbelow].
  - exists original, k0, k0.
    split; [case_decide; reflexivity |]. repeat split; try assumption. lra.
  - destruct Hwf as [_ [o Ho]].
    destruct (findOptimalColor_result this original background targetRatio
                (if decide (targetRatio = 4.5) then 6.0 else 8.5)
                colorIndex totalColors o k0 Ho Hbg Hk0)
      as (c & k & _ & _ & Hc & _ & _ & _ & Hk & Hge).
    exists c, k0, k. repeat split; try assumption. apply Hge. lra.
Qed.

(** ** Displayable colours *)

Lemma displayable_well_formed (c : ColorUtil) : displayable c -> well_formed c.
Proof. intros (o & x & text & Ho & Hx & _). split; eauto. Qed.

Lemma Forall_displayable_well_formed (l : list ColorUtil) :
  Forall displayable l -> Forall well_formed l.
Proof. intros H. eapply Forall_impl; [exact H | exact displayable_well_formed]. Qed.

Lemma fromHsl_displayable (h s l : R) :
  0 <= h < 360 -> 0 <= s <= 100 -> 0 <= l <= 100 -> displayable (fromHsl h s l).
Proof.
  intros Hh Hs Hl.
  destruct (fromHsl_in_gamut h s l Hh Hs Hl) as (x & Hx & Hr & Hg & Hb).
  cbn [rgb fromHsl] in Hx. injection Hx as <-.
  eexists (HSL.mk h s l), (hslToRgb h s l), _.
  repeat split; try reflexivity; try (cbn [HSL.h HSL.s HSL.l]; lra).
  apply hexToRgb_rgbToHex; assumption.
Qed.

Lemma hexToRgb_integers (text : string) (x : RGB.t) :
  hexToRgb text = Some x -> rounded x = x.
Proof.
  unfold hexToRgb. destruct (hex_digits text) as [digits |]; [| discriminate].
  destruct digits as [| r1 [| r2 [| g1 [| g2 [| b1 [| b2 [| ? ?]]]]]]];
    try discriminate.
  intros [= <-]. unfold rounded. cbn [RGB.r RGB.g RGB.b].
  rewrite !Math_round_IZR. reflexivity.
Qed.

Lemma new_ColorUtil_displayable (text : string) (c : ColorUtil) :
  String.prefix "#" text = true -> new_ColorUtil text = Normal c ->
  displayable c.
Proof.
  unfold new_ColorUtil. intros Hp Hnew. rewrite Hp in Hnew.
  destruct (hexToRgb text) as [x |] eqn:Hx; [| discriminate].
  injection Hnew as <-.
  pose proof (hexToRgb_in_gamut text x Hx) as (Hr & Hg & Hb).
  exists (rgbToHsl (RGB.r x) (RGB.g x) (RGB.b x)), x, text.
  repeat split; try reflexivity; try assumption; try lra;
    try (apply rgbToHsl_range; assumption).
  rewrite (hexToRgb_integers text x Hx). exact Hx.
Qed.

(** Changing the lightness of a displayable colour within [0, 100] gives a
    displayable colour. *)
Lemma lightness_within_displayable (original c : ColorUtil) (lo hi : R) :
  displayable original -> 0 <= lo -> hi <= 100 ->
  lightness_within original c lo hi -> displayable c.
Proof.
  intros Hd Hlo Hhi [-> | (o & l & Ho & Hl & ->)]; [exact Hd |].
  destruct Hd as (o' & x & text & Ho' & _ & _ & (Hh & Hs & _) & _).
  rewrite Ho in Ho'. injection Ho' as <-.
  apply fromHsl_displayable; lra.
Qed.

(** X2: a colour the constructor builds from a text that starts with [#]
    has integer channels between 0 and 255, a hue in [0, 360) and a
    saturation and a lightness in [0, 100]. *)
Theorem constructed_color_components_in_range (text : string)
    (c : ColorUtil) :
  String.prefix "#" text = true -> new_ColorUtil text = Normal c ->
  exists x o,
    rgb c = Some x /\ hsl c = Some o
    /\ rounded x = x
    /\ (0 <= RGB.r x <= 255 /\ 0 <= RGB.g x <= 255 /\ 0 <= RGB.b x <= 255)
    /\ 0 <= HSL.h o < 360 /\ 0 <= HSL.s o <= 100 /\ 0 <= HSL.l o <= 100.
Proof.
  intros Hp Hnew.
  destruct (new_ColorUtil_displayable text c Hp Hnew)
    as (o & x & text' & Ho & Hx & Htext & (Hh & Hs & Hl) & Hgamut & _).
  exists x, o. repeat split; try assumption; try tauto.
  unfold new_ColorUtil in Hnew. rewrite Hp in Hnew.
  destruct (hexToRgb text) as [x' |] eqn:Hread; [| discriminate].
  injection Hnew as <-. cbn [rgb] in Hx. injection Hx as <-.
  exact (hexToRgb_integers text x' Hread).
Qed.

Lemma constructed_color_components_in_range_witness :
  String.prefix "#" "#5500AA" = true
  /\ new_ColorUtil "#5500AA" = Normal (hex_color "#5500AA" 85 0 170)
  /\ exists x o,
       rgb (hex_color "#5500AA" 85 0 170) = Some x
       /\ hsl (hex_color "#5500AA" 85 0 170) = Some o
       /\ rounded x = x
       /\ (0 <= RGB.r x <= 255 /\ 0 <= RGB.g x <= 255 /\ 0 <= RGB.b x <= 255)
       /\ 0 <= HSL.h o < 360 /\ 0 <= HSL.s o <= 100 /\ 0 <= HSL.l o <= 100.
Proof.
  split; [reflexivity |]. split; [exact new_ColorUtil_default |].
  exact (constructed_color_components_in_range "#5500AA"
           (hex_color "#5500AA" 85 0 170) eq_refl new_ColorUtil_default).
Defined.

(** X3: a colour parsed from [#] and six hexadecimal digits survives the
    conversion to hue, saturation and lightness and back:
    [ColorUtil.fromHsl] on its [hsl] builds a colour with that same [hsl]
    whose [hex] text is [rgbToHex] of the parsed channels, and [hexToRgb]
    reads that text back as the parsed channels.  The channels that
    [hslToRgb] computes are compared after the rounding of [rgbToHex], not
    as numbers. *)
Theorem parsed_color_survives_hsl_round_trip (text : string)
    (c : ColorUtil) :
  String.prefix "#" text = true -> new_ColorUtil text = Normal c ->
  exists x o,
    rgb c = Some x /\ hsl c = Some o
    /\ let back := fromHsl (HSL.h o) (HSL.s o) (HSL.l o) in
       hsl back = Some o
       /\ hex back = Some (rgbToHex (RGB.r x) (RGB.g x) (RGB.b x))
       /\ hexToRgb (rgbToHex (RGB.r x) (RGB.g x) (RGB.b x)) = Some x.
Proof.
  intros Hp Hnew. unfold new_ColorUtil in Hnew. rewrite Hp in Hnew.
  destruct (hexToRgb text) as [x |] eqn:Hread; [| discriminate].
  injection Hnew as <-.
  destruct (hexToRgb_in_gamut text x Hread) as (Hr & Hg & Hb).
  exists x, (rgbToHsl (RGB.r x) (RGB.g x) (RGB.b x)).
  split; [reflexivity |]. split; [reflexivity |]. cbv zeta.
  split; [| split].
  - rewrite fromHsl_hsl. destruct (rgbToHsl _ _ _). reflexivity.
  - unfold fromHsl. cbn [hex].
    rewrite (hslToRgb_rgbToHsl (RGB.r x) (RGB.g x) (RGB.b x) Hr Hg Hb).
    reflexivity.
  - rewrite hexToRgb_rgbToHex by assumption.
    pose proof (hexToRgb_integers text x Hread) as Hint.
    unfold rounded in Hint. rewrite Hint. reflexivity.
Qed.

Lemma parsed_color_survives_hsl_round_trip_witness :
  String.prefix "#" "#5500AA" = true
  /\ new_ColorUtil "#5500AA" = Normal (hex_color "#5500AA" 85 0 170)
  /\ exists x o,
       rgb (hex_color "#5500AA" 85 0 170) = Some x
       /\ hsl (hex_color "#5500AA" 85 0 170) = Some o
       /\ hsl (fromHsl (HSL.h o) (HSL.s o) (HSL.l o)) = Some o
       /\ hex (fromHsl (HSL.h o) (HSL.s o) (HSL.l o))
          = Some (rgbToHex (RGB.r x) (RGB.g x) (RGB.b x))
       /\ hexToRgb (rgbToHex (RGB.r x) (RGB.g x) (RGB.b x)) = Some x.
Proof.
  split; [reflexivity |]. split; [exact new_ColorUtil_default |].
  exact (parsed_color_survives_hsl_round_trip "#5500AA"
           (hex_color "#5500AA" 85 0 170) eq_refl new_ColorUtil_default).
Defined.

(** ** Clamping *)

Lemma clamp_between (lo hi x : R) : lo <= hi -> lo <= Rmax lo (Rmin hi x) <= hi.
Proof.
  intros Hle. unfold Rmax, Rmin. repeat destruct (Rle_dec _ _); lra.
Qed.

Lemma level_or_between (levels : list R) (index : nat) (fallback lo hi : R) :
  Forall (fun x => lo <= x <= hi) levels -> lo <= fallback <= hi ->
  lo <= level_or levels index fallback <= hi.
Proof.
  intros Hall Hf. unfold level_or. destruct index as [| k]; [exact Hf |].
  destruct (levels !! k) as [x |] eqn:Hx; cbn; [| exact Hf].
  exact (Forall_lookup_1 _ _ _ _ Hall Hx).
Qed.

(** ** The base palette holds displayable colours *)

Lemma generateColorFromHarmony_displayable (baseColor : ColorUtil)
    (harmonyHues : list R) (harmony : string) (index totalSize : nat)
    (c : ColorUtil) :
  displayable baseColor -> (1 <= index)%nat ->
  Forall (fun h => 0 <= h < 360) harmonyHues ->
  generateColorFromHarmony baseColor harmonyHues harmony index totalSize
  = Normal c ->
  displayable c.
Proof.
  intros (o & _ & _ & Ho & _ & _ & (Hh & Hs & Hl) & _) Hindex Hhues.
  unfold generateColorFromHarmony.
  destruct (decide (harmony = "monochromatic"%string)) as [Hmono | Hmono].
  - rewrite Ho. cbn [deref]. rewrite !bind_Normal.
    intros [= <-]. apply fromHsl_displayable.
    + apply js_rem_360_sign.
      assert (1 <= IZR (Z.of_nat index)) by (apply IZR_le; lia). lra.
    + pose proof (clamp_between 20 95
        (Rmax 30 (Rmin 90 (HSL.s o + (IZR (Z.of_nat index) - 2) * 15)))).
      lra.
    + match goal with
      | |- _ <= Rmax 10 (Rmin 90 ?x) <= _ =>
          pose proof (clamp_between 10 90 x)
      end. lra.
  - destruct (harmonyHues !! (index mod length harmonyHues)%nat) as [hue |]
      eqn:Hhue; [| repeat case_decide; discriminate].
    pose proof (Forall_lookup_1 _ _ _ _ Hhues Hhue) as Hrange.
    cbn beta.
    repeat case_decide; rewrite !bind_Normal; intros [= <-];
      apply fromHsl_displayable; try assumption;
      match goal with
      | |- _ <= Rmax ?lo (Rmin ?hi ?x) <= _ =>
          pose proof (clamp_between lo hi x); lra
      end.
Qed.

Lemma generateBaseColors_displayable (baseColor harmony : string) (size : nat)
    (channels : RGB.t) (hues : R -> list R) :
  String.prefix "#" baseColor = true -> hexToRgb baseColor = Some channels ->
  colorHarmonies harmony = Some hues ->
  exists colors,
    generateBaseColors baseColor harmony size = Normal colors
    /\ length colors = size
    /\ Forall displayable colors.
Proof.
  intros Hp Hx Hh.
  destruct (generateBaseColors_spec baseColor harmony size channels hues Hp Hx Hh)
    as (colors & Hcolors & Hlen & _ & Hzero & Hrest).
  exists colors. split; [exact Hcolors |]. split; [exact Hlen |].
  assert (Hbase : displayable
            (mkColorUtil (Some baseColor) (Some channels)
               (Some (rgbToHsl (RGB.r channels) (RGB.g channels)
                        (RGB.b channels))))).
  { apply (new_ColorUtil_displayable baseColor); [exact Hp |].
    apply new_ColorUtil_well_formed; assumption. }
  apply Forall_lookup_2. intros i c Hc.
  assert (Hi : (i < size)%nat)
    by (rewrite <- Hlen; eapply lookup_lt_Some; eassumption).
  destruct i as [| i].
  - rewrite Hzero in Hc by lia. injection Hc as <-. exact Hbase.
  - destruct (Hrest (S i)) as (c' & Hc' & Hgen); [lia |].
    rewrite Hc in Hc'. injection Hc' as <-.
    refine (generateColorFromHarmony_displayable _ _ _ _ _ _ Hbase _ _ Hgen);
      [lia |].
    destruct Hbase as (o & _ & _ & [= <-] & _ & _ & (Hrange & _) & _).
    exact (colorHarmonies_hues_Forall harmony hues _ Hh Hrange).
Qed.

(** ** The optimizer keeps colours displayable *)

Lemma findOptimalColor_displayable (this : PaletteGenerator)
    (original background : ColorUtil) (targetRatio upperBound : R)
    (colorIndex totalColors : nat) (c : ColorUtil) :
  displayable original -> well_formed background ->
  (colorIndex < totalColors <= 5)%nat ->
  findOptimalColor this original background targetRatio upperBound
    colorIndex totalColors = Normal c ->
  displayable c.
Proof.
  intros Hd Hbg Hindex Hc.
  destruct (findOptimalColor_in_palette this original background targetRatio
              upperBound colorIndex totalColors
              (displayable_well_formed _ Hd) Hbg Hindex) as (c' & Hc' & Hw).
  rewrite Hc in Hc'. injection Hc' as <-.
  apply (lightness_within_displayable original c 5 95); try assumption; lra.
Qed.

Lemma optimizeColorForBackground_displayable (this : PaletteGenerator)
    (original background : ColorUtil) (targetRatio : R)
    (colorIndex totalColors : nat) (c : ColorUtil) :
  displayable original -> well_formed background ->
  (colorIndex < totalColors <= 5)%nat ->
  optimizeColorForBackground this original background targetRatio
    colorIndex totalColors = Normal c ->
  displayable c.
Proof.
  intros Hd Hbg Hindex. unfold optimizeColorForBackground.
  destruct (getContrastRatio_total original background
              (displayable_well_formed _ Hd) Hbg) as [k0 Hk0].
  rewrite Hk0, bind_Normal. cbv zeta.
  repeat case_decide; try (intros [= <-]; exact Hd);
    apply findOptimalColor_displayable; assumption.
Qed.

Lemma generateOptimizedPalette_displayable (this : PaletteGenerator)
    (baseColors : list ColorUtil) (backgroundColor : ColorUtil)
    (minContrastRatio : R) :
  Forall displayable baseColors -> well_formed backgroundColor ->
  (length baseColors <= 5)%nat ->
  exists optimized,
    generateOptimizedPalette this baseColors backgroundColor minContrastRatio
    = Normal optimized
    /\ length optimized = length baseColors
    /\ Forall displayable optimized.
Proof.
  intros Hd Hbg Hlen.
  destruct (generateOptimizedPalette_total this baseColors backgroundColor
              minContrastRatio (Forall_displayable_well_formed _ Hd) Hbg)
    as (optimized & Hopt & Hlen' & _ & Hslots).
  exists optimized. split; [exact Hopt |]. split; [exact Hlen' |].
  apply Forall_lookup_2. intros i y Hy.
  assert (Hi : (i < length baseColors)%nat)
    by (rewrite <- Hlen'; eapply lookup_lt_Some; eassumption).
  destruct (lookup_lt_is_Some_2 baseColors i Hi) as [x Hx].
  destruct (Hslots i x Hx) as (y' & Hy' & Hcall & _).
  rewrite Hy in Hy'. injection Hy' as <-.
  refine (optimizeColorForBackground_displayable _ _ _ _ _ _ _ _ Hbg _ Hcall).
  - exact (Forall_lookup_1 _ _ _ _ Hd Hx).
  - lia.
Qed.

(** ** Differentiation keeps colours displayable *)

Lemma adjust_loop_displayable (n : nat) (adjustment : R) (originalHsl : HSL.t)
    (backgroundColor : ColorUtil) (minContrastRatio targetLightness : R)
    (searchDirection : R) (found : option ColorUtil) :
  hsl_in_range originalHsl ->
  adjust_loop n adjustment originalHsl backgroundColor minContrastRatio
    targetLightness searchDirection = Normal found ->
  from_option displayable True found.
Proof.
  intros (Hh & Hs & _). revert adjustment.
  induction n as [| n IH]; intros adjustment; cbn [adjust_loop].
  - intros [= <-]. exact I.
  - set (testColor := fromHsl _ _ _).
    destruct (getContrastRatio testColor backgroundColor) as [k | e];
      [| discriminate].
    rewrite bind_Normal. case_decide.
    + intros [= <-]. cbn. subst testColor.
      apply fromHsl_displayable; try assumption.
      pose proof (clamp_between 5 95
                    (targetLightness + searchDirection * adjustment)). lra.
    + apply IH.
Qed.

Lemma adjustColorToTargetLightness_displayable
    (originalColor backgroundColor : ColorUtil)
    (minContrastRatio targetLightness : R) (c : ColorUtil) :
  displayable originalColor -> 0 <= targetLightness <= 100 ->
  adjustColorToTargetLightness originalColor backgroundColor
    minContrastRatio targetLightness = Normal c ->
  displayable c.
Proof.
  intros Hd Ht. pose proof Hd as (o & _ & _ & Ho & _ & _ & Hrange & _).
  unfold adjustColorToTargetLightness. rewrite Ho. cbn [deref].
  rewrite bind_Normal.
  set (testColor := fromHsl _ _ _).
  destruct (getContrastRatio testColor backgroundColor) as [k | e];
    [| discriminate].
  rewrite bind_Normal. case_decide.
  - intros [= <-]. subst testColor. destruct Hrange as (Hh & Hs & _).
    apply fromHsl_displayable; assumption.
  - destruct (getLuminance backgroundColor) as [lum | e]; [| discriminate].
    rewrite bind_Normal. cbv zeta.
    destruct (adjust_loop 5 5 o backgroundColor minContrastRatio targetLightness
                (if bool_decide (lum > 0.5) then -1 else 1)) as [found | e]
      eqn:Hloop; [| discriminate].
    rewrite bind_Normal.
    pose proof (adjust_loop_displayable _ _ _ _ _ _ _ _ Hrange Hloop) as Hfound.
    destruct found as [c' |]; intros [= <-]; [exact Hfound | exact Hd].
Qed.

Lemma getOptimalLightnessDistribution_range (n : nat) (isLightBackground : bool) :
  Forall (fun t => 0 <= t <= 100)
    (getOptimalLightnessDistribution n isLightBackground).
Proof.
  unfold getOptimalLightnessDistribution.
  destruct isLightBackground; case_decide; repeat constructor; lra.
Qed.

Lemma distributeColorsOptimally_displayable (palette : list ColorUtil)
    (backgroundColor : ColorUtil) (minContrastRatio minLightnessDiff : R) :
  Forall displayable palette -> well_formed backgroundColor ->
  (length palette <= 5)%nat ->
  exists result,
    distributeColorsOptimally palette backgroundColor minContrastRatio
      minLightnessDiff = Normal result
    /\ length result = length palette
    /\ Forall displayable result.
Proof.
  intros Hd Hbg Hlen.
  destruct (distributeColorsOptimally_spec palette backgroundColor
              minContrastRatio minLightnessDiff
              (Forall_displayable_well_formed _ Hd) Hbg Hlen)
    as (lum & result & _ & Hres & Hlen' & _ & Hslots).
  exists result. split; [exact Hres |]. split; [exact Hlen' |].
  apply Forall_lookup_2. intros i y Hy.
  assert (Hi : (i < length palette)%nat)
    by (rewrite <- Hlen'; eapply lookup_lt_Some; eassumption).
  destruct (lookup_lt_is_Some_2 palette i Hi) as [x Hx].
  destruct (Hslots i x Hx) as (y' & t & Hy' & Ht & Hcall & _).
  rewrite Hy in Hy'. injection Hy' as <-.
  refine (adjustColorToTargetLightness_displayable _ _ _ _ _ _ _ Hcall).
  - exact (Forall_lookup_1 _ _ _ _ Hd Hx).
  - exact (Forall_lookup_1 _ _ _ _
             (getOptimalLightnessDistribution_range _ _) Ht).
Qed.

Lemma adjustSaturationForDifferentiation_displayable
    (palette : list ColorUtil) :
  Forall displayable palette ->
  exists result,
    adjustSaturationForDifferentiation palette 20 = Normal result
    /\ length result = length palette
    /\ Forall displayable result.
Proof.
  intros Hd. unfold adjustSaturationForDifferentiation.
  match goal with
  | |- context [collect_pairs palette ?similar] =>
      destruct (collect_pairs_spec palette similar)
        as [pairs [Hpairs Hgood]];
      [| exact (Forall_displayable_well_formed _ Hd) |]
  end.
  { intros c1 c2 [_ [o1 Ho1]] [_ [o2 Ho2]]. rewrite Ho1, Ho2.
    eexists. reflexivity. }
  rewrite Hpairs, bind_Normal.
  apply (for_each_invariant
           (fun current => length current = length palette
                           /\ Forall displayable current)).
  - split; [reflexivity | assumption].
  - intros [i j] current Hin [Hlen Hdc].
    pose proof (proj1 (Forall_forall _ _) Hgood _ Hin) as Hij. cbn in Hij.
    destruct (lookup_lt_is_Some_2 current i) as [c1 Hc1]; [lia |].
    destruct (lookup_lt_is_Some_2 current j) as [c2 Hc2]; [lia |].
    destruct (Forall_lookup_1 _ _ _ _ Hdc Hc1)
      as (o1 & _ & _ & Ho1 & _ & _ & (_ & Hs1 & _) & _).
    destruct (Forall_lookup_1 _ _ _ _ Hdc Hc2)
      as (o2 & _ & _ & Ho2 & _ & _ & (Hh2 & Hs2 & Hl2) & _).
    cbn [fst snd]. rewrite Hc1, Hc2. cbn [deref]. rewrite !bind_Normal.
    rewrite Ho2, Ho1. cbn [deref]. rewrite !bind_Normal.
    eexists. split; [reflexivity |].
    split; [rewrite length_insert; assumption |].
    apply Forall_insert; [assumption |].
    apply fromHsl_displayable; try assumption.
    case_decide; unfold Rmin, Rmax; destruct (Rle_dec _ _); lra.
Qed.

Lemma try_directions_displayable (directions : list R) (originalHsl : HSL.t)
    (backgroundColor : ColorUtil) (minContrastRatio maxHueAdjustment : R)
    (found : option ColorUtil) :
  hsl_in_range originalHsl -> 0 <= maxHueAdjustment <= 360 ->
  Forall (fun direction => -1 <= direction <= 1) directions ->
  try_directions directions originalHsl backgroundColor minContrastRatio
    maxHueAdjustment = Normal found ->
  from_option displayable True found.
Proof.
  intros (Hh & Hs & Hl) Hmax Hdirs. revert found.
  induction Hdirs as [| direction rest Hdir Hrest IH]; intros found;
    cbn [try_directions].
  - intros [= <-]. exact I.
  - set (testColor := fromHsl _ _ _).
    destruct (getContrastRatio testColor backgroundColor) as [k | e];
      [| discriminate].
    rewrite bind_Normal. case_decide.
    + intros [= <-]. cbn. subst testColor.
      apply fromHsl_displayable; try assumption.
      apply js_rem_360_sign. nra.
    + apply IH.
Qed.

Lemma applyMinimalHueAdjustments_displayable (palette : list ColorUtil)
    (backgroundColor : ColorUtil) (minContrastRatio : R) :
  Forall displayable palette -> well_formed backgroundColor ->
  exists result,
    applyMinimalHueAdjustments palette backgroundColor minContrastRatio 10
    = Normal result
    /\ length result = length palette
    /\ Forall displayable result.
Proof.
  intros Hd Hbg. unfold applyMinimalHueAdjustments.
  match goal with
  | |- context [collect_pairs palette ?similar] =>
      destruct (collect_pairs_spec palette similar)
        as [pairs [Hpairs Hgood]];
      [| exact (Forall_displayable_well_formed _ Hd) |]
  end.
  { intros c1 c2 [_ [o1 Ho1]] [_ [o2 Ho2]]. rewrite Ho1, Ho2.
    eexists. reflexivity. }
  rewrite Hpairs, bind_Normal.
  apply (for_each_invariant
           (fun current => length current = length palette
                           /\ Forall displayable current)).
  - split; [reflexivity | assumption].
  - intros [i j] current Hin [Hlen Hdc].
    pose proof (proj1 (Forall_forall _ _) Hgood _ Hin) as Hij. cbn in Hij.
    destruct (lookup_lt_is_Some_2 current j) as [c2 Hc2]; [lia |].
    destruct (Forall_lookup_1 _ _ _ _ Hdc Hc2)
      as (o2 & _ & _ & Ho2 & _ & _ & Hrange & _).
    cbn [fst snd]. rewrite Hc2. cbn [deref]. rewrite !bind_Normal.
    rewrite Ho2. cbn [deref]. rewrite !bind_Normal.
    destruct (try_directions_spec [1; -1] o2 backgroundColor minContrastRatio
                10 Hbg) as [found [Hfound _]].
    rewrite Hfound, bind_Normal.
    pose proof (try_directions_displayable [1; -1] o2 backgroundColor
                  minContrastRatio 10 found Hrange ltac:(lra)
                  ltac:(repeat constructor; lra) Hfound) as Hshown.
    destruct found as [c |].
    + eexists. split; [reflexivity |].
      split; [rewrite length_insert; assumption |].
      apply Forall_insert; assumption.
    + eexists. split; [reflexivity |]. split; assumption.
Qed.

Lemma monochromatic_ladder_range (n : nat) :
  Forall (fun t => 10 <= t <= 90) (monochromatic_ladder n).
Proof. unfold monochromatic_ladder. case_decide; repeat constructor; lra. Qed.

Lemma enhanceMonochromaticDifferentiation_displayable (this : PaletteGenerator)
    (palette : list ColorUtil) (backgroundColor : ColorUtil)
    (minContrastRatio : R) :
  Forall displayable palette -> well_formed backgroundColor ->
  (0 < length palette <= 5)%nat ->
  exists result,
    enhanceMonochromaticDifferentiation this palette backgroundColor
      minContrastRatio = Normal result
    /\ length result = length palette
    /\ Forall displayable result.
Proof.
  intros Hd Hbg [Hpos Hlen].
  destruct (lookup_lt_is_Some_2 palette 0 Hpos) as [first Hfirst].
  destruct (Forall_lookup_1 _ _ _ _ Hd Hfirst)
    as (firstHsl & _ & _ & HfirstHsl & _ & _ & (Hfh & _) & _).
  destruct (enhanceMonochromaticDifferentiation_spec this palette
              backgroundColor minContrastRatio first firstHsl
              (Forall_displayable_well_formed _ Hd) Hbg Hlen Hfirst HfirstHsl)
    as (lum & result & _ & Hres & Hlen' & _ & Hslots).
  exists result. split; [exact Hres |]. split; [exact Hlen' |].
  apply Forall_lookup_2. intros i y Hy.
  assert (Hi : (i < length palette)%nat)
    by (rewrite <- Hlen'; eapply lookup_lt_Some; eassumption).
  destruct (lookup_lt_is_Some_2 palette i Hi) as [x Hx].
  destruct (Hslots i x Hx) as (o & lightness & y' & k & Ho & Hladder & Hy' & Hc).
  rewrite Hy in Hy'. injection Hy' as <-.
  destruct (Forall_lookup_1 _ _ _ _ Hd Hx)
    as (o' & _ & _ & Ho' & _ & _ & (_ & Hs & _) & _).
  rewrite Ho in Ho'. injection Ho' as <-.
  pose proof (Forall_lookup_1 _ _ _ _ (monochromatic_ladder_range _) Hladder)
    as Hlight.
  assert (Hslot : displayable
            (monochromatic_slot (HSL.h firstHsl) (bool_decide (lum > 0.5)) i
               lightness (HSL.s o))).
  { unfold monochromatic_slot. apply fromHsl_displayable.
    - apply js_rem_360_sign. pose proof (pos_INR i). lra.
    - unfold Rmax. destruct (Rle_dec _ _); lra.
    - destruct (bool_decide (lum > 0.5)); lra. }
  cbv zeta in Hc. destruct Hc as [_ [[_ ->] | [_ Hfind]]]; [exact Hslot |].
  refine (findOptimalColor_displayable _ _ _ _ _ _ _ _ Hslot Hbg _ Hfind). lia.
Qed.

Lemma applySimpleDifferentiation_displayable (this : PaletteGenerator)
    (palette : list ColorUtil) (backgroundColor : ColorUtil)
    (minContrastRatio : R) (settings : DifferentiationSettings) :
  Forall displayable palette -> well_formed backgroundColor ->
  (0 < length palette <= 5)%nat ->
  exists result,
    applySimpleDifferentiation this palette backgroundColor minContrastRatio
      settings = Normal result
    /\ length result = length palette
    /\ Forall displayable result.
Proof.
  intros Hd Hbg [Hpos Hlen].
  pose proof (Forall_displayable_well_formed _ Hd) as Hwf.
  destruct (getLuminance_total backgroundColor Hbg) as [lum Hlum].
  destruct (lookup_lt_is_Some_2 palette 0 Hpos) as [first Hfirst].
  destruct (Forall_lookup_1 _ _ _ _ Hwf Hfirst) as [_ [firstHsl HfirstHsl]].
  destruct (every_near_first_spec first firstHsl palette HfirstHsl Hwf)
    as [near [Hnear _]].
  unfold applySimpleDifferentiation. cbv zeta.
  rewrite Hlum, bind_Normal, Hfirst, Hnear, bind_Normal.
  destruct near.
  - apply enhanceMonochromaticDifferentiation_displayable; auto.
  - destruct (distributeColorsOptimally_displayable palette backgroundColor
                minContrastRatio
                (if decide (minLuminanceDifference settings = 0) then 10
                 else minLuminanceDifference settings) Hd Hbg Hlen)
      as (stage1 & Hstage1 & Hlen1 & Hd1).
    rewrite Hstage1, bind_Normal.
    destruct (adjustSaturationForDifferentiation_displayable stage1 Hd1)
      as (stage2 & Hstage2 & Hlen2 & Hd2).
    rewrite Hstage2, bind_Normal.
    destruct (applyMinimalHueAdjustments_displayable stage2 backgroundColor
                minContrastRatio Hd2 Hbg)
      as (stage3 & Hstage3 & Hlen3 & Hd3).
    exists stage3. split; [exact Hstage3 |]. split; [congruence | exact Hd3].
Qed.

(** X8: for a base colour of [#] and six hexadecimal digits and a known
    harmony, [generatePalette] returns three palettes in which every colour
    has all of [hex], [rgb] and [hsl], its hue in [0, 360), its saturation
    and lightness in [0, 100], its channels between 0 and 255, and a [hex]
    text that reads back as the rounded channels; differentiation, enabled
    or not, keeps that. *)
Theorem generatePalette_colors_displayable (this : PaletteGenerator)
    (options : Options) (channels : RGB.t) (hues : R -> list R) :
  well_formed (whiteColor this) -> well_formed (darkBgColor this) ->
  let color := default "#5500AA"%string (opt_baseColor options) in
  String.prefix "#" color = true -> hexToRgb color = Some channels ->
  colorHarmonies (default "triadic"%string (opt_harmonyType options))
  = Some hues ->
  exists palettes,
    (generatePalette this options).1 = Normal palettes
    /\ Forall displayable (base palettes)
    /\ Forall displayable (lightOptimized palettes)
    /\ Forall displayable (darkOptimized palettes).
Proof.
  intros Hw Hdk color Hp Hx Hh.
  destruct (generatePalette_stages this options channels hues Hw Hdk Hp Hx Hh)
    as (colors & light & dark & light' & dark' & Hcolors & Hlight & Hdark
        & Hdiff & Hresult & Hlen & Hsize & Hlenl & Hlend & _).
  cbv zeta in *.
  set (this' := (generatePalette this options).2) in *.
  set (ratio := if decide (default "AA"%string (opt_wcagLevel options)
                           = "AAA"%string) then 7 else 4.5) in *.
  set (settings := default (mkDifferentiationSettings true 15 10)
                     (opt_differentiationSettings options)) in *.
  set (size := validateSize (default (SizeNumber 5) (opt_paletteSize options)))
    in *.
  set (harmony := default "triadic"%string (opt_harmonyType options)) in *.
  fold color in Hcolors.
  destruct (generateBaseColors_displayable color harmony size channels hues
              Hp Hx Hh) as (colors0 & Hcolors0 & _ & Hdc).
  rewrite Hcolors in Hcolors0. injection Hcolors0 as <-.
  destruct (generateOptimizedPalette_displayable this' colors (whiteColor this)
              ratio Hdc Hw ltac:(lia)) as (light0 & Hlight0 & _ & Hdl).
  rewrite Hlight in Hlight0. injection Hlight0 as <-.
  destruct (generateOptimizedPalette_displayable this' colors (darkBgColor this)
              ratio Hdc Hdk ltac:(lia)) as (dark0 & Hdark0 & _ & Hdd).
  rewrite Hdark in Hdark0. injection Hdark0 as <-.
  eexists. split; [exact Hresult |]. cbn [base lightOptimized darkOptimized].
  split; [exact Hdc |].
  destruct (enabled settings).
  - destruct Hdiff as [Hl' Hd'].
    destruct (applySimpleDifferentiation_displayable this' light
                (whiteColor this) ratio settings Hdl Hw ltac:(lia))
      as (l0 & Hl0 & _ & Hdl0).
    rewrite Hl' in Hl0. injection Hl0 as <-.
    destruct (applySimpleDifferentiation_displayable this' dark
                (darkBgColor this) ratio settings Hdd Hdk ltac:(lia))
      as (d0 & Hd0 & _ & Hdd0).
    rewrite Hd' in Hd0. injection Hd0 as <-.
    split; assumption.
  - destruct Hdiff as [-> ->]. split; assumption.
Qed.

Lemma generatePalette_colors_displayable_witness :
  let options := mkOptions None None None None None in
  let hues := fun hue : R =>
    [hue; js_rem (hue + 120) 360; js_rem (hue + 240) 360] in
  well_formed (whiteColor fresh_generator)
  /\ well_formed (darkBgColor fresh_generator)
  /\ String.prefix "#" "#5500AA" = true
  /\ hexToRgb "#5500AA" = Some (RGB.mk 85 0 170)
  /\ colorHarmonies "triadic" = Some hues
  /\ exists palettes,
       (generatePalette fresh_generator options).1 = Normal palettes
       /\ Forall displayable (base palettes)
       /\ Forall displayable (lightOptimized palettes)
       /\ Forall displayable (darkOptimized palettes).
Proof.
  intros options hues.
  split; [apply hex_color_well_formed |].
  split; [apply hex_color_well_formed |].
  split; [reflexivity |]. split; [reflexivity |]. split; [reflexivity |].
  exact (generatePalette_colors_displayable fresh_generator options
           (RGB.mk 85 0 170) hues (hex_color_well_formed _ _ _ _)
           (hex_color_well_formed _ _ _ _) eq_refl eq_refl eq_refl).
Defined.

(** ** The colours derived from the base colour *)

Lemma generateColorFromHarmony_clamped (baseColor : ColorUtil)
    (harmonyHues : list R) (harmony : string) (index totalSize : nat)
    (c : ColorUtil) :
  generateColorFromHarmony baseColor harmonyHues harmony index totalSize
  = Normal c ->
  exists o, hsl c = Some o
    /\ 20 <= HSL.s o <= 95 /\ 10 <= HSL.l o <= 90.
Proof.
  unfold generateColorFromHarmony.
  assert (Hclamp : forall hue saturation lightness,
            exists o,
              hsl (fromHsl hue (Rmax 20 (Rmin 95 saturation))
                     (Rmax 10 (Rmin 90 lightness))) = Some o
              /\ 20 <= HSL.s o <= 95 /\ 10 <= HSL.l o <= 90).
  { intros hue saturation lightness. eexists.
    split; [apply fromHsl_hsl |]. cbn [HSL.s HSL.l].
    pose proof (clamp_between 20 95 saturation).
    pose proof (clamp_between 10 90 lightness). lra. }
  destruct (decide (harmony = "monochromatic"%string)).
  - destruct (hsl baseColor) as [o |]; [| discriminate].
    cbn [deref]. rewrite !bind_Normal. intros [= <-]. apply Hclamp.
  - destruct (harmonyHues !! (index mod length harmonyHues)%nat) as [hue |];
      [| repeat case_decide; discriminate].
    repeat case_decide; rewrite !bind_Normal; intros [= <-]; apply Hclamp.
Qed.

(** X9: whenever [generateBaseColors] returns, every colour after the first
    has a saturation between 20 and 95 and a lightness between 10 and 90,
    whatever the base colour; the first colour is the base colour, which is
    not clamped. *)
Theorem derived_base_colors_clamped (baseColor harmony : string) (size : nat)
    (colors : list ColorUtil) :
  generateBaseColors baseColor harmony size = Normal colors ->
  forall i c, (1 <= i)%nat -> colors !! i = Some c ->
    exists o, hsl c = Some o
      /\ 20 <= HSL.s o <= 95 /\ 10 <= HSL.l o <= 90.
Proof.
  unfold generateBaseColors.
  destruct (try_catch _ _) as [color | e]; [| discriminate].
  rewrite bind_Normal.
  destruct (hsl color) as [o |]; [| discriminate].
  cbn [deref]. rewrite bind_Normal.
  destruct (colorHarmonies harmony) as [hues |]; [| discriminate].
  cbn [deref]. rewrite bind_Normal.
  set (clamped (c : ColorUtil) :=
         exists o, hsl c = Some o
           /\ 20 <= HSL.s o <= 95 /\ 10 <= HSL.l o <= 90).
  assert (Hloop : forall n start done result,
            length done = start ->
            (forall i c, (1 <= i)%nat -> done !! i = Some c -> clamped c) ->
            for_range start n (fun i colors =>
              generatedColor ←
                (if decide (i = 0%nat) then new_ColorUtil baseColor
                 else generateColorFromHarmony color (hues (HSL.h o)) harmony
                        i size);
              Normal (colors ++ [generatedColor])) done = Normal result ->
            forall i c, (1 <= i)%nat -> result !! i = Some c -> clamped c).
  { induction n as [| n IH]; intros start done result Hlen Hdone;
      cbn [for_range].
    - intros [= <-]. exact Hdone.
    - destruct (if decide (start = 0%nat) then _ else _) as [g | e] eqn:Hg;
        [| discriminate].
      rewrite !bind_Normal. apply IH.
      + rewrite length_app. cbn. lia.
      + intros i c Hi Hc.
        destruct (decide (i < length done)%nat) as [Hlt | Hge].
        * rewrite lookup_app_l in Hc by assumption. eauto.
        * rewrite lookup_app_r in Hc by lia.
          destruct (i - length done)%nat as [| k] eqn:Hk; [| discriminate].
          injection Hc as <-.
          rewrite decide_False in Hg by lia.
          exact (generateColorFromHarmony_clamped _ _ _ _ _ _ Hg). }
  intros Hrun. apply (Hloop size 0%nat [] colors eq_refl); [| exact Hrun].
  intros i c _ Hc. discriminate.
Qed.

Lemma derived_base_colors_clamped_witness :
  exists colors,
    generateBaseColors "#ffffff" "tetradic" 5 = Normal colors
    /\ forall i c, (1 <= i)%nat -> colors !! i = Some c ->
         exists o, hsl c = Some o
           /\ 20 <= HSL.s o <= 95 /\ 10 <= HSL.l o <= 90.
Proof.
  destruct (generateBaseColors_spec "#ffffff" "tetradic" 5
              (RGB.mk 255 255 255)
              (fun hue => [hue; js_rem (hue + 90) 360; js_rem (hue + 180) 360;
                           js_rem (hue + 270) 360])
              eq_refl eq_refl eq_refl) as (colors & Hcolors & _).
  exists colors. split; [exact Hcolors |].
  exact (derived_base_colors_clamped "#ffffff" "tetradic" 5 colors Hcolors).
Defined.

(** ** The monochromatic test on generated palettes *)

(** A slot of the base palette whose hue is at least 10 degrees from the
    base hue: slot 2 for the monochromatic harmony, slot 1 for the
    others. *)
Lemma generateColorFromHarmony_far (baseColor : ColorUtil) (o : HSL.t)
    (harmony : string) (hues : R -> list R) (size : nat) (c : ColorUtil) :
  hsl baseColor = Some o -> 0 <= HSL.h o < 360 ->
  colorHarmonies harmony = Some hues ->
  let i := if decide (harmony = "monochromatic"%string) then 2%nat else 1%nat in
  generateColorFromHarmony baseColor (hues (HSL.h o)) harmony i size = Normal c ->
  exists o', hsl c = Some o'
    /\ 10 <= getCircularHueDistance (HSL.h o') (HSL.h o).
Proof.
  intros Ho Hrange Hh i. subst i.
  assert (Hoff : forall k, 0 <= k <= 360 ->
            getCircularHueDistance (js_rem (HSL.h o + k) 360) (HSL.h o)
            = Rmin k (360 - k)).
  { intros k Hk.
    rewrite getCircularHueDistance_comm.
    apply getCircularHueDistance_offset; assumption. }
  destruct (decide (harmony = "monochromatic"%string)) as [-> | Hne].
  - unfold generateColorFromHarmony. rewrite decide_True by reflexivity.
    rewrite Ho. cbn [deref]. rewrite !bind_Normal. intros [= <-].
    eexists. split; [apply fromHsl_hsl |]. cbn [HSL.h].
    change (Z.of_nat 2) with 2%Z.
    replace ((2 - 1) * 10) with 10 by lra.
    rewrite Hoff by lra. unfold Rmin. destruct (Rle_dec _ _); lra.
  - intros Hc. unfold colorHarmonies in Hh.
    repeat case_decide; try discriminate; try contradiction;
      injection Hh as <-;
      (edestruct (generateColorFromHarmony_hue baseColor) as (o' & Ho' & Hhue);
       [exact Hne | | exact Hc |]; [reflexivity |]);
      exists o'; (split; [exact Ho' |]); rewrite Hhue, Hoff by lra;
      unfold Rmin; destruct (Rle_dec _ _); lra.
Qed.

Lemma not_every_near_first (first far : ColorUtil) (firstHsl farHsl : HSL.t)
    (palette : list ColorUtil) :
  Forall well_formed palette -> hsl first = Some firstHsl ->
  far ∈ palette -> hsl far = Some farHsl ->
  5 <= getCircularHueDistance (HSL.h farHsl) (HSL.h firstHsl) ->
  every_near_first (Some first) palette = Normal false.
Proof.
  intros Hwf Hfirst Hin Hfar Hdist.
  destruct (every_near_first_spec first firstHsl palette Hfirst Hwf)
    as [near [Hnear Hiff]].
  destruct near; [| assumption].
  exfalso. destruct Hiff as [Hall _].
  specialize (Hall eq_refl far farHsl Hin Hfar). lra.
Qed.

Lemma optimized_palette_not_monochromatic (this : PaletteGenerator)
    (colors optimized : list ColorUtil) (backgroundColor : ColorUtil)
    (minContrastRatio : R) (first far : ColorUtil) (firstHsl farHsl : HSL.t)
    (i : nat) :
  Forall well_formed colors -> well_formed backgroundColor ->
  generateOptimizedPalette this colors backgroundColor minContrastRatio
  = Normal optimized ->
  colors !! 0%nat = Some first -> hsl first = Some firstHsl ->
  colors !! i = Some far -> hsl far = Some farHsl ->
  5 <= getCircularHueDistance (HSL.h farHsl) (HSL.h firstHsl) ->
  every_near_first (optimized !! 0%nat) optimized = Normal false.
Proof.
  intros Hwf Hbg Hopt Hfirst HfirstHsl Hfar HfarHsl Hdist.
  destruct (generateOptimizedPalette_total this colors backgroundColor
              minContrastRatio Hwf Hbg)
    as (optimized' & Hopt' & _ & Hwf' & Hslots).
  rewrite Hopt in Hopt'. injection Hopt' as <-.
  destruct (Hslots 0%nat first Hfirst) as (y0 & Hy0 & _ & Hv0).
  destruct (Hslots i far Hfar) as (yi & Hyi & _ & Hvi).
  destruct (lightness_variant_hsl first y0 firstHsl HfirstHsl Hv0)
    as (o0 & Ho0 & Hh0 & _).
  destruct (lightness_variant_hsl far yi farHsl HfarHsl Hvi)
    as (oi & Hoi & Hhi & _).
  rewrite Hy0.
  apply (not_every_near_first y0 yi o0 oi); try assumption.
  - eapply list_elem_of_lookup_2; eassumption.
  - rewrite Hhi, Hh0. exact Hdist.
Qed.

(** X10: the palettes [generatePalette] hands to the differentiation pass
    never pass its monochromatic test: every harmony, the monochromatic one
    included, puts a colour at 10 degrees or more from the base hue, and
    the optimizer keeps hues.  From [generatePalette] the differentiation
    pass therefore always takes the three-stage path. *)
Theorem generated_palettes_fail_monochromatic_test (this : PaletteGenerator)
    (options : Options) (channels : RGB.t) (hues : R -> list R) :
  well_formed (whiteColor this) -> well_formed (darkBgColor this) ->
  let color := default "#5500AA"%string (opt_baseColor options) in
  let size := validateSize (default (SizeNumber 5) (opt_paletteSize options)) in
  let harmony := default "triadic"%string (opt_harmonyType options) in
  let minContrastRatio :=
    if decide (default "AA"%string (opt_wcagLevel options) = "AAA"%string)
    then 7 else 4.5 in
  let this' := (generatePalette this options).2 in
  String.prefix "#" color = true -> hexToRgb color = Some channels ->
  colorHarmonies harmony = Some hues ->
  exists colors light dark,
    generateBaseColors color harmony size = Normal colors
    /\ generateOptimizedPalette this' colors (whiteColor this) minContrastRatio
       = Normal light
    /\ generateOptimizedPalette this' colors (darkBgColor this) minContrastRatio
       = Normal dark
    /\ every_near_first (light !! 0%nat) light = Normal false
    /\ every_near_first (dark !! 0%nat) dark = Normal false.
Proof.
  intros Hw Hdk color size harmony minContrastRatio this' Hp Hx Hh.
  destruct (generatePalette_stages this options channels hues Hw Hdk Hp Hx Hh)
    as (colors & light & dark & _ & _ & Hcolors & Hlight & Hdark & _ & _
        & Hlen & _ & _ & _ & _ & _ & Hwf & _).
  fold color size harmony minContrastRatio this' in Hcolors, Hlight, Hdark, Hlen.
  exists colors, light, dark.
  split; [exact Hcolors |]. split; [exact Hlight |]. split; [exact Hdark |].
  destruct (generateBaseColors_spec color harmony size channels hues Hp Hx Hh)
    as (colors' & Hcolors' & _ & _ & Hzero & Hrest).
  rewrite Hcolors in Hcolors'. injection Hcolors' as <-.
  assert (Hsize : (3 <= size)%nat)
    by (subst size; destruct (validateSize_cases
          (default (SizeNumber 5) (opt_paletteSize options))) as [-> | ->]; lia).
  set (first := mkColorUtil (Some color) (Some channels)
                  (Some (rgbToHsl (RGB.r channels) (RGB.g channels)
                           (RGB.b channels)))) in *.
  set (o := rgbToHsl (RGB.r channels) (RGB.g channels) (RGB.b channels)) in *.
  assert (Hrange : 0 <= HSL.h o < 360).
  { destruct (hexToRgb_in_gamut color channels Hx) as (Hr & Hg & Hb).
    apply rgbToHsl_range; assumption. }
  set (i := if decide (harmony = "monochromatic"%string) then 2%nat else 1%nat).
  destruct (Hrest i) as (far & Hfar & Hgen);
    [subst i; case_decide; lia |].
  destruct (generateColorFromHarmony_far first o harmony hues size far
              eq_refl Hrange Hh Hgen) as (farHsl & HfarHsl & Hdist).
  assert (Hfirst : colors !! 0%nat = Some first) by (apply Hzero; lia).
  assert (Hfive : 5 <= getCircularHueDistance (HSL.h farHsl) (HSL.h o)) by lra.
  split.
  - exact (optimized_palette_not_monochromatic this' colors light
             (whiteColor this) minContrastRatio first far o farHsl i
             Hwf Hw Hlight Hfirst eq_refl Hfar HfarHsl Hfive).
  - exact (optimized_palette_not_monochromatic this' colors dark
             (darkBgColor this) minContrastRatio first far o farHsl i
             Hwf Hdk Hdark Hfirst eq_refl Hfar HfarHsl Hfive).
Qed.

Lemma generated_palettes_fail_monochromatic_test_witness :
  let options :=
    mkOptions (Some (SizeNumber 3)) (Some "AA"%string)
      (Some "monochromatic"%string) (Some "#2c3e50"%string) None in
  let hues := fun hue : R => [hue; hue; hue; hue; hue] in
  let this' := (generatePalette fresh_generator options).2 in
  let size := validateSize (SizeNumber 3) in
  let minContrastRatio :=
    if decide ("AA"%string = "AAA"%string) then 7 else 4.5 in
  well_formed (whiteColor fresh_generator)
  /\ well_formed (darkBgColor fresh_generator)
  /\ String.prefix "#" "#2c3e50" = true
  /\ hexToRgb "#2c3e50" = Some (RGB.mk 44 62 80)
  /\ colorHarmonies "monochromatic" = Some hues
  /\ exists colors light dark,
       generateBaseColors "#2c3e50" "monochromatic" size = Normal colors
       /\ generateOptimizedPalette this' colors (whiteColor fresh_generator)
            minContrastRatio = Normal light
       /\ generateOptimizedPalette this' colors (darkBgColor fresh_generator)
            minContrastRatio = Normal dark
       /\ every_near_first (light !! 0%nat) light = Normal false
       /\ every_near_first (dark !! 0%nat) dark = Normal false.
Proof.
  intros options hues this' size minContrastRatio.
  split; [apply hex_color_well_formed |].
  split; [apply hex_color_well_formed |].
  split; [reflexivity |]. split; [reflexivity |]. split; [reflexivity |].
  exact (generated_palettes_fail_monochromatic_test fresh_generator options
           (RGB.mk 44 62 80) hues (hex_color_well_formed _ _ _ _)
           (hex_color_well_formed _ _ _ _) eq_refl eq_refl eq_refl).
Defined.

(** ** Optimization, and differentiation disabled *)

(** X7: the optimizer returns, for every colour of a palette, the colour
    itself or a lightness variant of it whose contrast against the
    background is at least that of the colour it was given: optimization
    never lowers a contrast. *)
Theorem optimizer_never_lowers_contrast (this : PaletteGenerator)
    (baseColors : list ColorUtil) (backgroundColor : ColorUtil)
    (minContrastRatio : R) :
  Forall well_formed baseColors -> well_formed backgroundColor ->
  exists optimized,
    generateOptimizedPalette this baseColors backgroundColor minContrastRatio
    = Normal optimized
    /\ length optimized = length baseColors
    /\ forall i x, baseColors !! i = Some x ->
         exists y k0 k,
           optimized !! i = Some y
           /\ lightness_variant x y
           /\ getContrastRatio x backgroundColor = Normal k0
           /\ getContrastRatio y backgroundColor = Normal k
           /\ k0 <= k.
Proof.
  intros Hwf Hbg.
  destruct (generateOptimizedPalette_total this baseColors backgroundColor
              minContrastRatio Hwf Hbg)
    as (optimized & Hopt & Hlen & _ & Hslots).
  exists optimized. split; [exact Hopt |]. split; [exact Hlen |].
  intros i x Hx.
  destruct (Hslots i x Hx) as (y & Hy & Hcall & Hv).
  destruct (optimizeColorForBackground_contrast this x backgroundColor
              minContrastRatio i (length baseColors)
              (Forall_lookup_1 _ _ _ _ Hwf Hx) Hbg)
    as (c & k0 & k & Hc & Hk0 & Hk & Hle).
  rewrite Hcall in Hc. injection Hc as <-.
  exists y, k0, k. auto.
Qed.

Lemma optimizer_never_lowers_contrast_witness :
  Forall well_formed [darkBg; white; black] /\ well_formed white
  /\ exists optimized,
       generateOptimizedPalette fresh_generator [darkBg; white; black] white 7
       = Normal optimized
       /\ length optimized = length [darkBg; white; black]
       /\ forall i x, [darkBg; white; black] !! i = Some x ->
            exists y k0 k,
              optimized !! i = Some y
              /\ lightness_variant x y
              /\ getContrastRatio x white = Normal k0
              /\ getContrastRatio y white = Normal k
              /\ k0 <= k.
Proof.
  assert (Hwf : Forall well_formed [darkBg; white; black])
    by (repeat constructor; apply hex_color_well_formed).
  split; [exact Hwf |]. split; [apply hex_color_well_formed |].
  exact (optimizer_never_lowers_contrast fresh_generator
           [darkBg; white; black] white 7 Hwf (hex_color_well_formed _ _ _ _)).
Defined.

(** X11: with differentiation disabled, the light and the dark palette that
    [generatePalette] returns are the outputs of the optimizer on the base
    palette, and every colour of them is the base colour of its slot or a
    lightness variant of it. *)
Theorem disabled_differentiation_returns_optimizer_output
    (this : PaletteGenerator) (options : Options) (channels : RGB.t)
    (hues : R -> list R) (settings : DifferentiationSettings) :
  well_formed (whiteColor this) -> well_formed (darkBgColor this) ->
  let color := default "#5500AA"%string (opt_baseColor options) in
  let minContrastRatio :=
    if decide (default "AA"%string (opt_wcagLevel options) = "AAA"%string)
    then 7 else 4.5 in
  let this' := (generatePalette this options).2 in
  String.prefix "#" color = true -> hexToRgb color = Some channels ->
  colorHarmonies (default "triadic"%string (opt_harmonyType options))
  = Some hues ->
  opt_differentiationSettings options = Some settings ->
  enabled settings = false ->
  exists palettes,
    (generatePalette this options).1 = Normal palettes
    /\ generateOptimizedPalette this' (base palettes) (whiteColor this)
         minContrastRatio = Normal (lightOptimized palettes)
    /\ generateOptimizedPalette this' (base palettes) (darkBgColor this)
         minContrastRatio = Normal (darkOptimized palettes)
    /\ forall i x, base palettes !! i = Some x ->
         exists y z,
           lightOptimized palettes !! i = Some y
           /\ darkOptimized palettes !! i = Some z
           /\ lightness_variant x y /\ lightness_variant x z.
Proof.
  intros Hw Hdk color minContrastRatio this' Hp Hx Hh Hsettings Hoff.
  destruct (generatePalette_stages this options channels hues Hw Hdk Hp Hx Hh)
    as (colors & light & dark & light' & dark' & _ & Hlight & Hdark & Hdiff
        & Hresult & _ & _ & _ & _ & _ & _ & Hwf & _).
  cbv zeta in Hdiff. rewrite Hsettings in Hdiff.
  change (default _ (Some settings)) with settings in Hdiff.
  rewrite Hoff in Hdiff. destruct Hdiff as [-> ->].
  fold minContrastRatio this' in Hlight, Hdark.
  exists (mkGeneratedPalettes colors light dark).
  split; [exact Hresult |]. cbn [base lightOptimized darkOptimized].
  split; [exact Hlight |]. split; [exact Hdark |].
  intros i x Hi.
  destruct (generateOptimizedPalette_total this' colors (whiteColor this)
              minContrastRatio Hwf Hw) as (light0 & Hlight0 & _ & _ & Hslots).
  rewrite Hlight in Hlight0. injection Hlight0 as <-.
  destruct (generateOptimizedPalette_total this' colors (darkBgColor this)
              minContrastRatio Hwf Hdk) as (dark0 & Hdark0 & _ & _ & Hslotsd).
  rewrite Hdark in Hdark0. injection Hdark0 as <-.
  destruct (Hslots i x Hi) as (y & Hy & _ & Hvy).
  destruct (Hslotsd i x Hi) as (z & Hz & _ & Hvz).
  exists y, z. auto.
Qed.

Lemma disabled_differentiation_returns_optimizer_output_witness :
  let settings := mkDifferentiationSettings false 15 10 in
  let options :=
    mkOptions (Some (SizeNumber 3)) (Some "AAA"%string)
      (Some "complementary"%string) (Some "#2c3e50"%string) (Some settings) in
  let hues := fun hue : R => [hue; js_rem (hue + 180) 360] in
  let this' := (generatePalette fresh_generator options).2 in
  let minContrastRatio :=
    if decide ("AAA"%string = "AAA"%string) then 7 else 4.5 in
  well_formed (whiteColor fresh_generator)
  /\ well_formed (darkBgColor fresh_generator)
  /\ String.prefix "#" "#2c3e50" = true
  /\ hexToRgb "#2c3e50" = Some (RGB.mk 44 62 80)
  /\ colorHarmonies "complementary" = Some hues
  /\ opt_differentiationSettings options = Some settings
  /\ enabled settings = false
  /\ exists palettes,
       (generatePalette fresh_generator options).1 = Normal palettes
       /\ generateOptimizedPalette this' (base palettes)
            (whiteColor fresh_generator) minContrastRatio
          = Normal (lightOptimized palettes)
       /\ generateOptimizedPalette this' (base palettes)
            (darkBgColor fresh_generator) minContrastRatio
          = Normal (darkOptimized palettes)
       /\ forall i x, base palettes !! i = Some x ->
            exists y z,
              lightOptimized palettes !! i = Some y
              /\ darkOptimized palettes !! i = Some z
              /\ lightness_variant x y /\ lightness_variant x z.
Proof.
  intros settings options hues this' minContrastRatio.
  split; [apply hex_color_well_formed |].
  split; [apply hex_color_well_formed |].
  split; [reflexivity |]. split; [reflexivity |]. split; [reflexivity |].
  split; [reflexivity |]. split; [reflexivity |].
  exact (disabled_differentiation_returns_optimizer_output fresh_generator
           options (RGB.mk 44 62 80) hues settings
           (hex_color_well_formed _ _ _ _) (hex_color_well_formed _ _ _ _)
           eq_refl eq_refl eq_refl eq_refl eq_refl).
Defined.

(** ** Stages 2 and 3 change one component *)

(** A loop that replaces one slot at a time by a colour related to the one
    the slot holds relates the palette slot by slot, when the relation is
    transitive. *)
Lemma slots_related_insert (R : ColorUtil -> ColorUtil -> Prop)
    (palette current : list ColorUtil) (j : nat) (c c' : ColorUtil) :
  (forall x y z, R x y -> R y z -> R x z) ->
  Forall2 R palette current -> current !! j = Some c -> R c c' ->
  Forall2 R palette (<[j := c']> current).
Proof.
  intros Htrans Hall Hc Hr.
  apply Forall2_same_length_lookup. split.
  - rewrite length_insert. eapply Forall2_length; eassumption.
  - intros i x y Hx Hy.
    destruct (decide (i = j)) as [-> | Hne].
    + rewrite list_lookup_insert_eq in Hy
        by (eapply lookup_lt_Some; eassumption).
      injection Hy as <-.
      exact (Htrans _ _ _ (Forall2_lookup_lr _ _ _ _ _ _ Hall Hx Hc) Hr).
    + rewrite list_lookup_insert_ne in Hy by congruence.
      exact (Forall2_lookup_lr _ _ _ _ _ _ Hall Hx Hy).
Qed.

Lemma same_hue_and_lightness_trans (x y z : ColorUtil) :
  same_hue_and_lightness x y -> same_hue_and_lightness y z ->
  same_hue_and_lightness x z.
Proof.
  intros (o1 & o2 & H1 & H2 & Hh & Hl) (o2' & o3 & H2' & H3 & Hh' & Hl').
  exists o1, o3. rewrite H2 in H2'. injection H2' as <-.
  repeat split; congruence.
Qed.

Lemma same_saturation_and_lightness_trans (x y z : ColorUtil) :
  same_saturation_and_lightness x y -> same_saturation_and_lightness y z ->
  same_saturation_and_lightness x z.
Proof.
  intros (o1 & o2 & H1 & H2 & Hh & Hl) (o2' & o3 & H2' & H3 & Hh' & Hl').
  exists o1, o3. rewrite H2 in H2'. injection H2' as <-.
  repeat split; congruence.
Qed.

Lemma Forall2_well_formed_refl (R : ColorUtil -> ColorUtil -> Prop)
    (palette : list ColorUtil) :
  (forall c, well_formed c -> R c c) ->
  Forall well_formed palette -> Forall2 R palette palette.
Proof.
  intros Hrefl Hwf. induction Hwf; constructor; auto.
Qed.

(** X12: the saturation stage returns a palette of the same length in
    which every colour has the hue and the lightness of the colour it
    replaces, and whose first colour is untouched: the stage changes
    saturations only. *)
Theorem adjustSaturationForDifferentiation_changes_saturation_only
    (palette : list ColorUtil) (minSaturationDiff : R) :
  Forall well_formed palette ->
  exists result,
    adjustSaturationForDifferentiation palette minSaturationDiff
    = Normal result
    /\ Forall2 same_hue_and_lightness palette result
    /\ result !! 0%nat = palette !! 0%nat.
Proof.
  intros Hwf. unfold adjustSaturationForDifferentiation.
  match goal with
  | |- context [collect_pairs palette ?similar] =>
      destruct (collect_pairs_spec palette similar)
        as [pairs [Hpairs Hgood]]; [| assumption |]
  end.
  { intros c1 c2 [_ [o1 Ho1]] [_ [o2 Ho2]]. rewrite Ho1, Ho2.
    eexists. reflexivity. }
  rewrite Hpairs, bind_Normal.
  apply (for_each_invariant
           (fun current => Forall2 same_hue_and_lightness palette current
                           /\ current !! 0%nat = palette !! 0%nat)).
  - split; [| reflexivity].
    apply Forall2_well_formed_refl; [| assumption].
    intros c [_ [o Ho]]. exists o, o. auto.
  - intros [i j] current Hin [Hrel Hfirst].
    pose proof (proj1 (Forall_forall _ _) Hgood _ Hin) as Hij. cbn in Hij.
    pose proof (Forall2_length _ _ _ Hrel) as Hlen.
    destruct (lookup_lt_is_Some_2 current i) as [c1 Hc1]; [lia |].
    destruct (lookup_lt_is_Some_2 current j) as [c2 Hc2]; [lia |].
    destruct (lookup_lt_is_Some_2 palette i) as [p1 Hp1]; [lia |].
    destruct (lookup_lt_is_Some_2 palette j) as [p2 Hp2]; [lia |].
    destruct (Forall2_lookup_lr _ _ _ _ _ _ Hrel Hp1 Hc1)
      as (_ & o1 & _ & Ho1 & _).
    destruct (Forall2_lookup_lr _ _ _ _ _ _ Hrel Hp2 Hc2)
      as (_ & o2 & _ & Ho2 & _).
    cbn [fst snd]. rewrite Hc1, Hc2. cbn [deref]. rewrite !bind_Normal.
    rewrite Ho2, Ho1. cbn [deref]. rewrite !bind_Normal.
    eexists. split; [reflexivity |]. split.
    + eapply slots_related_insert;
        [exact same_hue_and_lightness_trans | exact Hrel | exact Hc2 |].
      eexists o2, _. split; [exact Ho2 |].
      split; [apply fromHsl_hsl |]. split; reflexivity.
    + rewrite list_lookup_insert_ne by lia. assumption.
Qed.

Lemma adjustSaturationForDifferentiation_changes_saturation_only_witness :
  let palette := [fromHsl 200 50 40; fromHsl 90 55 45; fromHsl 300 60 50] in
  Forall well_formed palette
  /\ exists result,
       adjustSaturationForDifferentiation palette 20 = Normal result
       /\ Forall2 same_hue_and_lightness palette result
       /\ result !! 0%nat = palette !! 0%nat.
Proof.
  intros palette.
  assert (Hwf : Forall well_formed palette)
    by (repeat constructor; apply fromHsl_well_formed).
  split; [exact Hwf |].
  exact (adjustSaturationForDifferentiation_changes_saturation_only palette 20
           Hwf).
Defined.

Lemma try_directions_same_saturation_and_lightness (directions : list R)
    (originalHsl : HSL.t) (backgroundColor : ColorUtil)
    (minContrastRatio maxHueAdjustment : R) (testColor : ColorUtil) :
  try_directions directions originalHsl backgroundColor minContrastRatio
    maxHueAdjustment = Normal (Some testColor) ->
  exists direction,
    direction ∈ directions
    /\ testColor
       = fromHsl (js_rem (HSL.h originalHsl + direction * maxHueAdjustment
                          + 360) 360)
           (HSL.s originalHsl) (HSL.l originalHsl).
Proof.
  induction directions as [| direction rest IH]; cbn [try_directions].
  - discriminate.
  - set (candidate := fromHsl _ _ _).
    destruct (getContrastRatio candidate backgroundColor) as [k | e];
      [| discriminate].
    rewrite bind_Normal. case_decide.
    + intros [= <-]. exists direction. split; [left | reflexivity].
    + intros Hrest. destruct (IH Hrest) as (d & Hd & Heq).
      exists d. split; [right; assumption | assumption].
Qed.

(** X13: the hue stage returns a palette of the same length in which
    every colour has the saturation and the lightness of the colour it
    replaces, and whose first colour is untouched: the stage changes hues
    only. *)
Theorem applyMinimalHueAdjustments_changes_hue_only
    (palette : list ColorUtil) (backgroundColor : ColorUtil)
    (minContrastRatio maxHueAdjustment : R) :
  Forall well_formed palette -> well_formed backgroundColor ->
  exists result,
    applyMinimalHueAdjustments palette backgroundColor minContrastRatio
      maxHueAdjustment = Normal result
    /\ Forall2 same_saturation_and_lightness palette result
    /\ result !! 0%nat = palette !! 0%nat.
Proof.
  intros Hwf Hbg. unfold applyMinimalHueAdjustments.
  match goal with
  | |- context [collect_pairs palette ?similar] =>
      destruct (collect_pairs_spec palette similar)
        as [pairs [Hpairs Hgood]]; [| assumption |]
  end.
  { intros c1 c2 [_ [o1 Ho1]] [_ [o2 Ho2]]. rewrite Ho1, Ho2.
    eexists. reflexivity. }
  rewrite Hpairs, bind_Normal.
  apply (for_each_invariant
           (fun current => Forall2 same_saturation_and_lightness palette current
                           /\ current !! 0%nat = palette !! 0%nat)).
  - split; [| reflexivity].
    apply Forall2_well_formed_refl; [| assumption].
    intros c [_ [o Ho]]. exists o, o. auto.
  - intros [i j] current Hin [Hrel Hfirst].
    pose proof (proj1 (Forall_forall _ _) Hgood _ Hin) as Hij. cbn in Hij.
    pose proof (Forall2_length _ _ _ Hrel) as Hlen.
    destruct (lookup_lt_is_Some_2 current j) as [c2 Hc2]; [lia |].
    destruct (lookup_lt_is_Some_2 palette j) as [p2 Hp2]; [lia |].
    destruct (Forall2_lookup_lr _ _ _ _ _ _ Hrel Hp2 Hc2)
      as (_ & o2 & _ & Ho2 & _).
    cbn [fst snd]. rewrite Hc2. cbn [deref]. rewrite !bind_Normal.
    rewrite Ho2. cbn [deref]. rewrite !bind_Normal.
    destruct (try_directions_spec [1; -1] o2 backgroundColor minContrastRatio
                maxHueAdjustment Hbg) as (found & Hfound & _).
    rewrite Hfound, bind_Normal.
    destruct found as [testColor |].
    + eexists. split; [reflexivity |]. split.
      * eapply slots_related_insert;
          [exact same_saturation_and_lightness_trans | exact Hrel
          | exact Hc2 |].
        destruct (try_directions_same_saturation_and_lightness _ _ _ _ _ _
                    Hfound) as (d & _ & ->).
        eexists o2, _. split; [exact Ho2 |].
        split; [apply fromHsl_hsl |]. split; reflexivity.
      * rewrite list_lookup_insert_ne by lia. assumption.
    + eexists. split; [reflexivity |]. split; assumption.
Qed.

Lemma applyMinimalHueAdjustments_changes_hue_only_witness :
  let palette := [fromHsl 200 50 40; fromHsl 205 55 45; fromHsl 300 60 50] in
  Forall well_formed palette /\ well_formed white
  /\ exists result,
       applyMinimalHueAdjustments palette white 4.5 10 = Normal result
       /\ Forall2 same_saturation_and_lightness palette result
       /\ result !! 0%nat = palette !! 0%nat.
Proof.
  intros palette.
  assert (Hwf : Forall well_formed palette)
    by (repeat constructor; apply fromHsl_well_formed).
  split; [exact Hwf |]. split; [apply hex_color_well_formed |].
  exact (applyMinimalHueAdjustments_changes_hue_only palette white 4.5 10
           Hwf (hex_color_well_formed _ _ _ _)).
Defined.

(** ** Contrast levels *)

(** X14: the compliance check is symmetric in the two colours; a pair
    that meets level AAA meets level AA; and a colour with channels between
    0 and 255 never meets a level against itself, its ratio being 1. *)
Theorem meetsWCAGContrast_symmetric_and_graded (a b : ColorUtil)
    (level : string) :
  meetsWCAGContrast a b level = meetsWCAGContrast b a level
  /\ (meetsWCAGContrast a b "AAA" = Normal true ->
      meetsWCAGContrast a b "AA" = Normal true)
  /\ (in_gamut a -> meetsWCAGContrast a a level = Normal false).
Proof.
  unfold meetsWCAGContrast. split; [| split].
  - rewrite (getContrastRatio_comm a b). reflexivity.
  - destruct (getContrastRatio a b) as [ratio | e]; [| discriminate].
    rewrite !bind_Normal, decide_True, decide_False
      by (reflexivity || discriminate).
    intros [= Hmeets]. apply bool_decide_eq_true in Hmeets.
    f_equal. apply bool_decide_eq_true_2. lra.
  - intros Hgamut.
    destruct (getLuminance_unit a Hgamut) as (lum & Hlum & Hrange).
    unfold getContrastRatio. rewrite Hlum, !bind_Normal. cbv zeta.
    rewrite Rmax_left, Rmin_left by lra.
    replace ((lum + 0.05) / (lum + 0.05)) with 1 by (field; lra).
    f_equal. apply bool_decide_eq_false_2. case_decide; lra.
Qed.

(** ** The accessibility report of ExportManager *)

Lemma map_indexed_Normal {A B : Type} (f : A -> nat -> completion B)
    (l : list A) (start : nat) (ys : list B) :
  map_indexed f start l = Normal ys ->
  length ys = length l
  /\ forall i x, l !! i = Some x ->
       exists y, ys !! i = Some y /\ f x (start + i)%nat = Normal y.
Proof.
  revert start ys. induction l as [| x rest IH]; intros start ys;
    cbn [map_indexed].
  - intros [= <-]. split; [reflexivity |]. intros i x Hx. discriminate.
  - destruct (f x start) as [y | e] eqn:Hy; [| discriminate].
    rewrite bind_Normal.
    destruct (map_indexed f (S start) rest) as [ys' | e] eqn:Hrest;
      [| discriminate].
    rewrite bind_Normal. intros [= <-].
    destruct (IH _ _ Hrest) as [Hlen Hslots].
    split; [cbn; congruence |].
    intros [| i] x' Hx'.
    + injection Hx' as <-. exists y. rewrite Nat.add_0_r. auto.
    + destruct (Hslots i x' Hx') as (y' & Hy' & Hf).
      exists y'. split; [exact Hy' |].
      replace (start + S i)%nat with (S start + i)%nat by lia. exact Hf.
Qed.

Lemma getContrastRatio_calculateContrast (a b : ColorUtil) (la lb : R) :
  getLuminance a = Normal la -> getLuminance b = Normal lb ->
  getContrastRatio a b = Normal (calculateContrast la lb).
Proof.
  intros Ha Hb. unfold getContrastRatio. rewrite Ha, bind_Normal, Hb, bind_Normal.
  reflexivity.
Qed.

(** X15: on the light side the report of [checkWCAGCompliance] has one
    entry per colour, numbered from 1, whose ratio is the contrast ratio of
    the colour against white, whose compliance is what [meetsWCAGContrast]
    answers for the level, and whose level is what the page shows
    ([getAccessibilityLevel]). *)
Theorem export_light_compliance_agrees (lightOptimized darkOptimized : list ColorUtil)
    (wcagLevel : string) (report : WCAGCompliance.t) :
  checkWCAGCompliance lightOptimized darkOptimized wcagLevel = Normal report ->
  length (WCAGCompliance.lightBackground report) = length lightOptimized
  /\ forall i c, lightOptimized !! i = Some c ->
       exists e,
         WCAGCompliance.lightBackground report !! i = Some e
         /\ WCAGCompliance.colorIndex e = S i
         /\ getContrastRatio c white = Normal (WCAGCompliance.ratio e)
         /\ meetsWCAGContrast c white wcagLevel
            = Normal (WCAGCompliance.compliant e)
         /\ WCAGCompliance.level e
            = getAccessibilityLevel (WCAGCompliance.ratio e).
Proof.
  unfold checkWCAGCompliance. cbv zeta.
  destruct (map_indexed _ 0 lightOptimized) as [lightC | e] eqn:Hlight;
    [| discriminate].
  rewrite bind_Normal.
  destruct (map_indexed _ 0 darkOptimized) as [darkC | e] eqn:Hdark;
    [| discriminate].
  rewrite bind_Normal. intros [= <-]. cbn [WCAGCompliance.lightBackground].
  destruct (map_indexed_Normal _ _ _ _ Hlight) as [Hlen Hslots].
  split; [exact Hlen |].
  intros i c Hc. destruct (Hslots i c Hc) as (e & He & Hf).
  exists e. split; [exact He |].
  destruct (getLuminance c) as [lum | err] eqn:Hlum; [| discriminate].
  rewrite bind_Normal in Hf. injection Hf as <-.
  cbn [WCAGCompliance.colorIndex WCAGCompliance.ratio WCAGCompliance.compliant
       WCAGCompliance.level].
  split; [lia |].
  pose proof (getContrastRatio_calculateContrast c white lum 1 Hlum
                getLuminance_white) as Hratio.
  split; [exact Hratio |].
  split; [| reflexivity].
  unfold meetsWCAGContrast. rewrite Hratio, bind_Normal. reflexivity.
Qed.

Lemma export_light_compliance_agrees_witness :
  exists report,
    checkWCAGCompliance [black; white] [white] "AAA" = Normal report
    /\ length (WCAGCompliance.lightBackground report)
       = length [black; white]
    /\ forall i c, [black; white] !! i = Some c ->
         exists e,
           WCAGCompliance.lightBackground report !! i = Some e
           /\ WCAGCompliance.colorIndex e = S i
           /\ getContrastRatio c white = Normal (WCAGCompliance.ratio e)
           /\ meetsWCAGContrast c white "AAA"
              = Normal (WCAGCompliance.compliant e)
           /\ WCAGCompliance.level e
              = getAccessibilityLevel (WCAGCompliance.ratio e).
Proof.
  eexists. split; [reflexivity |].
  exact (export_light_compliance_agrees [black; white] [white] "AAA" _
           eq_refl).
Defined.

Lemma getLuminance_darkBg :
  exists lum, getLuminance darkBg = Normal lum /\ 0 < lum <= 0.08.
Proof.
  unfold getLuminance, darkBg, hex_color. cbn [rgb deref].
  rewrite bind_Normal. cbn [RGB.r RGB.g RGB.b]. unfold linearize. cbv zeta.
  rewrite !decide_False by lra.
  destruct (Math_pow_gamma_bounds ((44 / 255 + 0.055) / 1.055)) as [H1 H1'];
    [lra |].
  destruct (Math_pow_gamma_bounds ((62 / 255 + 0.055) / 1.055)) as [H2 H2'];
    [lra |].
  destruct (Math_pow_gamma_bounds ((80 / 255 + 0.055) / 1.055)) as [H3 H3'];
    [lra |].
  eexists. split; [reflexivity |]. split; nra.
Qed.

Lemma meetsWCAGContrast_white_darkBg :
  meetsWCAGContrast white darkBg "AAA" = Normal true.
Proof.
  destruct getLuminance_darkBg as (lum & Hlum & Hpos & Hle).
  unfold meetsWCAGContrast.
  rewrite (getContrastRatio_calculateContrast white darkBg 1 lum
             getLuminance_white Hlum), bind_Normal.
  rewrite decide_True by reflexivity. f_equal.
  apply bool_decide_eq_true_2. unfold calculateContrast. cbv zeta.
  rewrite Rmax_left, Rmin_right by lra.
  apply Rle_ge, Rdiv_ge_bound; lra.
Qed.

Lemma calculateContrast_dark_stand_in (lum : R) :
  0 <= lum <= 1 -> calculateContrast lum 0.133 < 5.74.
Proof.
  intros Hlum. unfold calculateContrast. cbv zeta.
  unfold Rmax, Rmin. repeat destruct (Rle_dec _ _); try lra;
    apply Rdiv_lt_bound; lra.
Qed.

(** X16: on the dark side [checkWCAGCompliance] measures against a
    stand-in luminance of 0.133, not against the dark background [#2c3e50]
    whose luminance is below 0.08.  For colours with channels between 0 and
    255 every dark entry has a ratio below 5.74, so no entry is rated AAA
    and, at level AAA, no entry and no non-empty dark palette is reported
    compliant, although white on [#2c3e50] meets AAA. *)
Theorem export_dark_compliance_uses_stand_in
    (lightOptimized darkOptimized : list ColorUtil) (wcagLevel : string)
    (report : WCAGCompliance.t) :
  Forall in_gamut darkOptimized ->
  checkWCAGCompliance lightOptimized darkOptimized wcagLevel = Normal report ->
  Forall (fun e =>
            WCAGCompliance.ratio e < 5.74
            /\ WCAGCompliance.level e <> "AAA"%string
            /\ (wcagLevel = "AAA"%string -> WCAGCompliance.compliant e = false))
    (WCAGCompliance.darkBackground report)
  /\ (wcagLevel = "AAA"%string -> darkOptimized <> [] ->
      WCAGCompliance.dark (WCAGCompliance.overallCompliant report) = false)
  /\ meetsWCAGContrast white darkBg "AAA" = Normal true.
Proof.
  intros Hgamut. unfold checkWCAGCompliance. cbv zeta.
  destruct (map_indexed _ 0 lightOptimized) as [lightC | e] eqn:Hlight;
    [| discriminate].
  rewrite bind_Normal.
  destruct (map_indexed _ 0 darkOptimized) as [darkC | e] eqn:Hdark;
    [| discriminate].
  rewrite bind_Normal. intros [= <-].
  cbn [WCAGCompliance.darkBackground WCAGCompliance.overallCompliant
       WCAGCompliance.dark].
  destruct (map_indexed_Normal _ _ _ _ Hdark) as [Hlen Hslots].
  assert (Hall : Forall (fun e =>
            WCAGCompliance.ratio e < 5.74
            /\ WCAGCompliance.level e <> "AAA"%string
            /\ (wcagLevel = "AAA"%string -> WCAGCompliance.compliant e = false))
            darkC).
  { apply Forall_lookup_2. intros i e He.
    assert (Hi : (i < length darkOptimized)%nat)
      by (rewrite <- Hlen; eapply lookup_lt_Some; eassumption).
    destruct (lookup_lt_is_Some_2 darkOptimized i Hi) as [c Hc].
    destruct (Hslots i c Hc) as (e' & He' & Hf).
    rewrite He in He'. injection He' as <-.
    destruct (getLuminance_unit c (Forall_lookup_1 _ _ _ _ Hgamut Hc))
      as (lum & Hlum & Hrange).
    rewrite Hlum, bind_Normal in Hf. injection Hf as <-.
    cbn [WCAGCompliance.ratio WCAGCompliance.level WCAGCompliance.compliant].
    pose proof (calculateContrast_dark_stand_in lum Hrange) as Hlt.
    split; [exact Hlt |]. split.
    - rewrite decide_False by lra.
      destruct (decide (calculateContrast lum 0.133 >= 4.5)); intros ?;
        discriminate.
    - intros ->. rewrite decide_True by reflexivity.
      apply bool_decide_eq_false_2. lra. }
  split; [exact Hall |]. split; [| exact meetsWCAGContrast_white_darkBg].
  intros Hlevel Hne.
  destruct darkC as [| e rest].
  - destruct darkOptimized; [contradiction | cbn in Hlen; lia].
  - apply Forall_cons in Hall as [(_ & _ & Hfalse) _].
    cbn [forallb]. rewrite (Hfalse Hlevel). reflexivity.
Qed.

Lemma export_dark_compliance_uses_stand_in_witness :
  Forall in_gamut [white; black]
  /\ exists report,
       checkWCAGCompliance [black] [white; black] "AAA" = Normal report
       /\ Forall (fun e =>
                    WCAGCompliance.ratio e < 5.74
                    /\ WCAGCompliance.level e <> "AAA"%string
                    /\ ("AAA"%string = "AAA"%string ->
                        WCAGCompliance.compliant e = false))
            (WCAGCompliance.darkBackground report)
       /\ ("AAA"%string = "AAA"%string -> [white; black] <> [] ->
           WCAGCompliance.dark (WCAGCompliance.overallCompliant report)
           = false)
       /\ meetsWCAGContrast white darkBg "AAA" = Normal true.
Proof.
  assert (Hgamut : Forall in_gamut [white; black])
    by (repeat constructor; [exact in_gamut_white | exact in_gamut_black]).
  split; [exact Hgamut |].
  eexists. split; [reflexivity |].
  exact (export_dark_compliance_uses_stand_in [black] [white; black] "AAA" _
           Hgamut eq_refl).
Defined.

(** ** StateManager *)

Lemma outcome_bind_Returns {A B} (a : A) (f : A -> outcome B) :
  (Returns a ≫= f) = f a.
Proof. reflexivity. Qed.

Lemma outcome_bind_inv {A B} (m : outcome A) (f : A -> outcome B) (b : B) :
  (m ≫= f) = Returns b -> exists a, m = Returns a /\ f a = Returns b.
Proof. destruct m as [a | e]; [eauto | discriminate]. Qed.

Lemma set_property_cases (fields fields' : gmap string jsval) (key : string)
    (value : jsval) :
  set_property fields key value = Returns fields' ->
  fields' = fields \/ fields' = <[key := value]> fields.
Proof.
  unfold set_property. case_decide.
  - destruct (primitive value); [| discriminate]. intros [= <-]. left.
    reflexivity.
  - intros [= <-]. right. reflexivity.
Qed.

Lemma set_property_own_name (fields : gmap string jsval) (key : string)
    (value : jsval) :
  inherited key = false ->
  set_property fields key value = Returns (<[key := value]> fields).
Proof.
  intros Hown. unfold set_property. rewrite decide_False; [reflexivity |].
  intros [-> _]. discriminate.
Qed.

Lemma plain_walk_empty (keys : list string) : plain_walk keys (JObj ∅).
Proof. destruct keys; cbn [plain_walk]; [| rewrite lookup_empty]; exact I. Qed.

(** What [setValueByPath] writes along own names through plain objects is
    what [getValueByPath] reads along the same keys. *)
Lemma set_walk_get_walk (keys : list string) (lastKey : string)
    (value current : jsval) :
  Forall (fun key => inherited key = false) keys ->
  inherited lastKey = false ->
  plain_walk keys current ->
  exists current',
    set_walk keys lastKey value current = Returns current'
    /\ get_walk (keys ++ [lastKey]) current' = Returns value.
Proof.
  intros Hkeys Hlast. revert current.
  induction Hkeys as [| key rest Hkey _ IH]; intros current Hplain;
    cbn [plain_walk] in Hplain; destruct current as [| | | | | | fields | |];
    try contradiction; cbn [set_walk app].
  - rewrite set_property_own_name by assumption.
    rewrite outcome_bind_Returns. eexists. split; [reflexivity |].
    cbn [get_walk get_property]. rewrite lookup_insert_eq. reflexivity.
  - assert (Hnext : exists next,
              match fields !! key with
              | Some v => Returns v
              | None => if inherited key then Raises Unmodelled
                        else Returns (JObj ∅)
              end = Returns next
              /\ plain_walk rest next).
    { destruct (fields !! key) as [v |]; [eauto |].
      rewrite Hkey. eexists. split; [reflexivity | apply plain_walk_empty]. }
    destruct Hnext as (next & -> & Hnext).
    rewrite outcome_bind_Returns.
    destruct (IH next Hnext) as (next' & -> & Hread).
    rewrite outcome_bind_Returns. eexists. split; [reflexivity |].
    cbn [get_walk get_property]. rewrite lookup_insert_eq.
    rewrite outcome_bind_Returns. exact Hread.
Qed.

(** X17: for a dot path whose keys are none of the names every object
    inherits from [Object.prototype], whose last key is not empty, and
    which leads through plain objects only (no array, colour, date,
    primitive or [null] on the way; a missing key is fine),
    [setValueByPath] returns, creating the objects that are missing, and
    [getValueByPath] then reads the stored value back at the same path. *)
Theorem setValueByPath_getValueByPath (obj : jsval) (path : string)
    (front : list string) (lastKey : string) (value : jsval) :
  split_dots path EmptyString = front ++ [lastKey] ->
  lastKey <> EmptyString ->
  Forall (fun key => inherited key = false) (front ++ [lastKey]) ->
  plain_walk front obj ->
  exists obj',
    setValueByPath obj path value = Returns obj'
    /\ getValueByPath obj' path = Returns value.
Proof.
  intros Hsplit Hlast Hkeys Hplain.
  apply Forall_app in Hkeys as [Hfront Hown].
  apply Forall_cons in Hown as [Hown _].
  assert (Hpath : path <> EmptyString).
  { intros ->. cbn in Hsplit.
    destruct front as [| ? [| ? ?]]; cbn in Hsplit; congruence. }
  destruct (set_walk_get_walk front lastKey value obj Hfront Hown Hplain)
    as (obj' & Hset & Hget).
  exists obj'. unfold setValueByPath, getValueByPath.
  rewrite !decide_False by assumption.
  rewrite Hsplit, reverse_app. change (reverse [lastKey]) with [lastKey].
  cbn [app]. rewrite decide_False by assumption.
  rewrite reverse_involutive. split; assumption.
Qed.

Lemma setValueByPath_getValueByPath_witness :
  split_dots "settings.baseColor" EmptyString
  = ["settings"%string] ++ ["baseColor"%string]
  /\ "baseColor"%string <> EmptyString
  /\ Forall (fun key => inherited key = false)
       (["settings"%string] ++ ["baseColor"%string])
  /\ plain_walk ["settings"%string] (state new_StateManager)
  /\ exists obj',
       setValueByPath (state new_StateManager) "settings.baseColor"
         (JStr "#000000") = Returns obj'
       /\ getValueByPath obj' "settings.baseColor"
          = Returns (JStr "#000000").
Proof.
  assert (Hlast : "baseColor"%string <> EmptyString) by discriminate.
  assert (Hkeys : Forall (fun key => inherited key = false)
                    (["settings"%string] ++ ["baseColor"%string]))
    by (repeat constructor).
  assert (Hplain : plain_walk ["settings"%string] (state new_StateManager))
    by exact I.
  split; [reflexivity |]. split; [exact Hlast |]. split; [exact Hkeys |].
  split; [exact Hplain |].
  exact (setValueByPath_getValueByPath (state new_StateManager)
           "settings.baseColor" ["settings"%string] "baseColor"
           (JStr "#000000") eq_refl Hlast Hkeys Hplain).
Defined.

(** [getState] and [setState] on a top-level key that holds a value. *)
Lemma getState_top_level (this : StateManager) (fields : gmap string jsval)
    (key : string) (v : jsval) :
  state this = JObj fields -> fields !! key = Some v ->
  key <> EmptyString -> split_dots key EmptyString = [key] ->
  getState this key = Returns v.
Proof.
  intros Hstate Hv Hne Hsplit. unfold getState, getValueByPath.
  rewrite decide_False by assumption. rewrite Hsplit, Hstate.
  cbn [get_walk get_property]. rewrite Hv. reflexivity.
Qed.

Lemma setState_top_level (this : StateManager) (fields : gmap string jsval)
    (key : string) (old value : jsval) :
  state this = JObj fields -> fields !! key = Some old ->
  key <> EmptyString -> split_dots key EmptyString = [key] ->
  setState this key value
  = Returns (mkStateManager (JObj (<[key := value]> fields))
               (maxHistorySize this)).
Proof.
  intros Hstate Hold Hne Hsplit. unfold setState, getValueByPath, setValueByPath.
  rewrite !decide_False by assumption. rewrite Hsplit, Hstate.
  cbn [get_walk get_property reverse rev_append]. rewrite Hold.
  rewrite outcome_bind_Returns. cbn [get_walk].
  rewrite outcome_bind_Returns.
  change (reverse [key]) with [key]. cbn iota.
  rewrite decide_False by assumption.
  change (reverse []) with (@nil string). cbn [set_walk].
  unfold set_property. rewrite decide_False by (rewrite Hold; intros [_ [=]]).
  reflexivity.
Qed.

(** X18: [addToHistory] with a non-empty palette puts the new item first
    and keeps at most [maxHistorySize] items, dropping the oldest; the item
    carries a copy of the palette and a clone of the settings, and the
    settings themselves stay as they were.  [getHistoryItem] then returns
    the new item at index 0 and [null] at a negative index or one past the
    bound.  An empty palette changes nothing. *)
Theorem addToHistory_newest_first_bounded (this : StateManager)
    (fields : gmap string jsval) (settings : jsval)
    (history : list jsval) (color : jsval) (colors : list jsval)
    (now stamp : Z) :
  state this = JObj fields ->
  fields !! "settings"%string = Some settings -> holds_color settings = false ->
  fields !! "paletteHistory"%string = Some (JArr history) ->
  let historyItem :=
    JObj (list_to_map
            [("id", JNum (IZR now)); ("palette", JArr (color :: colors));
             ("timestamp", JDate stamp); ("settings", clone settings)]%string) in
  exists this',
    addToHistory this (JArr (color :: colors)) now stamp = Returns this'
    /\ getState this' "paletteHistory"
       = Returns (JArr (take (maxHistorySize this) (historyItem :: history)))
    /\ getState this' "settings" = Returns settings
    /\ maxHistorySize this' = maxHistorySize this
    /\ ((0 < maxHistorySize this)%nat ->
        getHistoryItem this' 0 = Returns historyItem)
    /\ (forall index, (index < 0 \/ Z.of_nat (maxHistorySize this) <= index)%Z ->
        getHistoryItem this' index = Returns JNull)
    /\ addToHistory this (JArr []) now stamp = Returns this.
Proof.
  intros Hstate Hsettings Hplain Hhistory historyItem.
  unfold addToHistory. rewrite Hstate. cbn [member get_property].
  rewrite Hsettings, outcome_bind_Returns.
  unfold deepClone. rewrite Hplain, outcome_bind_Returns.
  rewrite Hhistory, outcome_bind_Returns. cbn [spread_array].
  rewrite outcome_bind_Returns. cbv zeta. fold historyItem.
  set (newHistory := if decide _ then _ else _).
  assert (Hnew : newHistory = take (maxHistorySize this) (historyItem :: history)).
  { subst newHistory. case_decide; [reflexivity |].
    symmetry. apply take_ge. lia. }
  rewrite Hnew.
  rewrite (setState_top_level this fields "paletteHistory" (JArr history))
    by (try assumption; try reflexivity; discriminate).
  eexists. split; [reflexivity |].
  assert (Hget : getState
            (mkStateManager
               (JObj (<["paletteHistory"%string :=
                          JArr (take (maxHistorySize this)
                                  (historyItem :: history))]> fields))
               (maxHistorySize this)) "paletteHistory"
          = Returns (JArr (take (maxHistorySize this) (historyItem :: history)))).
  { eapply getState_top_level;
      [reflexivity | apply lookup_insert_eq | discriminate | reflexivity]. }
  split; [exact Hget |]. split; [| split; [reflexivity |]].
  - eapply getState_top_level;
      [reflexivity | | discriminate | reflexivity].
    rewrite lookup_insert_ne by discriminate. exact Hsettings.
  - split; [| split; [| reflexivity]].
    + intros Hmax. unfold getHistoryItem. rewrite Hget, outcome_bind_Returns.
      destruct (maxHistorySize this) as [| n]; [lia |].
      cbn [take length]. rewrite decide_False by lia. reflexivity.
    + intros index Hindex. unfold getHistoryItem.
      rewrite Hget, outcome_bind_Returns.
      rewrite decide_True; [reflexivity |].
      pose proof (length_take_le (historyItem :: history) (maxHistorySize this)).
      destruct (decide (maxHistorySize this
                        <= length (historyItem :: history))%nat).
      * rewrite length_take_le by assumption. lia.
      * rewrite take_ge by lia. lia.
Qed.

Lemma addToHistory_newest_first_bounded_witness :
  let this := new_StateManager in
  let fields : gmap string jsval :=
    list_to_map
      [("currentPalette", JArr []); ("lightOptimizedPalette", JArr []);
       ("darkOptimizedPalette", JArr []); ("paletteHistory", JArr []);
       ("isLoading", JBool false);
       ("settings", JObj initial_settings)]%string in
  let settings := JObj initial_settings in
  let historyItem :=
    JObj (list_to_map
            [("id", JNum (IZR 1700000000000));
             ("palette", JArr [JColor black; JColor white]);
             ("timestamp", JDate 1700000000000);
             ("settings", clone settings)]%string) in
  state this = JObj fields
  /\ fields !! "settings"%string = Some settings
  /\ holds_color settings = false
  /\ fields !! "paletteHistory"%string = Some (JArr [])
  /\ exists this',
       addToHistory this (JArr [JColor black; JColor white]) 1700000000000
         1700000000000 = Returns this'
       /\ getState this' "paletteHistory"
          = Returns (JArr (take (maxHistorySize this) [historyItem]))
       /\ getState this' "settings" = Returns settings
       /\ maxHistorySize this' = maxHistorySize this
       /\ ((0 < maxHistorySize this)%nat ->
           getHistoryItem this' 0 = Returns historyItem)
       /\ (forall index,
             (index < 0 \/ Z.of_nat (maxHistorySize this) <= index)%Z ->
             getHistoryItem this' index = Returns JNull)
       /\ addToHistory this (JArr []) 1700000000000 1700000000000
          = Returns this.
Proof.
  intros this fields settings historyItem.
  split; [reflexivity |]. split; [reflexivity |]. split; [reflexivity |].
  split; [reflexivity |].
  exact (addToHistory_newest_first_bounded this fields settings []
           (JColor black) [JColor white] 1700000000000 1700000000000
           eq_refl eq_refl eq_refl eq_refl).
Defined.

(** The loop of [updateSettings]: every setting is left as it was or
    holds an entry that [validateSetting] accepts. *)
Lemma updateSettings_fold (current entries updated : gmap string jsval) :
  map_fold (fun key value (updated : outcome (gmap string jsval)) =>
              updatedSettings ← updated;
              if validateSetting key value
              then set_property updatedSettings key value
              else Returns updatedSettings)
    (Returns current) entries = Returns updated ->
  forall key,
    updated !! key = current !! key
    \/ exists value,
         entries !! key = Some value /\ validateSetting key value = true
         /\ updated !! key = Some value.
Proof.
  revert updated.
  apply (map_fold_weak_ind
           (fun (r : outcome (gmap string jsval)) (m : gmap string jsval) =>
              forall updated, r = Returns updated ->
                forall key,
                  updated !! key = current !! key
                  \/ exists value,
                       m !! key = Some value
                       /\ validateSetting key value = true
                       /\ updated !! key = Some value)).
  - intros updated [= <-] key. left. reflexivity.
  - intros i x m r Hfresh IH updated Hstep key.
    apply outcome_bind_inv in Hstep as (u & -> & Hstep).
    specialize (IH u eq_refl).
    assert (Hkept : updated = u ->
              updated !! key = current !! key
              \/ exists value,
                   <[i := x]> m !! key = Some value
                   /\ validateSetting key value = true
                   /\ updated !! key = Some value).
    { intros ->. destruct (IH key) as [Hsame | (value & Hm & Hv & Hu)];
        [left; exact Hsame |].
      right. exists value. rewrite lookup_insert_ne by congruence. auto. }
    destruct (validateSetting i x) eqn:Hvalid;
      [| injection Hstep as <-; apply Hkept; reflexivity].
    apply set_property_cases in Hstep as [-> | ->];
      [apply Hkept; reflexivity |].
    destruct (decide (key = i)) as [-> | Hne].
    + right. exists x. rewrite !lookup_insert_eq. auto.
    + rewrite lookup_insert_ne by congruence.
      destruct (IH key) as [Hsame | (value & Hm & Hv & Hu)];
        [left; exact Hsame |].
      right. exists value. rewrite lookup_insert_ne by congruence. auto.
Qed.




Lemma hexToRgb_hash_digits (digits : string) :
  is_Some (hexToRgb (String "#" digits))
  <-> String.length digits = 6%nat
      /\ Forall (fun c => is_Some (hex_value c)) (list_ascii_of_string digits).
Proof.
  unfold hexToRgb, hex_digits.
  replace (String.prefix "#" (String "#" digits)) with true
    by (cbn; destruct digits; reflexivity).
  cbn [slice1]. split.
  - case_decide as Hlen; [| intros [? [=]]].
    destruct (mapM hex_value (list_ascii_of_string digits)) as [values |]
      eqn:Hvalues; [| intros [? [=]]].
    intros _. split; [exact Hlen |].
    assert (His : is_Some (mapM hex_value (list_ascii_of_string digits)))
      by (rewrite Hvalues; eauto).
    apply mapM_is_Some in His. exact His.
  - intros [Hlen Hall]. rewrite decide_True by exact Hlen.
    assert (His : is_Some (mapM hex_value (list_ascii_of_string digits)))
      by (apply mapM_is_Some; exact Hall).
    destruct His as [values Hvalues]. rewrite Hvalues.
    apply length_mapM in Hvalues.
    assert (Hsix : length values = 6%nat).
    { rewrite <- Hvalues. clear -Hlen. revert Hlen.
      generalize 6%nat. induction digits as [| c rest IH]; intros n Hn;
        cbn in *; [exact Hn |].
      destruct n as [| n]; [discriminate |]. f_equal. apply IH. congruence. }
    destruct values as [| ? [| ? [| ? [| ? [| ? [| ? [| ? ?]]]]]]];
      try discriminate. eauto.
Qed.

Lemma forallb_bool_decide {A} (P : A -> Prop) `{!forall x, Decision (P x)}
    (l : list A) :
  forallb (fun x => bool_decide (P x)) l = true <-> Forall P l.
Proof.
  induction l as [| x rest IH]; cbn [forallb].
  - split; [constructor | reflexivity].
  - rewrite andb_true_iff, bool_decide_eq_true, IH, Forall_cons. reflexivity.
Qed.

(** X20: what [validateSetting] accepts is what the generator can work
    with: a base colour is accepted exactly when the [ColorUtil]
    constructor builds a colour with that [hex] from it, a harmony type
    exactly when [colorHarmonies] has it, and an accepted palette size is
    the size the generator uses. *)
Theorem validated_settings_fit_the_generator :
  (forall color,
     validateSetting "baseColor" (JStr color) = true
     <-> exists c, new_ColorUtil color = Normal c /\ hex c = Some color)
  /\ (forall harmony,
        validateSetting "harmonyType" (JStr harmony) = true
        <-> is_Some (colorHarmonies harmony))
  /\ (forall size,
        validateSetting "paletteSize" (JNum size) = true ->
        INR (validateSize (SizeNumber size)) = size).
Proof.
  split; [| split].
  - intros color. unfold validateSetting.
    repeat (rewrite decide_False by discriminate).
    rewrite decide_True by reflexivity.
    destruct color as [| c digits]; [split; [discriminate |] |].
    { intros (c & Hc & Hhex). cbn in Hc. injection Hc as <-. discriminate. }
    destruct (decide (c = "#"%char)) as [-> | Hne].
    + cbn [is_hex_color]. rewrite andb_true_iff, bool_decide_eq_true.
      rewrite forallb_bool_decide, <- hexToRgb_hash_digits.
      unfold new_ColorUtil.
      replace (String.prefix "#" (String "#" digits)) with true
        by (cbn; destruct digits; reflexivity).
      split.
      * intros [channels Hx]. rewrite Hx. cbn [deref]. rewrite bind_Normal.
        eauto.
      * intros (col & Hcol & _).
        destruct (hexToRgb (String "#" digits)); [eauto | discriminate].
    + assert (Hp : String.prefix "#" (String c digits) = false).
      { change (String.prefix "#" (String c digits))
          with (if ascii_dec "#" c then String.prefix "" digits else false).
        destruct (ascii_dec "#" c) as [<- | _]; [contradiction | reflexivity]. }
      split.
      * unfold is_hex_color. intros Hv. exfalso.
        destruct c as [[] [] [] [] [] [] [] []]; try discriminate Hv.
        contradiction.
      * unfold new_ColorUtil. rewrite Hp. intros (col & [= <-] & [=]).
  - intros harmony. unfold validateSetting.
    repeat (rewrite decide_False by discriminate).
    rewrite decide_True by reflexivity.
    rewrite bool_decide_eq_true. unfold colorHarmonies.
    rewrite !elem_of_cons, elem_of_nil.
    repeat case_decide; subst; split; eauto; try tauto;
      intros H'; try (destruct H' as [? [=]]); intuition congruence.
  - intros size. unfold validateSetting. rewrite decide_True by reflexivity.
    rewrite bool_decide_eq_true. intros [-> | ->].
    + rewrite (validateSize_small 3) by lia. simpl. lra.
    + rewrite validateSize_5. simpl. lra.
Qed.

(** ** The settings stay valid *)

Lemma getValueByPath_top_level (fields : gmap string jsval) (key : string) :
  key <> EmptyString -> split_dots key EmptyString = [key] ->
  inherited key = false ->
  getValueByPath (JObj fields) key
  = Returns (default JUndefined (fields !! key)).
Proof.
  intros Hne Hsplit Hown. unfold getValueByPath.
  rewrite decide_False by assumption. rewrite Hsplit.
  cbn [get_walk get_property]. rewrite Hown.
  destruct (fields !! key); reflexivity.
Qed.

Lemma setValueByPath_top_level (fields : gmap string jsval) (key : string)
    (value : jsval) :
  key <> EmptyString -> split_dots key EmptyString = [key] ->
  inherited key = false ->
  setValueByPath (JObj fields) key value
  = Returns (JObj (<[key := value]> fields)).
Proof.
  intros Hne Hsplit Hown. unfold setValueByPath.
  rewrite decide_False by assumption. rewrite Hsplit.
  change (reverse [key]) with [key]. cbn iota.
  rewrite decide_False by assumption.
  change (reverse []) with (@nil string). cbn [set_walk].
  unfold set_property. rewrite decide_False; [reflexivity |].
  intros [-> _]. discriminate.
Qed.

Lemma setState_top_level_any (this : StateManager)
    (fields : gmap string jsval) (key : string) (value : jsval) :
  state this = JObj fields ->
  key <> EmptyString -> split_dots key EmptyString = [key] ->
  inherited key = false ->
  setState this key value
  = Returns (mkStateManager (JObj (<[key := value]> fields))
               (maxHistorySize this)).
Proof.
  intros Hstate Hne Hsplit Hown. unfold setState. rewrite Hstate.
  rewrite getValueByPath_top_level, setValueByPath_top_level by assumption.
  reflexivity.
Qed.

Lemma holds_valid_settings_insert (fields : gmap string jsval) (key : string)
    (value : jsval) (n : nat) :
  holds_valid_settings (mkStateManager (JObj fields) n) ->
  key <> "settings"%string ->
  holds_valid_settings (mkStateManager (JObj (<[key := value]> fields)) n).
Proof.
  intros (fields' & settings & [= <-] & Hsettings & Hvalid) Hne.
  exists (<[key := value]> fields), settings.
  split; [reflexivity |]. split; [| exact Hvalid].
  rewrite lookup_insert_ne by congruence. exact Hsettings.
Qed.

(** A write of a top-level key other than [settings] keeps the settings. *)
Lemma setState_keeps_settings (this this' : StateManager) (key : string)
    (value : jsval) :
  holds_valid_settings this ->
  key <> EmptyString -> split_dots key EmptyString = [key] ->
  inherited key = false -> key <> "settings"%string ->
  setState this key value = Returns this' ->
  holds_valid_settings this'.
Proof.
  intros Hinv Hne Hsplit Hown Hother.
  destruct this as [st n].
  destruct Hinv as (fields & settings & Hstate & Hsettings & Hvalid).
  cbn [state] in Hstate. subst st.
  rewrite (setState_top_level_any (mkStateManager (JObj fields) n) fields key
             value eq_refl Hne Hsplit Hown).
  intros [= <-]. apply holds_valid_settings_insert; [| exact Hother].
  exists fields, settings. auto.
Qed.

Lemma settings_valid_update (current entries updated : gmap string jsval) :
  settings_valid current ->
  (forall key,
     updated !! key = current !! key
     \/ exists value,
          entries !! key = Some value /\ validateSetting key value = true
          /\ updated !! key = Some value) ->
  settings_valid updated.
Proof.
  intros [Hvalid Hthere] Hlookup. split.
  - intros key value Hkey.
    destruct (Hlookup key) as [Hsame | (v & _ & Hok & Hv)].
    + apply Hvalid. congruence.
    + congruence.
  - eapply Forall_impl; [exact Hthere |].
    intros key His. cbv beta in *.
    destruct (Hlookup key) as [-> | (v & _ & _ & ->)]; eauto.
Qed.

Lemma updateSettings_keeps_settings (this this' : StateManager)
    (newSettings : jsval) :
  holds_valid_settings this ->
  updateSettings this newSettings = Returns this' ->
  holds_valid_settings this'.
Proof.
  intros Hinv. unfold updateSettings.
  destruct (falsy newSettings
            || negb (bool_decide (typeof newSettings = "object"%string)));
    [intros [= <-]; exact Hinv |].
  destruct this as [st n].
  destruct Hinv as (fields & current & Hstate & Hcurrent & Hvalid).
  cbn [state] in Hstate. subst st.
  rewrite (getState_top_level (mkStateManager (JObj fields) n) fields
             "settings" (JObj current))
    by (try assumption; try reflexivity; discriminate).
  rewrite outcome_bind_Returns. cbn [spread_object].
  rewrite outcome_bind_Returns.
  intros Hrun. apply outcome_bind_inv in Hrun as (entries & _ & Hrun).
  apply outcome_bind_inv in Hrun as (updated & Hfold & Hset).
  rewrite (setState_top_level (mkStateManager (JObj fields) n) fields
             "settings" (JObj current)) in Hset
    by (try assumption; try reflexivity; discriminate).
  injection Hset as <-.
  exists (<["settings"%string := JObj updated]> fields), updated.
  split; [reflexivity |]. split; [apply lookup_insert_eq |].
  exact (settings_valid_update current entries updated Hvalid
           (updateSettings_fold current entries updated Hfold)).
Qed.

Lemma initial_settings_valid : settings_valid initial_settings.
Proof.
  split.
  - intros key value Hlookup. unfold initial_settings in Hlookup.
    apply elem_of_list_to_map_2 in Hlookup.
    repeat (apply elem_of_cons in Hlookup as [[= -> ->] | Hlookup]);
      try (apply elem_of_nil in Hlookup; contradiction);
      try reflexivity.
    unfold validateSetting. rewrite decide_True by reflexivity.
    apply bool_decide_eq_true_2. right. reflexivity.
  - repeat constructor; eexists; reflexivity.
Qed.

Lemma new_StateManager_valid : holds_valid_settings new_StateManager.
Proof.
  eexists _, initial_settings. split; [reflexivity |].
  split; [reflexivity | exact initial_settings_valid].
Qed.

Lemma write_each_keeps_settings (updates : list (string * jsval))
    (fields : gmap string jsval) (current : jsval) :
  Forall (fun update : string * jsval =>
            update.1 ∈ ["currentPalette"; "lightOptimizedPalette";
                        "darkOptimizedPalette"]%string) updates ->
  write_each updates (JObj fields) = Returns current ->
  exists fields',
    current = JObj fields'
    /\ fields' !! "settings"%string = fields !! "settings"%string.
Proof.
  intros Hkeys. revert fields.
  induction Hkeys as [| [key value] rest Hkey _ IH]; intros fields;
    cbn [write_each].
  - intros [= <-]. eauto.
  - cbn [fst] in Hkey.
    assert (Hwrite : setValueByPath (JObj fields) key value
                     = Returns (JObj (<[key := value]> fields))
                     /\ key <> "settings"%string).
    { repeat (apply elem_of_cons in Hkey as [-> | Hkey]);
        try (apply elem_of_nil in Hkey; contradiction);
        (split; [apply setValueByPath_top_level;
                   [discriminate | reflexivity | reflexivity]
                | discriminate]). }
    destruct Hwrite as [-> Hother]. cbn [catching].
    rewrite outcome_bind_Returns. intros Hrest.
    destruct (IH _ Hrest) as (fields' & -> & Hsame).
    exists fields'. split; [reflexivity |].
    rewrite Hsame. apply lookup_insert_ne. congruence.
Qed.

Lemma updateState_keeps_settings (this this' : StateManager)
    (updates : list (string * jsval)) :
  holds_valid_settings this ->
  Forall (fun update : string * jsval =>
            update.1 ∈ ["currentPalette"; "lightOptimizedPalette";
                        "darkOptimizedPalette"]%string) updates ->
  updateState this updates = Returns this' ->
  holds_valid_settings this'.
Proof.
  intros (fields & settings & Hstate & Hsettings & Hvalid) Hkeys.
  unfold updateState. intros Hrun.
  apply outcome_bind_inv in Hrun as (oldValues & _ & Hrun).
  apply outcome_bind_inv in Hrun as (current & Hwrite & [= <-]).
  rewrite Hstate in Hwrite.
  destruct (write_each_keeps_settings updates fields current Hkeys Hwrite)
    as (fields' & -> & Hsame).
  exists fields', settings. split; [reflexivity |].
  split; [congruence | exact Hvalid].
Qed.

Lemma setPalettes_keeps_settings (this this' : StateManager)
    (palettes : jsval) :
  holds_valid_settings this ->
  setPalettes this palettes = Returns this' ->
  holds_valid_settings this'.
Proof.
  intros Hinv. unfold setPalettes. intros Hrun.
  apply outcome_bind_inv in Hrun as (base & _ & Hrun).
  apply outcome_bind_inv in Hrun as (light & _ & Hrun).
  apply outcome_bind_inv in Hrun as (dark & _ & Hrun).
  cbv zeta in Hrun. case_decide; [| injection Hrun as <-; exact Hinv].
  refine (updateState_keeps_settings this this' _ Hinv _ Hrun).
  clear. destruct (isArray base), (isArray light), (isArray dark);
    cbn [app];
    repeat (apply Forall_cons; split;
            [cbn [fst]; rewrite !elem_of_cons; auto 6 |]);
    constructor.
Qed.

Lemma setLoading_keeps_settings (this this' : StateManager)
    (isLoading : jsval) :
  holds_valid_settings this ->
  setLoading this isLoading = Returns this' ->
  holds_valid_settings this'.
Proof.
  intros Hinv. unfold setLoading.
  case_decide; [| intros [= <-]; exact Hinv].
  apply setState_keeps_settings;
    [exact Hinv | discriminate | reflexivity | reflexivity | discriminate].
Qed.

Lemma clearHistory_keeps_settings (this this' : StateManager) :
  holds_valid_settings this ->
  clearHistory this = Returns this' ->
  holds_valid_settings this'.
Proof.
  intros Hinv. unfold clearHistory.
  apply setState_keeps_settings;
    [exact Hinv | discriminate | reflexivity | reflexivity | discriminate].
Qed.

Lemma addToHistory_keeps_settings (this this' : StateManager)
    (palette : jsval) (now stamp : Z) :
  holds_valid_settings this ->
  addToHistory this palette now stamp = Returns this' ->
  holds_valid_settings this'.
Proof.
  intros Hinv. unfold addToHistory.
  destruct palette as [| | | | | [| color colors] | | |];
    try (intros [= <-]; exact Hinv).
  intros Hrun.
  apply outcome_bind_inv in Hrun as (settings & _ & Hrun).
  apply outcome_bind_inv in Hrun as (cloned & _ & Hrun).
  apply outcome_bind_inv in Hrun as (history & _ & Hrun).
  apply outcome_bind_inv in Hrun as (items & _ & Hrun).
  cbv zeta in Hrun. revert Hrun.
  apply setState_keeps_settings;
    [exact Hinv | discriminate | reflexivity | reflexivity | discriminate].
Qed.

Lemma updateDifferentiationSettings_keeps_settings (this this' : StateManager)
    (newDifferentiationSettings : jsval) :
  holds_valid_settings this ->
  updateDifferentiationSettings this newDifferentiationSettings
  = Returns this' ->
  holds_valid_settings this'.
Proof.
  intros Hinv. unfold updateDifferentiationSettings. intros Hrun.
  apply outcome_bind_inv in Hrun as (currentSettings & _ & Hrun).
  apply outcome_bind_inv in Hrun as (currentDiffSettings & _ & Hrun).
  apply outcome_bind_inv in Hrun as (spread & _ & Hrun).
  apply outcome_bind_inv in Hrun as (enabled & _ & Hrun).
  cbv zeta in Hrun.
  exact (updateSettings_keeps_settings this this' _ Hinv Hrun).
Qed.

Lemma reset_keeps_settings (this this' : StateManager) :
  holds_valid_settings this ->
  reset this = Returns this' ->
  holds_valid_settings this'.
Proof.
  intros (fields & settings & Hstate & _). destruct this as [st n].
  cbn [state] in Hstate. subst st. unfold reset. cbn [set_each].
  repeat (erewrite setState_top_level_any;
          [rewrite outcome_bind_Returns
          | reflexivity | discriminate | reflexivity | reflexivity]).
  intros [= <-].
  eexists _, initial_settings. split; [reflexivity |].
  split; [apply lookup_insert_eq | exact initial_settings_valid].
Qed.

Lemma perform_keeps_settings (this this' : StateManager) (c : call) :
  holds_valid_settings this -> writes_history_only c ->
  perform this c = Returns this' ->
  holds_valid_settings this'.
Proof.
  intros Hinv Hpath. destruct c; cbn [perform].
  - apply updateSettings_keeps_settings; exact Hinv.
  - apply updateDifferentiationSettings_keeps_settings; exact Hinv.
  - apply setPalettes_keeps_settings; exact Hinv.
  - apply setLoading_keeps_settings; exact Hinv.
  - apply addToHistory_keeps_settings; exact Hinv.
  - apply clearHistory_keeps_settings; exact Hinv.
  - apply reset_keeps_settings; exact Hinv.
  - cbn [writes_history_only] in Hpath. subst path.
    apply setState_keeps_settings;
      [exact Hinv | discriminate | reflexivity | reflexivity | discriminate].
Qed.

Lemma perform_all_keeps_settings (calls : list call)
    (this this' : StateManager) :
  holds_valid_settings this -> Forall writes_history_only calls ->
  perform_all calls this = Returns this' ->
  holds_valid_settings this'.
Proof.
  intros Hinv Hcalls. revert this Hinv.
  induction Hcalls as [| c rest Hc _ IH]; intros this Hinv;
    cbn [perform_all].
  - intros [= <-]. exact Hinv.
  - intros Hrun. apply outcome_bind_inv in Hrun as (next & Hnext & Hrest).
    exact (IH next (perform_keeps_settings this next c Hinv Hc Hnext) Hrest).
Qed.

Lemma is_hex_color_parses (color : string) :
  is_hex_color color = true ->
  String.prefix "#" color = true /\ is_Some (hexToRgb color).
Proof.
  destruct color as [| c digits]; [discriminate |].
  destruct c as [[] [] [] [] [] [] [] []]; try discriminate.
  cbn [is_hex_color]. rewrite andb_true_iff, bool_decide_eq_true.
  rewrite forallb_bool_decide, <- hexToRgb_hash_digits.
  intros Hread. split; [destruct digits; reflexivity | exact Hread].
Qed.

(** Selects the case of [validateSetting] for the key of [H]. *)
Ltac settle_key H :=
  repeat (rewrite decide_False in H by discriminate);
  rewrite decide_True in H by reflexivity.

(** What valid settings hold under the five keys of the constructor. *)
Lemma settings_valid_shape (settings : gmap string jsval) :
  settings_valid settings ->
  exists size level harmony color diff enabled,
    settings !! "paletteSize"%string = Some (JNum size)
    /\ (size = 3 \/ size = 5)
    /\ settings !! "wcagLevel"%string = Some (JStr level)
    /\ (level = "AA"%string \/ level = "AAA"%string)
    /\ settings !! "harmonyType"%string = Some (JStr harmony)
    /\ is_Some (colorHarmonies harmony)
    /\ settings !! "baseColor"%string = Some (JStr color)
    /\ is_hex_color color = true
    /\ settings !! "differentiationSettings"%string = Some (JObj diff)
    /\ diff !! "enabled"%string = Some (JBool enabled).
Proof.
  intros [Hvalid Hthere].
  apply Forall_cons in Hthere as [[size Hsize] Hthere].
  apply Forall_cons in Hthere as [[level Hlevel] Hthere].
  apply Forall_cons in Hthere as [[harmony Hharmony] Hthere].
  apply Forall_cons in Hthere as [[color Hcolor] Hthere].
  apply Forall_cons in Hthere as [[diff Hdiff] _].
  pose proof (Hvalid _ _ Hsize) as Vsize.
  pose proof (Hvalid _ _ Hlevel) as Vlevel.
  pose proof (Hvalid _ _ Hharmony) as Vharmony.
  pose proof (Hvalid _ _ Hcolor) as Vcolor.
  pose proof (Hvalid _ _ Hdiff) as Vdiff.
  unfold validateSetting in Vsize, Vlevel, Vharmony, Vcolor, Vdiff.
  settle_key Vsize. settle_key Vlevel. settle_key Vharmony.
  settle_key Vcolor. settle_key Vdiff.
  destruct size as [| | | size | | | | |]; try discriminate.
  destruct level as [| | | | level | | | |]; try discriminate.
  destruct harmony as [| | | | harmony | | | |]; try discriminate.
  destruct color as [| | | | color | | | |]; try discriminate.
  apply bool_decide_eq_true in Vsize, Vlevel, Vharmony.
  assert (Hdiff' : exists fields enabled,
            diff = JObj fields
            /\ fields !! "enabled"%string = Some (JBool enabled)).
  { unfold validateDifferentiationSettings in Vdiff.
    destruct (falsy diff || negb (bool_decide (typeof diff = "object"%string)));
      [discriminate |].
    destruct diff as [| | | | | | fields | |]; try discriminate.
    destruct (fields !! "enabled"%string) as [[| | enabled | | | | | |] |]
      eqn:Henabled; try discriminate.
    exists fields, enabled. split; [reflexivity | exact Henabled]. }
  destruct Hdiff' as (fields & enabled & -> & Henabled).
  exists size, level, harmony, color, fields, enabled.
  repeat split; try assumption.
  unfold colorHarmonies.
  rewrite !elem_of_cons, elem_of_nil in Vharmony.
  destruct Vharmony as [-> | [-> | [-> | [-> | [-> | []]]]]];
    repeat (first [rewrite decide_True by reflexivity
                  | rewrite decide_False by discriminate]); eauto.
Qed.

(** X21: from a new state manager, after any sequence of the calls with
    which the application changes the state ([updateSettings],
    [updateDifferentiationSettings], [setPalettes], [setLoading],
    [addToHistory], [clearHistory], [reset], and [setState] on the
    history), the settings still hold a palette size of 3 or 5, a level AA
    or AAA, a harmony type that [colorHarmonies] has, a base colour of [#]
    and six hexadecimal digits and differentiation settings with a boolean
    [enabled]; with that base colour and harmony type [generatePalette]
    returns palettes, it does not throw. *)
Theorem settings_stay_fit_for_the_generator (calls : list call)
    (this' : StateManager) :
  Forall writes_history_only calls ->
  perform_all calls new_StateManager = Returns this' ->
  exists settings size level harmony color diff enabled,
    getState this' "settings" = Returns (JObj settings)
    /\ settings !! "paletteSize"%string = Some (JNum size)
    /\ (size = 3 \/ size = 5)
    /\ settings !! "wcagLevel"%string = Some (JStr level)
    /\ (level = "AA"%string \/ level = "AAA"%string)
    /\ settings !! "harmonyType"%string = Some (JStr harmony)
    /\ is_Some (colorHarmonies harmony)
    /\ settings !! "baseColor"%string = Some (JStr color)
    /\ is_hex_color color = true
    /\ settings !! "differentiationSettings"%string = Some (JObj diff)
    /\ diff !! "enabled"%string = Some (JBool enabled)
    /\ forall (generator : PaletteGenerator) (options : Options),
         well_formed (whiteColor generator) ->
         well_formed (darkBgColor generator) ->
         opt_baseColor options = Some color ->
         opt_harmonyType options = Some harmony ->
         exists palettes,
           (generatePalette generator options).1 = Normal palettes.
Proof.
  intros Hcalls Hrun.
  destruct (perform_all_keeps_settings calls new_StateManager this'
              new_StateManager_valid Hcalls Hrun)
    as (fields & settings & Hstate & Hsettings & Hvalid).
  destruct (settings_valid_shape settings Hvalid)
    as (size & level & harmony & color & diff & enabled & Hsize & Hsizes
        & Hlevel & Hlevels & Hharmony & [hues Hhues] & Hcolor & Hhex
        & Hdiff & Henabled).
  exists settings, size, level, harmony, color, diff, enabled.
  split.
  { apply (getState_top_level this' fields "settings" (JObj settings));
      [exact Hstate | exact Hsettings | discriminate | reflexivity]. }
  repeat (split; [first [assumption | eexists; eassumption] |]).
  intros generator options Hwhite Hdark Hbase Hharm.
  destruct (is_hex_color_parses color Hhex) as [Hprefix [channels Hread]].
  destruct (generatePalette_total generator options channels hues
              Hwhite Hdark) as (palettes & Hpalettes & _).
  - rewrite Hbase. exact Hprefix.
  - rewrite Hbase. exact Hread.
  - rewrite Hharm. exact Hhues.
  - exists palettes. exact Hpalettes.
Qed.

Lemma settings_stay_fit_for_the_generator_witness :
  let calls :=
    [UpdateSettings
       (JObj (list_to_map
                [("baseColor", JStr "#12ab9F"); ("harmonyType", JStr "square");
                 ("wcagLevel", JStr "AAA")]%string));
     SetLoading (JBool true);
     SetPalettes
       (JObj (list_to_map
                [("base", JArr [JColor black]);
                 ("lightOptimized", JArr [JColor black]);
                 ("darkOptimized", JArr [JColor white])]%string));
     AddToHistory (JArr [JColor black]) 1700000000000 1700000000000;
     UpdateDifferentiationSettings
       (JObj (list_to_map [("enabled", JBool false)]%string));
     SetState "paletteHistory" (JArr []);
     SetLoading (JBool false)] in
  Forall writes_history_only calls
  /\ exists this',
    perform_all calls new_StateManager = Returns this'
    /\ exists settings size level harmony color diff enabled,
         getState this' "settings" = Returns (JObj settings)
         /\ settings !! "paletteSize"%string = Some (JNum size)
         /\ (size = 3 \/ size = 5)
         /\ settings !! "wcagLevel"%string = Some (JStr level)
         /\ (level = "AA"%string \/ level = "AAA"%string)
         /\ settings !! "harmonyType"%string = Some (JStr harmony)
         /\ is_Some (colorHarmonies harmony)
         /\ settings !! "baseColor"%string = Some (JStr color)
         /\ is_hex_color color = true
         /\ settings !! "differentiationSettings"%string = Some (JObj diff)
         /\ diff !! "enabled"%string = Some (JBool enabled)
         /\ forall (generator : PaletteGenerator) (options : Options),
              well_formed (whiteColor generator) ->
              well_formed (darkBgColor generator) ->
              opt_baseColor options = Some color ->
              opt_harmonyType options = Some harmony ->
              exists palettes,
                (generatePalette generator options).1 = Normal palettes.
Proof.
  intros calls.
  assert (Hcalls : Forall writes_history_only calls)
    by (repeat constructor).
  split; [exact Hcalls |].
  eexists. split; [reflexivity |].
  exact (settings_stay_fit_for_the_generator calls _ Hcalls eq_refl).
Defined.
